(** * Data migrations of the SQL store
      (server/services/store/sqlstore/data_migrations.go)

    The two data migrations, [runUniqueIDsMigration] and
    [runCategoryUuidIdMigration], are embedded as programs of a small monad
    that threads a model of the store (the committed tables, the working
    copy of the open transaction), returns Go's [error] values, and records
    the calls issued to the database and the log entries written.  Every
    call may fail, and every iteration over a row set may end on an error,
    as the environment decides. *)

From Stdlib Require Import Ascii.
From stdpp Require Import gmap strings list fin_maps pretty.

Open Scope string_scope.
Open Scope list_scope.
Open Scope nat_scope.

(** * Part I: the model *)

(** ** Errors *)

(** A Go [error]: a base error, or [fmt.Errorf("<prefix>: %w", cause)]. *)
Inductive error :=
| ErrBase (msg : string)
| ErrWrap (prefix : string) (cause : error).

(** The end of the [errors.Unwrap] chain. *)
Fixpoint rootCause (e : error) : error :=
  match e with
  | ErrBase m => ErrBase m
  | ErrWrap _ c => rootCause c
  end.

(** [err.Error()] *)
Fixpoint Error (e : error) : string :=
  match e with
  | ErrBase m => m
  | ErrWrap p c => p +:+ ": " +:+ Error c
  end.

Definition isWrapped (e : error) : bool :=
  match e with ErrWrap _ _ => true | ErrBase _ => false end.

Inductive result (A : Type) :=
| Ok (a : A)
| Err (e : error).
Arguments Ok {A} a.
Arguments Err {A} e.

(** ** Tables *)

(** [model.Block], with the columns the migration reads. *)
Record Block := mkBlock {
  ID : string;
  WorkspaceID : string;
  BlockType : string;
  Title : string
}.

Record Category := mkCategory {
  cat_id : string;
  cat_name : string
}.

Record CategoryBlock := mkCategoryBlock {
  cb_id : string;
  cb_category_id : string;
  cb_block_id : string
}.

Record DB := mkDB {
  blocks : list Block;
  categories : list Category;
  category_blocks : list CategoryBlock;
  system_settings : gmap string string
}.

Global Instance error_eq_dec : EqDecision error.
Proof. solve_decision. Defined.
Global Instance Block_eq_dec : EqDecision Block.
Proof. solve_decision. Defined.
Global Instance Category_eq_dec : EqDecision Category.
Proof. solve_decision. Defined.
Global Instance CategoryBlock_eq_dec : EqDecision CategoryBlock.
Proof. solve_decision. Defined.

Definition set_ID (new : string) (b : Block) : Block :=
  mkBlock new (WorkspaceID b) (BlockType b) (Title b).
Definition set_cat_id (new : string) (c : Category) : Category :=
  mkCategory new (cat_name c).
Definition set_cb_id (new : string) (r : CategoryBlock) : CategoryBlock :=
  mkCategoryBlock new (cb_category_id r) (cb_block_id r).
Definition set_cb_category_id (new : string) (r : CategoryBlock) : CategoryBlock :=
  mkCategoryBlock (cb_id r) new (cb_block_id r).

Definition with_blocks (f : list Block → list Block) (d : DB) : DB :=
  mkDB (f (blocks d)) (categories d) (category_blocks d) (system_settings d).
Definition with_categories (f : list Category → list Category) (d : DB) : DB :=
  mkDB (blocks d) (f (categories d)) (category_blocks d) (system_settings d).
Definition with_category_blocks (f : list CategoryBlock → list CategoryBlock) (d : DB) : DB :=
  mkDB (blocks d) (categories d) (f (category_blocks d)) (system_settings d).
Definition with_system_settings (f : gmap string string → gmap string string) (d : DB) : DB :=
  mkDB (blocks d) (categories d) (category_blocks d) (f (system_settings d)).

(** The tables [getIDs] is called on. *)
Inductive Table := tbl_categories | tbl_category_blocks.

Global Instance Table_eq_dec : EqDecision Table.
Proof. solve_decision. Defined.

Definition tableName (t : Table) : string :=
  match t with
  | tbl_categories => "categories"
  | tbl_category_blocks => "category_blocks"
  end.

(** [SELECT id FROM <table>], in the listing order of the table. *)
Definition selectIDs (t : Table) (d : DB) : list string :=
  match t with
  | tbl_categories => cat_id <$> categories d
  | tbl_category_blocks => cb_id <$> category_blocks d
  end.

(** [UPDATE categories SET id = new WHERE id = old] *)
Definition sqlUpdateCategoriesID (new old : string) : DB → DB :=
  with_categories (fmap (λ c, if decide (cat_id c = old) then set_cat_id new c else c)).

(** [UPDATE category_blocks SET category_id = new WHERE category_id = old] *)
Definition sqlUpdateCategoryBlocksCategoryID (new old : string) : DB → DB :=
  with_category_blocks
    (fmap (λ r, if decide (cb_category_id r = old) then set_cb_category_id new r else r)).

(** [UPDATE category_blocks SET id = new WHERE id = old] *)
Definition sqlUpdateCategoryBlocksID (new old : string) : DB → DB :=
  with_category_blocks (fmap (λ r, if decide (cb_id r = old) then set_cb_id new r else r)).

(** Modelled from the spec: the statement of [replaceBlockID], which is not
    in data_migrations.go.  The spec's IdentityRemapper, for each (old, new)
    pair, updates "the identifier column in the owner table where it equals
    old", and blocks "have no listed dependents":
    [UPDATE blocks SET id = new WHERE id = cur].  The workspace the call
    site passes does not occur in the spec's statement. *)
Definition sqlReplaceBlockID (cur new ws : string) : DB → DB :=
  with_blocks (fmap (λ b, if decide (ID b = cur) then set_ID new b else b)).

(** Modelled from the spec: the rows returned by [getBlocksWithSameID], which
    is not in data_migrations.go.  The spec's DuplicateScanner lists all
    entity rows and retains only those whose identifier is shared by more
    than one row, in the listing order of the table. *)
Definition sqlBlocksWithSameID (d : DB) : list Block :=
  filter (λ b, 1 < length (filter (λ b', ID b' = ID b) (blocks d))) (blocks d).

(** Modelled from the spec: the value read by [GetSystemSetting], which is not
    in data_migrations.go.  The spec's system setting store is
    [get(key) -> string-or-absent] and "absent key reads as false, not an
    error": an absent key reads as the empty string. *)
Definition settingValue (key : string) (d : DB) : string :=
  default "" (system_settings d !! key).

(** Modelled from the spec: the write of [setSystemSetting], which is not in
    data_migrations.go: [set(tx, key, value)]. *)
Definition sqlSetSystemSetting (key value : string) : DB → DB :=
  with_system_settings <[key := value]>.

(** ** Go's [strconv] *)

(** [strconv.ParseBool]: the value, and the syntax error of a string that is
    none of the accepted spellings. *)
Definition ParseBool (s : string) : bool * option error :=
  if bool_decide (s ∈ ["1"; "t"; "T"; "TRUE"; "true"; "True"]) then (true, None)
  else if bool_decide (s ∈ ["0"; "f"; "F"; "FALSE"; "false"; "False"]) then (false, None)
  else (false, Some (ErrBase ("strconv.ParseBool: parsing " +:+ s +:+ ": invalid syntax"))).

Definition FormatBool (b : bool) : string := if b then "true" else "false".

(** ** Calls, log entries and the world *)

Inductive Op :=
| OpEnsureMigrations (version : nat)
| OpGetSystemSetting (key : string)
| OpBeginTx
| OpGetBlocksWithSameID
| OpReplaceBlockID (cur new ws : string)
| OpSetSystemSetting (key value : string)
| OpRollback
| OpCommit
| OpSelectIDs (t : Table)
| OpScan (t : Table)
| OpCloseRows
| OpUpdateCategoriesID (new old : string)
| OpUpdateCategoryBlocksCategoryID (new old : string)
| OpUpdateCategoryBlocksID (new old : string)
| OpRowsClose.

Inductive Field :=
| FErr (e : error)
| FString (key value : string).

Inductive Level := LDebug | LError.

(** What a run leaves behind for an observer: the calls it issued, each with
    its outcome, and the log entries it wrote. *)
Inductive Event :=
| EvOp (o : Op) (outcome : option error)
| EvLog (lvl : Level) (msg : string) (fields : list Field).

Global Instance Op_eq_dec : EqDecision Op.
Proof. solve_decision. Defined.
Global Instance Field_eq_dec : EqDecision Field.
Proof. solve_decision. Defined.
Global Instance Level_eq_dec : EqDecision Level.
Proof. solve_decision. Defined.
Global Instance Event_eq_dec : EqDecision Event.
Proof. solve_decision. Defined.

(** The state of the transaction; [TxUnknown] after a commit that returned
    an error. *)
Inductive TxState := TxNone | TxOpen | TxCommitted | TxRolledBack | TxUnknown.

(** The store as a run sees it: the committed database [db], the working
    copy [tx] of the transaction and its state, the number [clock] of calls
    issued so far, and the number [idc] of identifiers generated so far. *)
Record World := mkWorld {
  db : DB;
  tx : DB;
  txState : TxState;
  clock : nat;
  idc : nat
}.

Definition tick (w : World) : World :=
  mkWorld (db w) (tx w) (txState w) (S (clock w)) (idc w).
Definition with_tx (f : DB → DB) (w : World) : World :=
  mkWorld (db w) (f (tx w)) (txState w) (clock w) (idc w).
Definition begin_tx (w : World) : World :=
  mkWorld (db w) (db w) TxOpen (clock w) (idc w).
Definition rollback_tx (w : World) : World :=
  mkWorld (db w) (db w) TxRolledBack (clock w) (idc w).
Definition commit_tx (w : World) : World :=
  mkWorld (tx w) (tx w) TxCommitted (clock w) (idc w).
(** After a commit that returned an error: the store has applied the
    transaction ([landed]) or it has not. *)
Definition commit_unknown (landed : bool) (w : World) : World :=
  mkWorld (if landed then tx w else db w) (tx w) TxUnknown (clock w) (idc w).
Definition next_id (w : World) : World :=
  mkWorld (db w) (tx w) (txState w) (clock w) (S (idc w)).

(** [utils.IDType]: the neutral tag, or a tag derived from a block type. *)
Inductive IDType := IDTypeNone | IDTypeTag (tag : string).

(** What the run does not decide: which calls fail ([fault], by call
    number), the identifier generator [utils.NewID] (by the number of
    identifiers generated before), [model.BlockType2IDType], the order in
    which a [range] over a Go map visits its keys, the constant
    [uniqueIDsMigrationRequiredVersion], which is declared outside
    data_migrations.go, which calls of [rows.Next] end the iteration of a
    row set on an error ([nextErr], by the number of calls issued when
    [rows.Next] is called), and whether the store has applied a commit that
    returned an error ([commitLands], by call number). *)
Record Env := mkEnv {
  fault : nat → option error;
  utils_NewID : nat → IDType → string;
  BlockType2IDType : string → IDType;
  rangeOrder : list string → list string;
  uniqueIDsMigrationRequiredVersion : nat;
  nextErr : nat → option error;
  commitLands : nat → bool
}.

Definition UniqueIDsMigrationKey : string := "UniqueIDsMigrationComplete".
Definition CategoryUUIDIDMigrationKey : string := "CategoryUuidIdMigrationComplete".
Definition categoriesUUIDIDMigrationRequiredVersion : nat := 16.

(** ** The monad *)

(** A program takes the world and returns a result or an error, the world
    it leaves, and the events it produced. *)
Definition M (A : Type) : Type := World → result A * World * list Event.

Definition resultOf {A} (x : result A * World * list Event) : result A := x.1.1.
Definition worldOf {A} (x : result A * World * list Event) : World := x.1.2.
Definition eventsOf {A} (x : result A * World * list Event) : list Event := x.2.

Definition ret {A} (a : A) : M A := λ w, (Ok a, w, []).

Definition bind {A B} (m : M A) (k : A → M B) : M B := λ w,
  match m w with
  | (Ok a, w1, t1) => let '(r, w2, t2) := k a w1 in (r, w2, t1 ++ t2)
  | (Err e, w1, t1) => (Err e, w1, t1)
  end.

Global Instance M_ret : MRet M := @ret.
Global Instance M_bind : MBind M := λ A B k m, bind m k.

(** What runs on the way out of a function: it cannot change the result. *)
Definition Cleanup : Type := World → World * list Event.

(** [if err != nil { cleanup; return wrap(err) }] around [m]. *)
Definition onErr {A} (m : M A) (cleanup : error → Cleanup) (wrap : error → error) : M A :=
  λ w,
  match m w with
  | (Ok a, w1, t1) => (Ok a, w1, t1)
  | (Err e, w1, t1) => let '(w2, t2) := cleanup e w1 in (Err (wrap e), w2, t1 ++ t2)
  end.

(** [defer cleanup] in front of [m]. *)
Definition defer {A} (cleanup : Cleanup) (m : M A) : M A := λ w,
  let '(r, w1, t1) := m w in
  let '(w2, t2) := cleanup w1 in (r, w2, t1 ++ t2).

Fixpoint foldM {X S} (f : S → X → M S) (s : S) (l : list X) : M S :=
  match l with
  | [] => ret s
  | x :: l' => bind (f s x) (λ s', foldM f s' l')
  end.

(** [for _, x := range l { body }] over a slice. *)
Definition forM_ {X} (l : list X) (body : X → M unit) : M unit :=
  foldM (λ _ x, body x) tt l.

Definition noCleanup : error → Cleanup := λ _ w, (w, []).

Definition logDebug (msg : string) : M unit := λ w, (Ok tt, w, [EvLog LDebug msg []]).
Definition logError (msg : string) (fields : list Field) : Cleanup :=
  λ w, (w, [EvLog LError msg fields]).

Section Migrations.
Variable E : Env.

(** A call to the database or to the schema migrator: it takes the next
    call number, fails if the environment says so, and otherwise has its
    effect. *)
Definition exec (o : Op) (eff : World → World) : M unit := λ w,
  match fault E (clock w) with
  | Some e => (Err e, tick w, [EvOp o (Some e)])
  | None => (Ok tt, eff (tick w), [EvOp o None])
  end.

Definition query {A} (o : Op) (f : World → A) : M A := λ w,
  match fault E (clock w) with
  | Some e => (Err e, tick w, [EvOp o (Some e)])
  | None => (Ok (f w), tick w, [EvOp o None])
  end.

(** [utils.NewID(idType)] *)
Definition NewID (t : IDType) : M string := λ w,
  (Ok (utils_NewID E (idc w) t), next_id w, []).

(** [for k, v := range m] over a Go map: the keys in the order the
    environment picks, each with its value. *)
Definition rangeMap {V} (m : gmap string V) : list (string * V) :=
  omap (λ k, (k,.) <$> m !! k) (rangeOrder E (map_to_list m).*1).

(** *** The collaborators *)

(** Modelled from the spec: [ensureMigrationsAppliedUpToVersion], which is
    not in data_migrations.go.  The spec's SchemaVersionGate is
    [ensureAppliedUpTo(requiredVersion) -> success | SchemaNotReadyError]
    and fails "without side effects": a call that fails or leaves the
    tables as they are. *)
Definition ensureMigrationsAppliedUpToVersion (version : nat) : M unit :=
  exec (OpEnsureMigrations version) id.

(** Modelled from the spec: [s.GetSystemSetting(key)], which is not in
    data_migrations.go; it is called on the store, not on the transaction,
    and returns [settingValue] or an error. *)
Definition GetSystemSetting (key : string) : M string :=
  query (OpGetSystemSetting key) (λ w, settingValue key (db w)).

(** Modelled from the spec: [s.setSystemSetting(tx, key, value)], which is
    not in data_migrations.go; it writes in the transaction. *)
Definition setSystemSetting (key value : string) : M unit :=
  exec (OpSetSystemSetting key value) (with_tx (sqlSetSystemSetting key value)).

(** [s.db.BeginTx], [tx.Rollback], [tx.Commit] of database/sql: the
    transaction works on a copy of the committed database, which a commit
    makes the committed one and a rollback discards. *)
Definition BeginTx : M unit := exec OpBeginTx begin_tx.
Definition Rollback : M unit := exec OpRollback rollback_tx.

(** Modelled from the spec, for a commit that returns an error: the spec's
    CommitError leaves the "store-side state ambiguous", so the committed
    database is then the working copy or the database as it was, as the
    environment decides. *)
Definition Commit : M unit := λ w,
  match fault E (clock w) with
  | Some e =>
      (Err e, commit_unknown (commitLands E (clock w)) (tick w), [EvOp OpCommit (Some e)])
  | None => (Ok tt, commit_tx (tick w), [EvOp OpCommit None])
  end.

(** Modelled from the spec: [s.getBlocksWithSameID(tx)], which is not in
    data_migrations.go; it returns [sqlBlocksWithSameID] of the
    transaction or an error. *)
Definition getBlocksWithSameID : M (list Block) :=
  query OpGetBlocksWithSameID (λ w, sqlBlocksWithSameID (tx w)).

(** Modelled from the spec: [s.replaceBlockID(tx, currentID, newID,
    workspaceID)], which is not in data_migrations.go; it runs
    [sqlReplaceBlockID] in the transaction or fails. *)
Definition replaceBlockID (currentID newID workspaceID : string) : M unit :=
  exec (OpReplaceBlockID currentID newID workspaceID)
       (with_tx (sqlReplaceBlockID currentID newID workspaceID)).

(** [if rollbackErr := tx.Rollback(); rollbackErr != nil { s.logger.Error(...) }] *)
Definition rollbackLogged (msg methodName : string) : Cleanup := λ w,
  match Rollback w with
  | (Err rollbackErr, w1, t1) =>
      (w1, t1 ++ [EvLog LError msg [FErr rollbackErr; FString "methodName" methodName]])
  | (Ok _, w1, t1) => (w1, t1)
  end.

(** Modelled from the spec: [s.CloseRows(rows)], which is not in
    data_migrations.go and which the spec does not describe.  Its call site
    is a deferred statement without a result, so a failure to close cannot
    be returned: the call and its outcome are recorded, and nothing of what
    [CloseRows] may write to the log. *)
Definition CloseRows : Cleanup := λ w,
  let '(_, w1, t1) := exec OpCloseRows id w in (w1, t1).

(** *** runUniqueIDsMigration *)

(** [blocksByID := map[string][]model.Block{}; for _, block := range blocks
    { blocksByID[block.ID] = append(blocksByID[block.ID], block) }] *)
Definition groupByID (blocks : list Block) : gmap string (list Block) :=
  foldl (λ (blocksByID : gmap string (list Block)) block,
           <[ID block := default [] (blocksByID !! ID block) ++ [block]]> blocksByID)
        ∅ blocks.

Definition runUniqueIDsMigration : M unit :=
  ensureMigrationsAppliedUpToVersion (uniqueIDsMigrationRequiredVersion E);;
  setting ← onErr (GetSystemSetting UniqueIDsMigrationKey) noCleanup
                  (ErrWrap "cannot get migration state");
  if (ParseBool setting).1 then mret tt else
  logDebug "Running Unique IDs migration";;
  BeginTx;;
  blocks ← onErr getBlocksWithSameID
             (λ _, rollbackLogged "unique IDs transaction rollback error" "getBlocksWithSameID")
             (ErrWrap "cannot get blocks with same ID");
  let blocksByID := groupByID blocks in
  forM_ (rangeMap blocksByID) (λ '(_, blocks),
    forM_ (imap pair blocks) (λ '(i, block),
      if decide (i = 0) then mret tt else
      newID ← NewID (BlockType2IDType E (BlockType block));
      onErr (replaceBlockID (ID block) newID (WorkspaceID block))
            (λ _, rollbackLogged "unique IDs transaction rollback error" "replaceBlockID")
            (ErrWrap ("cannot replace blockID " +:+ ID block))));;
  onErr (setSystemSetting UniqueIDsMigrationKey (FormatBool true))
        (λ _, rollbackLogged "unique IDs transaction rollback error" "setSystemSetting")
        (ErrWrap "cannot mark migration as completed");;
  onErr Commit noCleanup (ErrWrap "cannot commit unique IDs transaction");;
  logDebug "Unique IDs migration finished successfully";;
  mret tt.

(** *** runCategoryUuidIdMigration and its helpers *)

(** [rows.Next()] while a row is left: it returns false, leaving the
    error in [rows.Err], when the iteration meets an error. *)
Definition rowsNext : M bool := λ w,
  (Ok (if nextErr E (clock w) is None then true else false), w, []).

(** [for rows.Next() { var id string; err := rows.Scan(&id); if err != nil
    { ...; return nil, err }; categoryIDs = append(categoryIDs, id) };
    return categoryIDs, nil].  [rows.Next] returns false when the rows are
    exhausted and also when the iteration meets an error; the source never
    consults [rows.Err], so the loop then ends as if the rows were
    exhausted, with the identifiers read so far.  (An iteration error after
    the last row changes nothing the source could see.) *)
Fixpoint scanRows (table : Table) (categoryIDs rows : list string) : M (list string) :=
  match rows with
  | [] => mret categoryIDs
  | id_ :: rows' =>
      more ← rowsNext;
      if more : bool then
        onErr (exec (OpScan table) id)
              (λ err, logError "getIDs scan row error"
                        [FString "table" (tableName table); FErr err])
              id;;
        scanRows table (categoryIDs ++ [id_]) rows'
      else mret categoryIDs
  end.

(** The query, then the loop over the rows under the deferred
    [CloseRows]. *)
Definition getIDs (table : Table) : M (list string) :=
  rows ← onErr (query (OpSelectIDs table) (λ w, selectIDs table (tx w)))
               (λ err, logError "getIDs error" [FString "table" (tableName table); FErr err])
               id;
  defer CloseRows (scanRows table [] rows).

Definition updateCategoryID (oldID newID : string) : M unit :=
  onErr (exec (OpUpdateCategoriesID newID oldID) (with_tx (sqlUpdateCategoriesID newID oldID)))
        (λ err, logError "updateCategoryID update category error" [FErr err]) id;;
  onErr (exec OpRowsClose id)
        (λ err, logError "updateCategoryID error closing rows after updating categories table IDs"
                  [FErr err]) id;;
  onErr (exec (OpUpdateCategoryBlocksCategoryID newID oldID)
              (with_tx (sqlUpdateCategoryBlocksCategoryID newID oldID)))
        (λ err, logError "updateCategoryID update category boards error" [FErr err]) id;;
  onErr (exec OpRowsClose id)
        (λ err, logError
                  "updateCategoryID error closing rows after updating category boards table IDs"
                  [FErr err]) id;;
  mret tt.

(** [categoryIDs := map[string]string{}; for _, oldId := range ids
    { newID := utils.NewID(utils.IDTypeNone); categoryIDs[oldId] = newID }] *)
Definition newIDsFor (ids : list string) : M (gmap string string) :=
  foldM (λ (categoryIDs : gmap string string) oldId,
           newID ← NewID IDTypeNone;
           mret (<[oldId := newID]> categoryIDs))
        ∅ ids.

Definition updateCategoryIDs : M unit :=
  oldCategoryIDs ← getIDs tbl_categories;
  categoryIDs ← newIDsFor oldCategoryIDs;
  forM_ (rangeMap categoryIDs) (λ '(oldID, newID), updateCategoryID oldID newID);;
  mret tt.

Definition updateCategoryBlocksID (oldID newID : string) : M unit :=
  onErr (exec (OpUpdateCategoryBlocksID newID oldID)
              (with_tx (sqlUpdateCategoryBlocksID newID oldID)))
        (λ err, logError "updateCategoryBlocksID update category error" [FErr err]) id;;
  mret tt.

Definition updateCategoryBlocksIDs : M unit :=
  oldCategoryIDs ← getIDs tbl_category_blocks;
  categoryIDs ← newIDsFor oldCategoryIDs;
  forM_ (rangeMap categoryIDs) (λ '(oldID, newID), updateCategoryBlocksID oldID newID);;
  mret tt.

Definition runCategoryUuidIdMigration : M unit :=
  ensureMigrationsAppliedUpToVersion categoriesUUIDIDMigrationRequiredVersion;;
  setting ← onErr (GetSystemSetting CategoryUUIDIDMigrationKey) noCleanup
                  (ErrWrap "cannot get migration state");
  if (ParseBool setting).1 then mret tt else
  logDebug "Running category UUID ID migration";;
  BeginTx;;
  updateCategoryIDs;;
  updateCategoryBlocksIDs;;
  onErr (setSystemSetting CategoryUUIDIDMigrationKey (FormatBool true))
        (λ _, rollbackLogged "category IDs transaction rollback error" "setSystemSetting")
        (ErrWrap "cannot mark migration as completed");;
  onErr Commit noCleanup (ErrWrap "cannot commit category IDs transaction");;
  logDebug "category IDs migration finished successfully";;
  mret tt.

End Migrations.

(** * Part II: the vocabulary of the statements *)

(** ** The two migrations side by side *)

Inductive Migration := UniqueIDs | CategoryUuidId.

Definition runMigration (E : Env) (mig : Migration) : M unit :=
  match mig with
  | UniqueIDs => runUniqueIDsMigration E
  | CategoryUuidId => runCategoryUuidIdMigration E
  end.

Definition migrationKey (mig : Migration) : string :=
  match mig with
  | UniqueIDs => UniqueIDsMigrationKey
  | CategoryUuidId => CategoryUUIDIDMigrationKey
  end.

Definition requiredVersion (E : Env) (mig : Migration) : nat :=
  match mig with
  | UniqueIDs => uniqueIDsMigrationRequiredVersion E
  | CategoryUuidId => categoriesUUIDIDMigrationRequiredVersion
  end.

Definition startMessage (mig : Migration) : string :=
  match mig with
  | UniqueIDs => "Running Unique IDs migration"
  | CategoryUuidId => "Running category UUID ID migration"
  end.

(** The completion flag of a migration, as the run reads it. *)
Definition hasAlreadyRun (mig : Migration) (d : DB) : bool :=
  (ParseBool (settingValue (migrationKey mig) d)).1.

(** The two calls every run starts with, both successful. *)
Definition gateAndFlagRead (E : Env) (mig : Migration) : list Event :=
  [EvOp (OpEnsureMigrations (requiredVersion E mig)) None;
   EvOp (OpGetSystemSetting (migrationKey mig)) None].

(** ** Preconditions on the generator and the environment *)

(** From its [c]-th call on, the generator never returns the same value
    twice ... *)
Definition gen_distinct (E : Env) (c : nat) : Prop :=
  ∀ i j t t', c ≤ i → c ≤ j → utils_NewID E i t = utils_NewID E j t' → i = j.

(** ... and never returns one of the identifiers [ids]. *)
Definition gen_avoids (E : Env) (c : nat) (ids : list string) : Prop :=
  ∀ i t, c ≤ i → utils_NewID E i t ∉ ids.

(** The environment visits every key of a map once. *)
Definition rangeOrder_perm (E : Env) : Prop := ∀ l, rangeOrder E l ≡ₚ l.

(** The rows sharing the identifier [X], in listing order. *)
Definition rowsWithID (X : string) (tbl : list Block) : list Block :=
  filter (λ b, ID b = X) tbl.

(** Renaming by a map: an identifier without an entry stays. *)
Definition renameBy (m : gmap string string) (x : string) : string :=
  default x (m !! x).

(** ** The loops of the unique-IDs migration, on the tables *)

Section UniqueIDsEffect.
Variable E : Env.

(** The body of the inner loop of [runUniqueIDsMigration] on the working
    copy and the identifier counter. *)
Definition replaceStep (s : DB * nat) (ib : nat * Block) : DB * nat :=
  if decide (ib.1 = 0) then s
  else (sqlReplaceBlockID (ID ib.2)
          (utils_NewID E s.2 (BlockType2IDType E (BlockType ib.2)))
          (WorkspaceID ib.2) s.1,
        S s.2).

Definition replaceGroup (s : DB * nat) (g : string * list Block) : DB * nat :=
  foldl replaceStep s (imap pair g.2).

Definition uniqueIDsEffect (d : DB) (c : nat) : DB * nat :=
  foldl replaceGroup (d, c) (rangeMap E (groupByID (sqlBlocksWithSameID d))).

(** The rows the loops rename, in the order they are reached, each with
    the identifier generated for it. *)
Fixpoint plan (c : nat) (todo : list Block) : list (Block * string) :=
  match todo with
  | [] => []
  | b :: t => (b, utils_NewID E c (BlockType2IDType E (BlockType b))) :: plan (S c) t
  end.

Definition applyRename (d : DB) (bn : Block * string) : DB :=
  sqlReplaceBlockID (ID bn.1) bn.2 (WorkspaceID bn.1) d.

Definition todoOf (groups : list (string * list Block)) : list Block :=
  groups ≫= (λ g, tail g.2).

Definition uniqueIDsTodo (d : DB) : list Block :=
  todoOf (rangeMap E (groupByID (sqlBlocksWithSameID d))).

End UniqueIDsEffect.

(** ** The loops of the category migration, on the tables *)

Section CategoryEffect.
Variable E : Env.

(** One pass of the loop that fills [categoryIDs]. *)
Definition newIDsStep (s : gmap string string * nat) (oldId : string)
    : gmap string string * nat :=
  (<[oldId := utils_NewID E s.2 IDTypeNone]> s.1, S s.2).

(** The map [categoryIDs] built from the listed identifiers when [c]
    identifiers have been generated before. *)
Definition newIDsMap (c : nat) (ids : list string) : gmap string string :=
  (foldl newIDsStep (∅, c) ids).1.

(** The two statements of [updateCategoryID]. *)
Definition categoryStep (d : DB) (on : string * string) : DB :=
  sqlUpdateCategoryBlocksCategoryID on.2 on.1 (sqlUpdateCategoriesID on.2 on.1 d).

(** The statement of [updateCategoryBlocksID]. *)
Definition categoryBlocksStep (d : DB) (on : string * string) : DB :=
  sqlUpdateCategoryBlocksID on.2 on.1 d.

(** What a sequence of [SET col = new WHERE col = old] statements does to
    one value of the column. *)
Definition renameIn (ps : list (string * string)) (x : string) : string :=
  foldl (λ x on, if decide (x = on.1) then on.2 else x) x ps.

(** The identifiers a listing reads when its first [rows.Next] is called
    with [c] calls issued and no scan fails: those before the first
    iteration error. *)
Fixpoint delivered (c : nat) (rows : list string) : list string :=
  match rows with
  | [] => []
  | id_ :: rows' =>
      match nextErr E c with
      | Some _ => []
      | None => id_ :: delivered (S c) rows'
      end
  end.

(** In a run of the category migration that starts in [w] and reaches its
    listings: the identifiers the listing of [categories] reads (the gate,
    the flag read, [BeginTx] and the query come before its first
    [rows.Next]) and the map of [updateCategoryIDs]; the identifiers the
    listing of [category_blocks] reads (the scans, the closing of the rows,
    four calls for each entry of the first map and the second query come
    before) and the map of [updateCategoryBlocksIDs]. *)
Definition listedCategories (w : World) : list string :=
  delivered (clock w + 4) (selectIDs tbl_categories (db w)).

Definition categoryIDsMap (w : World) : gmap string string :=
  newIDsMap (idc w) (listedCategories w).

Definition listedCategoryBlocks (w : World) : list string :=
  delivered (clock w + 4 + length (listedCategories w) + 1
             + 4 * length (rangeMap E (categoryIDsMap w)) + 1)
            (selectIDs tbl_category_blocks (db w)).

Definition categoryBlocksIDsMap (w : World) : gmap string string :=
  newIDsMap (idc w + length (listedCategories w)) (listedCategoryBlocks w).

End CategoryEffect.

(** ** Failing runs *)

(** The calls made only to clean up: their failure is logged, never
    returned. *)
Definition isCleanup (o : Op) : bool :=
  match o with
  | OpRollback | OpCloseRows => true
  | _ => false
  end.

(** An event of a part of a run in which no step has failed and nothing was
    rolled back. *)
Definition okEvent (ev : Event) : bool :=
  match ev with
  | EvOp OpRollback _ => false
  | EvOp o (Some _) => isCleanup o
  | _ => true
  end.

(** An event of the cleanup after a failure: a log entry or a cleanup call. *)
Definition cleanupEvent (ev : Event) : bool :=
  match ev with
  | EvOp o _ => isCleanup o
  | EvLog _ _ _ => true
  end.

Definition isRollback (ev : Event) : bool :=
  match ev with
  | EvOp OpRollback _ => true
  | _ => false
  end.

Definition quiet (l : list Event) : Prop := forallb okEvent l = true.
Definition cleanupOnly (l : list Event) : Prop := forallb cleanupEvent l = true.
Definition callsRollback (l : list Event) : bool := existsb isRollback l.

(** The error a failing run of the unique-IDs migration returns, from the
    call [o] that failed with [e0]. *)
Definition uniqueIDsError (o : Op) (e0 : error) : error :=
  match o with
  | OpGetSystemSetting _ => ErrWrap "cannot get migration state" e0
  | OpGetBlocksWithSameID => ErrWrap "cannot get blocks with same ID" e0
  | OpReplaceBlockID cur _ _ => ErrWrap ("cannot replace blockID " +:+ cur) e0
  | OpSetSystemSetting _ _ => ErrWrap "cannot mark migration as completed" e0
  | OpCommit => ErrWrap "cannot commit unique IDs transaction" e0
  | _ => e0
  end.

(** The calls of the unique-IDs migration whose failure is followed by a
    rollback. *)
Definition uniqueIDsRollsBack (o : Op) : bool :=
  match o with
  | OpGetBlocksWithSameID | OpReplaceBlockID _ _ _ | OpSetSystemSetting _ _ => true
  | _ => false
  end.

(** The same for the category migration. *)
Definition categoryError (o : Op) (e0 : error) : error :=
  match o with
  | OpGetSystemSetting _ => ErrWrap "cannot get migration state" e0
  | OpSetSystemSetting _ _ => ErrWrap "cannot mark migration as completed" e0
  | OpCommit => ErrWrap "cannot commit category IDs transaction" e0
  | _ => e0
  end.

Definition categoryRollsBack (o : Op) : bool :=
  match o with
  | OpSetSystemSetting _ _ => true
  | _ => false
  end.

(** The message a failing step is wrapped with, for the steps that are
    wrapped. *)
Definition stepMessage (mig : Migration) (o : Op) : option string :=
  match mig, o with
  | _, OpGetSystemSetting _ => Some "cannot get migration state"
  | _, OpSetSystemSetting _ _ => Some "cannot mark migration as completed"
  | UniqueIDs, OpCommit => Some "cannot commit unique IDs transaction"
  | CategoryUuidId, OpCommit => Some "cannot commit category IDs transaction"
  | UniqueIDs, OpGetBlocksWithSameID => Some "cannot get blocks with same ID"
  | UniqueIDs, OpReplaceBlockID cur _ _ => Some ("cannot replace blockID " +:+ cur)
  | _, _ => None
  end.

Definition returnedError (mig : Migration) : Op → error → error :=
  match mig with
  | UniqueIDs => uniqueIDsError
  | CategoryUuidId => categoryError
  end.

Definition rollsBack (mig : Migration) : Op → bool :=
  match mig with
  | UniqueIDs => uniqueIDsRollsBack
  | CategoryUuidId => categoryRollsBack
  end.

(** [failure F B r evs]: the events [evs] of a run that returned [r] show no
    failed step and no rollback if [r] is [Ok]; if [r] is [Err e], exactly
    one step [o] failed, with [e0], nothing but cleanup followed, [e] is
    [F o e0], and a rollback was called if and only if [B o]. *)
Definition failure {A} (F : Op → error → error) (B : Op → bool)
    (r : result A) (evs : list Event) : Prop :=
  match r with
  | Ok _ => quiet evs
  | Err e =>
      ∃ pre o e0 post,
        evs = pre ++ EvOp o (Some e0) :: post ∧ quiet pre ∧ isCleanup o = false ∧
        e = F o e0 ∧ cleanupOnly post ∧ callsRollback post = B o
  end.

Definition traced {A} (F : Op → error → error) (B : Op → bool) (m : M A) : Prop :=
  ∀ w, failure F B (resultOf (m w)) (eventsOf (m w)).

(** A cleanup handler only produces cleanup events, with a rollback or not. *)
Definition cleanup_spec (b : bool) (c : Cleanup) : Prop :=
  ∀ w, cleanupOnly (c w).2 ∧ callsRollback (c w).2 = b.

(** A program that leaves the committed database alone ... *)
Definition keeps_db {A} (m : M A) : Prop := ∀ w, db (worldOf (m w)) = db w.

(** ... or does so at least unless it returns [Ok] or has called a
    [Commit] that returned an error. *)
Definition db_safe {A} (m : M A) : Prop :=
  ∀ w, db (worldOf (m w)) = db w ∨ (∃ a, resultOf (m w) = Ok a) ∨
       (∃ e, EvOp OpCommit (Some e) ∈ eventsOf (m w)).

(** In a list of events, every [Rollback] that failed is followed by the
    log entry of its error. *)
Definition rollbackFailuresLogged (evs : list Event) : Prop :=
  ∀ i e, evs !! i = Some (EvOp OpRollback (Some e)) →
         ∃ msg methodName,
           evs !! S i = Some (EvLog LError msg [FErr e; FString "methodName" methodName]).

(** A list of events without a failed [Rollback]. *)
Definition noFailedRollback (l : list Event) : Prop :=
  ∀ i e, l !! i ≠ Some (EvOp OpRollback (Some e)).

Definition logged {A} (m : M A) : Prop := ∀ w, rollbackFailuresLogged (eventsOf (m w)).

(** [hoare P m Q QE]: from a world in [P], [m] ends in a world in [Q] when
    it returns [Ok] and in a world in [QE] when it returns an error. *)
Definition hoare {A} (P : World → Prop) (m : M A) (Q QE : World → Prop) : Prop :=
  ∀ w, P w → match resultOf (m w) with
             | Ok _ => Q (worldOf (m w))
             | Err _ => QE (worldOf (m w))
             end.

(** A program that returns [Ok]. *)
Definition succeeds {A} (m : M A) : Prop := ∀ w, ∃ a, resultOf (m w) = Ok a.

(** ** Concrete environments and tables *)

Module Examples.

Definition noFault : nat → option error := λ _, None.
Definition failAt (n : nat) (e : error) : nat → option error :=
  λ k, if decide (k = n) then Some e else None.

Definition tagOf (t : IDType) : Ascii.ascii :=
  match t with
  | IDTypeNone => "7"%char
  | IDTypeTag (String c _) => c
  | IDTypeTag EmptyString => "a"%char
  end.

(** A generator: the tag of the kind, a dash, the number of the call. *)
Definition genID (n : nat) (t : IDType) : string :=
  String (tagOf t) ("-" +:+ pretty n).

Definition blockType2IDType (t : string) : IDType :=
  if decide (t = "board") then IDTypeTag "b"
  else if decide (t = "card") then IDTypeTag "c"
  else IDTypeTag "a".

(** An environment in which no iteration of a row set ends on an error and
    a commit that returns an error has not been applied ... *)
Definition env (f : nat → option error) (order : list string → list string) : Env :=
  mkEnv f genID blockType2IDType order 14 (λ _, None) (λ _, false).

(** ... and one with iteration errors [nx] and commits that are applied
    although they return an error where [lands] says so. *)
Definition envWith (f nx : nat → option error) (lands : nat → bool)
    (order : list string → list string) : Env :=
  mkEnv f genID blockType2IDType order 14 nx lands.

Definition start (d : DB) : World := mkWorld d d TxNone 0 0.

(** Scenario A of the specification (the workspaces are not part of the
    scenario). *)
Definition dbA : DB :=
  mkDB [mkBlock "a" "w1" "card" "first"; mkBlock "a" "w2" "card" "second";
        mkBlock "b" "w1" "card" "third"] [] [] ∅.

(** Scenario B of the specification. *)
Definition dbB : DB :=
  mkDB [] [mkCategory "c1" "inbox"] [mkCategoryBlock "d1" "c1" "blk"] ∅.

(** Two categories sharing an identifier, and their members. *)
Definition dbC : DB :=
  mkDB [] [mkCategory "c1" "inbox"; mkCategory "c2" "later"; mkCategory "c1" "copy"]
       [mkCategoryBlock "d1" "c1" "blk1"; mkCategoryBlock "d2" "c2" "blk2"] ∅.

(** Two categories, each with a member. *)
Definition dbD : DB :=
  mkDB [] [mkCategory "c1" "inbox"; mkCategory "c2" "later"]
       [mkCategoryBlock "d1" "c1" "blk1"; mkCategoryBlock "d2" "c2" "blk2"] ∅.

End Examples.

(** ** The calls of a listing and of the update statements *)

(** The world [n] calls later, when the calls leave the store alone. *)
Definition later (n : nat) (w : World) : World :=
  mkWorld (db w) (tx w) (txState w) (n + clock w) (idc w).

(** What a run can observe of the store: the committed database, the
    working copy, the state of the transaction and the number of
    identifiers generated. *)
Definition storeOf (w : World) : DB * DB * TxState * nat :=
  (db w, tx w, txState w, idc w).

(** The event of the deferred [CloseRows] whose call has outcome [r]. *)
Definition closeRowsEvents (r : option error) : list Event := [EvOp OpCloseRows r].

(** The events of a listing that reads [n] rows: the query, one scan for
    each row read, and the closing of the row set with outcome [r]. *)
Definition listingEvents (t : Table) (n : nat) (r : option error) : list Event :=
  EvOp (OpSelectIDs t) None :: replicate n (EvOp (OpScan t) None) ++ closeRowsEvents r.

(** The four calls of a successful [updateCategoryID]. *)
Definition updateCategoryIDEvents (on : string * string) : list Event :=
  [EvOp (OpUpdateCategoriesID on.2 on.1) None; EvOp OpRowsClose None;
   EvOp (OpUpdateCategoryBlocksCategoryID on.2 on.1) None; EvOp OpRowsClose None].

(** The call of a successful [updateCategoryBlocksID]. *)
Definition updateCategoryBlocksIDEvents (on : string * string) : list Event :=
  [EvOp (OpUpdateCategoryBlocksID on.2 on.1) None].

(** ** The discipline of the transaction *)

(** Where a run is with respect to its transaction: before [BeginTx];
    inside the open transaction; after a [Commit] that succeeded; after a
    [Commit] that returned an error; after [Rollback] has been called;
    after a [BeginTx] that failed. *)
Inductive Phase := PIdle | POpen | PCommitted | PCommitFailed | PRolledBack | PNoTx.

Global Instance Phase_eq_dec : EqDecision Phase.
Proof. solve_decision. Defined.

(** The calls that take the transaction as their runner. *)
Definition onTransaction (o : Op) : bool :=
  match o with
  | OpGetBlocksWithSameID | OpReplaceBlockID _ _ _ | OpSetSystemSetting _ _
  | OpSelectIDs _ | OpScan _ | OpCloseRows
  | OpUpdateCategoriesID _ _ | OpUpdateCategoryBlocksCategoryID _ _
  | OpUpdateCategoryBlocksID _ _ | OpRowsClose => true
  | _ => false
  end.

(** The phase an event leads to, if the event is allowed in the phase: the
    schema gate and the flag read before the transaction only; [BeginTx]
    once; the calls on the transaction while it is open only; [Commit] and
    [Rollback] once, in the open transaction; log entries anywhere. *)
Definition phaseStep (p : Phase) (ev : Event) : option Phase :=
  match ev with
  | EvLog _ _ _ => Some p
  | EvOp o r =>
      match p, o with
      | PIdle, (OpEnsureMigrations _ | OpGetSystemSetting _) => Some PIdle
      | PIdle, OpBeginTx => Some (if r is None then POpen else PNoTx)
      | POpen, OpCommit => Some (if r is None then PCommitted else PCommitFailed)
      | POpen, OpRollback => Some PRolledBack
      | POpen, _ => if onTransaction o then Some POpen else None
      | _, _ => None
      end
  end.

Global Arguments phaseStep : simpl never.

Fixpoint phaseAfter (p : Phase) (evs : list Event) : option Phase :=
  match evs with
  | [] => Some p
  | ev :: evs' =>
      match phaseStep p ev with
      | Some q => phaseAfter q evs'
      | None => None
      end
  end.

(** [phased p m Q QE]: started in phase [p], the events of [m] are allowed
    one after the other, and lead to a phase in [Q] when [m] returns [Ok]
    and to a phase in [QE] when it returns an error. *)
Definition phased {A} (p : Phase) (m : M A) (Q QE : Phase → Prop) : Prop :=
  ∀ w, ∃ q, phaseAfter p (eventsOf (m w)) = Some q ∧
            match resultOf (m w) with
            | Ok _ => Q q
            | Err _ => QE q
            end.

(** [keeps π m]: [m] leaves the view [π] of the world as it is. *)
Definition keeps {A T} (π : World → T) (m : M A) : Prop :=
  ∀ w, π (worldOf (m w)) = π w.

(** The call of a successful [replaceBlockID] for a row and its new
    identifier. *)
Definition replaceBlockIDEvents (bn : Block * string) : list Event :=
  [EvOp (OpReplaceBlockID (ID bn.1) bn.2 (WorkspaceID bn.1)) None].

(** * Part III: lemmas *)

Ltac unmonad := unfold mbind, M_bind, mret, M_ret in *.

(** ** Successful runs: what a program that returns [Ok] has done *)

Section Inversion.
Variable E : Env.

Lemma bind_Ok {A B} (m : M A) (k : A → M B) w b w' t :
  bind m k w = (Ok b, w', t) →
  ∃ a w1 t1 t2, m w = (Ok a, w1, t1) ∧ k a w1 = (Ok b, w', t2) ∧ t = t1 ++ t2.
Proof.
  unfold bind. destruct (m w) as [[[a|e] w1] t1]; [|discriminate].
  destruct (k a w1) as [[r w2] t2] eqn:Hk. intros [= -> -> <-].
  by exists a, w1, t1, t2.
Qed.

Lemma onErr_Ok {A} (m : M A) c wr w a w' t :
  onErr m c wr w = (Ok a, w', t) → m w = (Ok a, w', t).
Proof.
  unfold onErr. destruct (m w) as [[[a0|e] w1] t1]; [done|].
  destruct (c e w1). discriminate.
Qed.

Lemma defer_Ok {A} c (m : M A) w a w' t :
  defer c m w = (Ok a, w', t) →
  ∃ w1 t1, m w = (Ok a, w1, t1) ∧ w' = (c w1).1 ∧ t = t1 ++ (c w1).2.
Proof.
  unfold defer. destruct (m w) as [[r w1] t1]. destruct (c w1) as [w2 t2] eqn:Hc.
  intros [= -> <- <-]. exists w1, t1. by rewrite Hc.
Qed.

Lemma exec_Ok o eff w u w' t :
  exec E o eff w = (Ok u, w', t) →
  fault E (clock w) = None ∧ w' = eff (tick w) ∧ t = [EvOp o None].
Proof.
  unfold exec. destruct (fault E (clock w)); [discriminate|]. by intros [= _ <- <-].
Qed.

Lemma query_Ok {A} o (f : World → A) w a w' t :
  query E o f w = (Ok a, w', t) →
  fault E (clock w) = None ∧ a = f w ∧ w' = tick w ∧ t = [EvOp o None].
Proof.
  unfold query. destruct (fault E (clock w)); [discriminate|]. by intros [= <- <- <-].
Qed.

Lemma Commit_Ok w u w' t :
  Commit E w = (Ok u, w', t) →
  fault E (clock w) = None ∧ w' = commit_tx (tick w) ∧ t = [EvOp OpCommit None].
Proof.
  unfold Commit. destruct (fault E (clock w)); [discriminate|]. by intros [= _ <- <-].
Qed.

Lemma rowsNext_Ok w b w' t :
  rowsNext E w = (Ok b, w', t) →
  b = (if nextErr E (clock w) is None then true else false) ∧ w' = w ∧ t = [].
Proof. unfold rowsNext. by intros [= <- <- <-]. Qed.

(** A loop that returns [Ok] has folded the effect of its body over the
    list, in any view [π] of the world on which the body acts as [step]. *)
Lemma foldM_Ok_fold {X S T} (π : World → T) (step : T → X → T)
    (f : S → X → M S) l s w s' w' t :
  (∀ s0 x w1 s2 w2 t2, f s0 x w1 = (Ok s2, w2, t2) → π w2 = step (π w1) x) →
  foldM f s l w = (Ok s', w', t) → π w' = foldl step (π w) l.
Proof.
  intros Hstep. revert s w t. induction l as [|x l IH]; intros s w t; simpl.
  - by intros [= _ <- _].
  - intros (s1 & w1 & t1 & t2 & H1 & H2 & _)%bind_Ok.
    rewrite (IH _ _ _ H2). by rewrite (Hstep _ _ _ _ _ _ H1).
Qed.

Lemma forM_Ok_fold {X T} (π : World → T) (step : T → X → T) l body w u w' t :
  (∀ x w1 u2 w2 t2, body x w1 = (Ok u2, w2, t2) → π w2 = step (π w1) x) →
  forM_ l body w = (Ok u, w', t) → π w' = foldl step (π w) l.
Proof.
  intros Hstep. unfold forM_. apply foldM_Ok_fold. intros _ x w1 u2 w2 t2. apply Hstep.
Qed.

End Inversion.

Ltac inv_ok :=
  repeat match goal with
  | H : bind _ _ _ = (Ok _, _, _) |- _ =>
      let a := fresh "a" in let w := fresh "w" in
      let t1 := fresh "t" in let t2 := fresh "t" in
      let H1 := fresh "H" in let Ht := fresh "Hev" in
      apply bind_Ok in H as (a & w & t1 & t2 & H1 & H & Ht)
  | H : onErr _ _ _ _ = (Ok _, _, _) |- _ => apply onErr_Ok in H
  | H : exec _ _ _ _ = (Ok _, _, _) |- _ =>
      let F := fresh "Hnofault" in let Ht := fresh "Hev" in
      apply exec_Ok in H as (F & -> & Ht)
  | H : query _ _ _ _ = (Ok _, _, _) |- _ =>
      let F := fresh "Hnofault" in let Ht := fresh "Hev" in
      apply query_Ok in H as (F & -> & -> & Ht)
  | H : rowsNext _ _ = (Ok _, _, _) |- _ => apply rowsNext_Ok in H as (-> & -> & ->)
  | H : Commit _ _ = (Ok _, _, _) |- _ =>
      let F := fresh "Hnofault" in let Ht := fresh "Hev" in
      apply Commit_Ok in H as (F & -> & Ht)
  | H : ret _ _ = (Ok _, _, _) |- _ => unfold ret in H; simplify_eq H; clear H; intros
  | H : logDebug _ _ = (Ok _, _, _) |- _ =>
      unfold logDebug in H; simplify_eq H; clear H; intros
  | H : NewID _ _ _ = (Ok _, _, _) |- _ => unfold NewID in H; simplify_eq H; clear H; intros
  end; subst.

Section UniqueIDsOk.
Variable E : Env.

Lemma runUniqueIDsMigration_Ok w w' t :
  hasAlreadyRun UniqueIDs (db w) = false →
  runUniqueIDsMigration E w = (Ok tt, w', t) →
  db w' = sqlSetSystemSetting UniqueIDsMigrationKey "true"
            (uniqueIDsEffect E (db w) (idc w)).1 ∧
  idc w' = (uniqueIDsEffect E (db w) (idc w)).2 ∧
  txState w' = TxCommitted.
Proof.
  unfold hasAlreadyRun. simpl.
  intros Hflag H. unfold runUniqueIDsMigration in H. unmonad.
  unfold ensureMigrationsAppliedUpToVersion, GetSystemSetting, BeginTx,
    getBlocksWithSameID, setSystemSetting in H.
  inv_ok. simpl in H. rewrite Hflag in H. inv_ok.
  match goal with
  | H : forM_ _ _ ?w0 = (Ok _, ?w1, _) |- _ =>
      assert ((tx w1, idc w1) = foldl (replaceGroup E) (tx w0, idc w0)
                (rangeMap E (groupByID (sqlBlocksWithSameID (tx w0))))) as Hv;
      [ revert H; apply (forM_Ok_fold (λ w, (tx w, idc w)))
      | assert (db w1 = db w0) as Hdb ]
  end.
  - intros [k g] w1 u2 w2 t2. apply (forM_Ok_fold (λ w, (tx w, idc w))). clear.
    intros [i b] w1 u2 w2 t2 Hb. unfold replaceStep. simpl.
    destruct (decide (i = 0)); [by inv_ok|].
    unfold replaceBlockID in Hb. inv_ok. done.
  - match goal with
    | H : forM_ _ _ ?w0 = (Ok _, ?w1, _) |- _ =>
        apply (forM_Ok_fold db (λ d _, d)) in H;
          [ rewrite H; clear; induction (rangeMap _ _); simpl; auto | ]
    end.
    intros [k g] w1 u2 w2 t2 Hg.
    apply (forM_Ok_fold db (λ d _, d)) in Hg;
      [ rewrite Hg; clear; induction (imap _ _); simpl; auto | ].
    clear. intros [i b] w1 u2 w2 t2 Hb.
    destruct (decide (i = 0)); [by inv_ok|].
    unfold replaceBlockID in Hb. inv_ok. done.
  - simpl in *. inv_ok. unfold uniqueIDsEffect. rewrite <- Hv. simpl. done.
Qed.

End UniqueIDsOk.

(** ** The statements of the unique-IDs migration *)

Section UniqueIDsPlan.
Variable E : Env.

Lemma plan_app c l1 l2 :
  plan E c (l1 ++ l2) = plan E c l1 ++ plan E (c + length l1) l2.
Proof.
  revert c. induction l1 as [|b l1 IH]; intros c; simpl.
  - by rewrite Nat.add_0_r.
  - rewrite IH. do 3 f_equal. lia.
Qed.

Lemma foldl_replaceStep d c (l : list (nat * Block)) :
  Forall (λ ib, ib.1 ≠ 0) l →
  foldl (replaceStep E) (d, c) l = (foldl applyRename d (plan E c l.*2), c + length l).
Proof.
  intros Hl. revert d c. induction Hl as [|[i b] l Hi _ IH]; intros d c; simpl.
  - by rewrite Nat.add_0_r.
  - unfold replaceStep at 2. simpl in *. destruct (decide (i = 0)); [done|].
    rewrite IH. f_equal. lia.
Qed.

Lemma imap_shifted (f : nat → Block → nat * Block) (t : list Block) :
  (∀ i b, (f i b).1 ≠ 0 ∧ (f i b).2 = b) →
  Forall (λ ib : nat * Block, ib.1 ≠ 0) (imap f t) ∧ (imap f t).*2 = t.
Proof.
  revert f. induction t as [|b t IH]; intros f Hf; simpl; [done|].
  destruct (IH (f ∘ S)) as [IH1 IH2]; [intros i b'; apply Hf|].
  split; [constructor; [apply Hf | exact IH1] |].
  f_equal; [apply Hf | exact IH2].
Qed.

Lemma replaceGroup_plan d c g :
  replaceGroup E (d, c) g =
  (foldl applyRename d (plan E c (tail g.2)), c + length (tail g.2)).
Proof.
  unfold replaceGroup. destruct g as [k [|b0 t]]; simpl.
  - by rewrite Nat.add_0_r.
  - unfold replaceStep at 2. simpl.
    destruct (imap_shifted (pair ∘ S) t) as [H1 H2]; [done|].
    rewrite (foldl_replaceStep _ _ _ H1), H2.
    f_equal. by rewrite <- H2 at 2; rewrite length_fmap.
Qed.

Lemma foldl_replaceGroup d c gs :
  foldl (replaceGroup E) (d, c) gs =
  (foldl applyRename d (plan E c (todoOf gs)), c + length (todoOf gs)).
Proof.
  revert d c. induction gs as [|g gs IH]; intros d c; simpl.
  - by rewrite Nat.add_0_r.
  - rewrite replaceGroup_plan, IH. unfold todoOf. simpl.
    rewrite plan_app, foldl_app, length_app. f_equal. lia.
Qed.

Lemma set_ID_same b : set_ID (ID b) b = b.
Proof. by destruct b. Qed.

(** The replacements, as statements on the identifier column. *)
Lemma foldl_applyRename_blocks R d :
  blocks (foldl applyRename d R) =
  (λ b, set_ID (renameIn ((λ bn : Block * string, (ID bn.1, bn.2)) <$> R) (ID b)) b)
    <$> blocks d.
Proof.
  revert d. induction R as [|bn R IH]; intros d; simpl.
  - rewrite <- (list_fmap_id (blocks d)) at 1. apply list_fmap_ext. intros _ b _.
    by rewrite set_ID_same.
  - rewrite IH. unfold applyRename, sqlReplaceBlockID, with_blocks. simpl.
    rewrite <- list_fmap_compose. apply list_fmap_ext. intros _ b _. simpl.
    unfold renameIn. simpl. by destruct (decide (ID b = ID bn.1)), b.
Qed.

Lemma foldl_applyRename_other R d :
  categories (foldl applyRename d R) = categories d ∧
  category_blocks (foldl applyRename d R) = category_blocks d ∧
  system_settings (foldl applyRename d R) = system_settings d.
Proof.
  revert d. induction R as [|bn R IH]; intros d; simpl; [done|].
  destruct (IH (applyRename d bn)) as (-> & -> & ->). done.
Qed.

End UniqueIDsPlan.

(** ** Go maps: grouping and iteration order *)

Section GoMaps.
Variable E : Env.
Hypothesis Hperm : rangeOrder_perm E.

Lemma rangeMap_fst {V} (m : gmap string V) :
  (rangeMap E m).*1 = rangeOrder E (map_to_list m).*1.
Proof.
  unfold rangeMap.
  assert (∀ k, k ∈ rangeOrder E (map_to_list m).*1 → is_Some (m !! k)) as Hdom.
  { intros k Hk. rewrite (Hperm _) in Hk.
    apply list_elem_of_fmap in Hk as ([k' v] & -> & Hkv).
    apply elem_of_map_to_list in Hkv. eauto. }
  induction (rangeOrder E (map_to_list m).*1) as [|k ks IH]; simpl; [done|].
  destruct (Hdom k) as [v Hv]; [by left|]. rewrite Hv. simpl. f_equal.
  apply IH. intros k' Hk'. apply Hdom. by right.
Qed.

Lemma rangeMap_NoDup {V} (m : gmap string V) : NoDup (rangeMap E m).*1.
Proof. rewrite rangeMap_fst, (Hperm _). apply NoDup_fst_map_to_list. Qed.

Lemma elem_of_rangeMap {V} (m : gmap string V) k v :
  (k, v) ∈ rangeMap E m ↔ m !! k = Some v.
Proof.
  unfold rangeMap. rewrite list_elem_of_omap. split.
  - intros (k' & _ & Hk'). destruct (m !! k') as [v'|] eqn:Hl; simpl in Hk'; [|done].
    by injection Hk' as -> ->.
  - intros Hl. exists k. split.
    + rewrite (Hperm _). apply list_elem_of_fmap. exists (k, v). split; [done|].
      by apply elem_of_map_to_list.
    + by rewrite Hl.
Qed.

End GoMaps.

Lemma groupByID_lookup (l : list Block) (X : string) :
  groupByID l !! X =
  match filter (λ b, ID b = X) l with [] => None | g => Some g end.
Proof.
  unfold groupByID. induction l as [|b l IH] using rev_ind; simpl.
  - by rewrite lookup_empty.
  - rewrite foldl_app, filter_app. simpl. rewrite lookup_insert.
    destruct (decide (ID b = X)) as [Heq|Hne].
    + rewrite filter_cons_True by done. rewrite filter_nil, Heq, IH.
      destruct (filter _ l); simpl; done.
    + rewrite filter_cons_False by done. rewrite filter_nil, app_nil_r. apply IH.
Qed.


(** ** The category migration as a renaming of identifiers *)

Section CategoryOk.
Variable E : Env.

Lemma foldl_newIDsStep_snd m c ids :
  (foldl (newIDsStep E) (m, c) ids).2 = c + length ids.
Proof.
  revert m c. induction ids as [|x ids IH]; intros m c; simpl; [lia|].
  unfold newIDsStep at 2. simpl. rewrite IH. lia.
Qed.

Lemma newIDsMap_snoc c ids x :
  newIDsMap E c (ids ++ [x]) =
  <[x := utils_NewID E (c + length ids) IDTypeNone]> (newIDsMap E c ids).
Proof.
  unfold newIDsMap. rewrite foldl_app. simpl. unfold newIDsStep at 1. simpl.
  by rewrite foldl_newIDsStep_snd.
Qed.

Lemma later_0 w : later 0 w = w.
Proof. by destruct w. Qed.

Lemma later_tick n w : later n (tick w) = later (S n) w.
Proof. unfold later, tick. simpl. f_equal. lia. Qed.

Lemma CloseRows_eq w :
  CloseRows E w = (tick w, closeRowsEvents (fault E (clock w))).
Proof. unfold CloseRows, exec. by destruct (fault E (clock w)). Qed.

Lemma newIDsFor_Ok ids w m w' t :
  newIDsFor E ids w = (Ok m, w', t) →
  m = newIDsMap E (idc w) ids ∧ tx w' = tx w ∧ db w' = db w ∧
  idc w' = idc w + length ids.
Proof.
  unfold newIDsFor, newIDsMap. generalize (∅ : gmap string string).
  revert m w w' t. induction ids as [|x ids IH]; intros m w w' t m0 H; simpl in *.
  - inv_ok. split_and!; auto.
  - unmonad. inv_ok. apply IH in H as (-> & -> & -> & ->). simpl.
    split_and!; auto; lia.
Qed.

Lemma newIDsFor_Ok_clock ids w m w' t :
  newIDsFor E ids w = (Ok m, w', t) → clock w' = clock w ∧ t = [].
Proof.
  unfold newIDsFor. generalize (∅ : gmap string string).
  revert w t. induction ids as [|x ids IH]; intros w t m0 H; simpl in *.
  - by inv_ok.
  - unmonad. inv_ok. by apply IH in H as [-> ->].
Qed.

(** What a listing reads is a prefix of the rows, and all of them when the
    iteration meets no error. *)
Lemma delivered_take c rows :
  delivered E c rows = take (length (delivered E c rows)) rows.
Proof.
  revert c. induction rows as [|x rows IH]; intros c; simpl; [done|].
  destruct (nextErr E c); simpl; [done|]. f_equal. apply IH.
Qed.

Lemma delivered_subseteq c rows x : x ∈ delivered E c rows → x ∈ rows.
Proof.
  rewrite delivered_take. intros (i & Hi & _)%elem_of_take.
  by eapply list_elem_of_lookup_2.
Qed.

Lemma delivered_length c rows : length (delivered E c rows) ≤ length rows.
Proof.
  revert c. induction rows as [|x rows IH]; intros c; simpl; [done|].
  destruct (nextErr E c); simpl; [lia|]. specialize (IH (S c)). lia.
Qed.

Lemma delivered_all c rows :
  (∀ i, i < length rows → nextErr E (c + i) = None) → delivered E c rows = rows.
Proof.
  revert c. induction rows as [|x rows IH]; intros c H; simpl; [done|].
  rewrite <- (Nat.add_0_r c) at 1. rewrite (H 0) by (simpl; lia). f_equal.
  apply IH. intros i Hi. replace (S c + i) with (c + S i) by lia.
  apply H. simpl. lia.
Qed.

(** The loop over the rows, when it returns [Ok]: it has read the rows
    before the first iteration error, with one scan for each. *)
Lemma scanRows_Ok tb rows acc w ids w' t :
  scanRows E tb acc rows w = (Ok ids, w', t) →
  ids = acc ++ delivered E (clock w) rows ∧
  w' = later (length (delivered E (clock w) rows)) w ∧
  t = replicate (length (delivered E (clock w) rows)) (EvOp (OpScan tb) None).
Proof.
  revert acc w t. induction rows as [|x rows IH]; intros acc w t H; simpl in H; unmonad.
  - inv_ok. simpl. by rewrite app_nil_r, later_0.
  - inv_ok. simpl. destruct (nextErr E (clock w)) as [e|].
    + inv_ok. simpl. by rewrite app_nil_r, later_0.
    + inv_ok. apply IH in H as (-> & -> & ->). simpl.
      by rewrite <- app_assoc, later_tick.
Qed.

(** A listing that returns [Ok]. *)
Lemma getIDs_Ok_later tb w ids w' t :
  getIDs E tb w = (Ok ids, w', t) →
  ids = delivered E (S (clock w)) (selectIDs tb (tx w)) ∧
  w' = later (S (S (length ids))) w ∧
  t = listingEvents tb (length ids) (fault E (S (length ids) + clock w)).
Proof.
  unfold getIDs. unmonad. intros H. inv_ok.
  apply defer_Ok in H as (wq & tq & H & -> & ->).
  apply scanRows_Ok in H as (-> & -> & ->). simpl.
  rewrite later_tick, CloseRows_eq. simpl.
  split_and!; done.
Qed.

Lemma getIDs_Ok tb w ids w' t :
  getIDs E tb w = (Ok ids, w', t) →
  ids = delivered E (S (clock w)) (selectIDs tb (tx w)) ∧
  tx w' = tx w ∧ db w' = db w ∧ idc w' = idc w.
Proof. by intros (-> & -> & _)%getIDs_Ok_later. Qed.

Lemma updateCategoryID_Ok o n w u w' t :
  updateCategoryID E o n w = (Ok u, w', t) →
  tx w' = categoryStep (tx w) (o, n) ∧ db w' = db w ∧ idc w' = idc w.
Proof. unfold updateCategoryID. unmonad. intros H. inv_ok. done. Qed.

Lemma updateCategoryID_Ok_clock o n w u w' t :
  updateCategoryID E o n w = (Ok u, w', t) → clock w' = 4 + clock w.
Proof. unfold updateCategoryID. unmonad. intros H. inv_ok. done. Qed.

Lemma updateCategoryBlocksID_Ok o n w u w' t :
  updateCategoryBlocksID E o n w = (Ok u, w', t) →
  tx w' = categoryBlocksStep (tx w) (o, n) ∧ db w' = db w ∧ idc w' = idc w.
Proof. unfold updateCategoryBlocksID. unmonad. intros H. inv_ok. done. Qed.

Lemma updateCategoryBlocksID_Ok_clock o n w u w' t :
  updateCategoryBlocksID E o n w = (Ok u, w', t) → clock w' = 1 + clock w.
Proof. unfold updateCategoryBlocksID. unmonad. intros H. inv_ok. done. Qed.

Lemma foldl_step_clock {X} (f : DB → X → DB) (k : nat) ps d0 d1 c n :
  foldl (λ (s : DB * DB * nat * nat) (x : X), (f s.1.1.1 x, s.1.1.2, s.1.2, k + s.2))
        (d0, d1, c, n) ps
  = (foldl f d0 ps, d1, c, k * length ps + n).
Proof.
  revert d0 n. induction ps as [|p ps IH]; intros d0 n; simpl.
  - f_equal. lia.
  - rewrite IH. f_equal. lia.
Qed.

Lemma updateCategoryIDs_Ok w u w' t :
  updateCategoryIDs E w = (Ok u, w', t) →
  let ids := delivered E (S (clock w)) (selectIDs tbl_categories (tx w)) in
  let ps := rangeMap E (newIDsMap E (idc w) ids) in
  tx w' = foldl categoryStep (tx w) ps ∧
  db w' = db w ∧ idc w' = idc w + length ids ∧
  clock w' = clock w + 2 + length ids + 4 * length ps.
Proof.
  unfold updateCategoryIDs. unmonad. intros H. inv_ok.
  match goal with H : getIDs _ _ _ = _ |- _ => apply getIDs_Ok_later in H as (-> & -> & _) end.
  match goal with H : newIDsFor _ _ _ = _ |- _ =>
    pose proof (newIDsFor_Ok_clock _ _ _ _ _ H) as [Hclock _];
    apply newIDsFor_Ok in H as (-> & Htx' & Hdb' & Hidc') end.
  match goal with
  | H : forM_ _ _ _ = (Ok _, _, _) |- _ =>
      apply (forM_Ok_fold (λ w, (tx w, db w, idc w, clock w))
               (λ s on, (categoryStep s.1.1.1 on, s.1.1.2, s.1.2, 4 + s.2))) in H as Hf
  end.
  2:{ intros [o n] w2 u2 w3 t3 Hu.
      pose proof (updateCategoryID_Ok_clock _ _ _ _ _ _ Hu) as ->.
      apply updateCategoryID_Ok in Hu as (-> & -> & ->). done. }
  rewrite foldl_step_clock in Hf. injection Hf as -> -> -> ->.
  rewrite Htx', Hdb', Hidc', Hclock. simpl. split_and!; [done | done | done | lia].
Qed.

Lemma updateCategoryBlocksIDs_Ok w u w' t :
  updateCategoryBlocksIDs E w = (Ok u, w', t) →
  let ids := delivered E (S (clock w)) (selectIDs tbl_category_blocks (tx w)) in
  let ps := rangeMap E (newIDsMap E (idc w) ids) in
  tx w' = foldl categoryBlocksStep (tx w) ps ∧
  db w' = db w ∧ idc w' = idc w + length ids ∧
  clock w' = clock w + 2 + length ids + length ps.
Proof.
  unfold updateCategoryBlocksIDs. unmonad. intros H. inv_ok.
  match goal with H : getIDs _ _ _ = _ |- _ => apply getIDs_Ok_later in H as (-> & -> & _) end.
  match goal with H : newIDsFor _ _ _ = _ |- _ =>
    pose proof (newIDsFor_Ok_clock _ _ _ _ _ H) as [Hclock _];
    apply newIDsFor_Ok in H as (-> & Htx' & Hdb' & Hidc') end.
  match goal with
  | H : forM_ _ _ _ = (Ok _, _, _) |- _ =>
      apply (forM_Ok_fold (λ w, (tx w, db w, idc w, clock w))
               (λ s on, (categoryBlocksStep s.1.1.1 on, s.1.1.2, s.1.2, 1 + s.2))) in H as Hf
  end.
  2:{ intros [o n] w2 u2 w3 t3 Hu.
      pose proof (updateCategoryBlocksID_Ok_clock _ _ _ _ _ _ Hu) as ->.
      apply updateCategoryBlocksID_Ok in Hu as (-> & -> & ->). done. }
  rewrite foldl_step_clock in Hf. injection Hf as -> -> -> ->.
  rewrite Htx', Hdb', Hidc', Hclock. simpl. split_and!; [done | done | done | lia].
Qed.

Lemma set_cat_id_same c : set_cat_id (cat_id c) c = c.
Proof. by destruct c. Qed.
Lemma set_cb_id_same r : set_cb_id (cb_id r) r = r.
Proof. by destruct r. Qed.
Lemma set_cb_category_id_same r : set_cb_category_id (cb_category_id r) r = r.
Proof. by destruct r. Qed.

Lemma foldl_categoryStep ps d :
  foldl categoryStep d ps =
  mkDB (blocks d)
       ((λ c, set_cat_id (renameIn ps (cat_id c)) c) <$> categories d)
       ((λ r, set_cb_category_id (renameIn ps (cb_category_id r)) r) <$> category_blocks d)
       (system_settings d).
Proof.
  revert d. induction ps as [|[o n] ps IH]; intros d; simpl.
  - destruct d as [bs cs cbs st]. simpl. f_equal.
    + rewrite <- (list_fmap_id cs) at 1. apply list_fmap_ext. intros _ c _.
      by rewrite set_cat_id_same.
    + rewrite <- (list_fmap_id cbs) at 1. apply list_fmap_ext. intros _ r _.
      by rewrite set_cb_category_id_same.
  - rewrite IH. unfold categoryStep, sqlUpdateCategoryBlocksCategoryID,
      sqlUpdateCategoriesID, with_categories, with_category_blocks. simpl.
    f_equal; rewrite <- list_fmap_compose; apply list_fmap_ext; intros _ r _; simpl.
    + unfold renameIn. simpl. by destruct (decide (cat_id r = o)), r.
    + unfold renameIn. simpl. by destruct (decide (cb_category_id r = o)), r.
Qed.

Lemma foldl_categoryBlocksStep ps d :
  foldl categoryBlocksStep d ps =
  mkDB (blocks d) (categories d)
       ((λ r, set_cb_id (renameIn ps (cb_id r)) r) <$> category_blocks d)
       (system_settings d).
Proof.
  revert d. induction ps as [|[o n] ps IH]; intros d; simpl.
  - destruct d as [bs cs cbs st]. simpl. f_equal.
    rewrite <- (list_fmap_id cbs) at 1. apply list_fmap_ext. intros _ r _.
    by rewrite set_cb_id_same.
  - rewrite IH. unfold categoryBlocksStep, sqlUpdateCategoryBlocksID,
      with_category_blocks. simpl.
    f_equal; rewrite <- list_fmap_compose; apply list_fmap_ext; intros _ r _; simpl.
    unfold renameIn. simpl. by destruct (decide (cb_id r = o)), r.
Qed.

(** [updateCategoryIDs] leaves the identifiers of [category_blocks] as they
    are, so the second listing lists the identifiers the run started
    with. *)
Lemma foldl_categoryStep_cb_ids ps d :
  selectIDs tbl_category_blocks (foldl categoryStep d ps) = selectIDs tbl_category_blocks d.
Proof.
  rewrite foldl_categoryStep. simpl. rewrite <- list_fmap_compose.
  apply list_fmap_ext. by intros _ [] _.
Qed.

(** The world in which the transaction of a run that started in [w] is
    open, and the world after [updateCategoryIDs]. *)
Lemma runCategoryUuidIdMigration_Ok_steps w w' t :
  hasAlreadyRun CategoryUuidId (db w) = false →
  runCategoryUuidIdMigration E w = (Ok tt, w', t) →
  ∃ w1 w2 u1 u2 t1 t2,
    updateCategoryIDs E (begin_tx (later 3 w)) = (Ok u1, w1, t1) ∧
    updateCategoryBlocksIDs E w1 = (Ok u2, w2, t2) ∧
    fault E (clock w2) = None ∧ fault E (S (clock w2)) = None ∧
    w' = commit_tx (tick (with_tx (sqlSetSystemSetting CategoryUUIDIDMigrationKey "true")
                            (tick w2))) ∧
    t = gateAndFlagRead E CategoryUuidId ++
        [EvLog LDebug "Running category UUID ID migration" []; EvOp OpBeginTx None] ++
        t1 ++ t2 ++
        [EvOp (OpSetSystemSetting CategoryUUIDIDMigrationKey "true") None;
         EvOp OpCommit None;
         EvLog LDebug "category IDs migration finished successfully" []].
Proof.
  unfold hasAlreadyRun. simpl.
  intros Hflag H. unfold runCategoryUuidIdMigration in H. unmonad.
  unfold ensureMigrationsAppliedUpToVersion, GetSystemSetting, BeginTx,
    setSystemSetting in H.
  inv_ok. simpl in H. rewrite Hflag in H. inv_ok.
  match goal with H : updateCategoryIDs _ ?w0 = _ |- _ =>
    replace w0 with (begin_tx (later 3 w)) in H
      by (unfold begin_tx, later, tick, id; simpl; f_equal) end.
  eexists _, _, _, _, _, _. split_and!; [eassumption | eassumption | done | done | done |].
  reflexivity.
Qed.

(** The database a successful category migration commits. *)
Lemma runCategoryUuidIdMigration_Ok w w' t :
  hasAlreadyRun CategoryUuidId (db w) = false →
  runCategoryUuidIdMigration E w = (Ok tt, w', t) →
  let ps1 := rangeMap E (categoryIDsMap E w) in
  let ps2 := rangeMap E (categoryBlocksIDsMap E w) in
  db w' =
    mkDB (blocks (db w))
         ((λ c, set_cat_id (renameIn ps1 (cat_id c)) c) <$> categories (db w))
         ((λ r, set_cb_id (renameIn ps2 (cb_id r))
                  (set_cb_category_id (renameIn ps1 (cb_category_id r)) r))
            <$> category_blocks (db w))
         (<[CategoryUUIDIDMigrationKey := "true"]> (system_settings (db w))) ∧
  idc w' = idc w + length (listedCategories E w) + length (listedCategoryBlocks E w) ∧
  txState w' = TxCommitted.
Proof.
  intros Hflag H.
  destruct (runCategoryUuidIdMigration_Ok_steps w w' t Hflag H)
    as (w1 & w2 & u1 & u2 & t1 & t2 & H1 & H2 & _ & _ & -> & _).
  apply updateCategoryIDs_Ok in H1 as (Htx1 & Hdb1 & Hidc1 & Hclock1).
  apply updateCategoryBlocksIDs_Ok in H2 as (Htx2 & Hdb2 & Hidc2 & Hclock2).
  cbn [begin_tx later tx db idc clock] in Htx1, Hdb1, Hidc1, Hclock1.
  replace (S (3 + clock w)) with (clock w + 4) in Htx1, Hidc1, Hclock1 by lia.
  fold (listedCategories E w) in Htx1, Hidc1, Hclock1.
  fold (categoryIDsMap E w) in Htx1, Hclock1.
  rewrite Htx1, foldl_categoryStep_cb_ids, Hidc1 in Htx2.
  rewrite Htx1, foldl_categoryStep_cb_ids in Hidc2.
  replace (S (clock w1))
    with (clock w + 4 + length (listedCategories E w) + 1
          + 4 * length (rangeMap E (categoryIDsMap E w)) + 1) in Htx2, Hidc2 by lia.
  fold (listedCategoryBlocks E w) in Htx2, Hidc2.
  fold (categoryBlocksIDsMap E w) in Htx2.
  cbn [commit_tx tick with_tx tx db idc txState]. rewrite Htx2, Hidc2, Hidc1.
  rewrite foldl_categoryBlocksStep, foldl_categoryStep.
  split; [|done].
  unfold sqlSetSystemSetting, with_system_settings. simpl. f_equal.
  rewrite <- !list_fmap_compose. by apply list_fmap_ext.
Qed.

(** *** The calls of the update loops and of the run *)

Lemma updateCategoryID_Ok_events o n w u w' t :
  updateCategoryID E o n w = (Ok u, w', t) → t = updateCategoryIDEvents (o, n).
Proof. unfold updateCategoryID. unmonad. intros H. inv_ok. done. Qed.

Lemma updateCategoryBlocksID_Ok_events o n w u w' t :
  updateCategoryBlocksID E o n w = (Ok u, w', t) → t = updateCategoryBlocksIDEvents (o, n).
Proof. unfold updateCategoryBlocksID. unmonad. intros H. inv_ok. done. Qed.

(** The events of a loop that returned [Ok] are those of its passes. *)
Lemma forM_Ok_events {X} (l : list X) body (evs : X → list Event) w u w' t :
  (∀ x w1 u2 w2 t2, body x w1 = (Ok u2, w2, t2) → t2 = evs x) →
  forM_ l body w = (Ok u, w', t) → t = l ≫= evs.
Proof.
  intros Hb. unfold forM_. revert w u t.
  induction l as [|x l IH]; intros w u t H; simpl in H.
  - by inv_ok.
  - inv_ok. match goal with a : unit |- _ => destruct a end.
    apply IH in H as ->. simpl. f_equal. eauto.
Qed.

Lemma updateCategoryIDs_Ok_events w u w' t :
  updateCategoryIDs E w = (Ok u, w', t) →
  let ids := delivered E (S (clock w)) (selectIDs tbl_categories (tx w)) in
  ∃ r, t = listingEvents tbl_categories (length ids) r ++
           (rangeMap E (newIDsMap E (idc w) ids) ≫= updateCategoryIDEvents).
Proof.
  intros H. unfold updateCategoryIDs in H. unmonad. inv_ok.
  match goal with H : getIDs _ _ _ = _ |- _ => apply getIDs_Ok_later in H as (-> & -> & ->) end.
  match goal with H : newIDsFor _ _ _ = _ |- _ =>
    pose proof (newIDsFor_Ok_clock _ _ _ _ _ H) as [_ ->];
    apply newIDsFor_Ok in H as (-> & _) end.
  match goal with H : forM_ _ _ _ = (Ok _, _, _) |- _ =>
    apply (forM_Ok_events _ _ updateCategoryIDEvents) in H as -> end.
  - eexists. simpl. by rewrite app_nil_r.
  - intros [o n] wa ua wb tb. apply updateCategoryID_Ok_events.
Qed.

Lemma updateCategoryBlocksIDs_Ok_events w u w' t :
  updateCategoryBlocksIDs E w = (Ok u, w', t) →
  let ids := delivered E (S (clock w)) (selectIDs tbl_category_blocks (tx w)) in
  ∃ r, t = listingEvents tbl_category_blocks (length ids) r ++
           (rangeMap E (newIDsMap E (idc w) ids) ≫= updateCategoryBlocksIDEvents).
Proof.
  intros H. unfold updateCategoryBlocksIDs in H. unmonad. inv_ok.
  match goal with H : getIDs _ _ _ = _ |- _ => apply getIDs_Ok_later in H as (-> & -> & ->) end.
  match goal with H : newIDsFor _ _ _ = _ |- _ =>
    pose proof (newIDsFor_Ok_clock _ _ _ _ _ H) as [_ ->];
    apply newIDsFor_Ok in H as (-> & _) end.
  match goal with H : forM_ _ _ _ = (Ok _, _, _) |- _ =>
    apply (forM_Ok_events _ _ updateCategoryBlocksIDEvents) in H as -> end.
  - eexists. simpl. by rewrite app_nil_r.
  - intros [o n] wa ua wb tb. apply updateCategoryBlocksID_Ok_events.
Qed.

(** The calls of a successful category migration. *)
Lemma runCategoryUuidIdMigration_Ok_events w w' t :
  hasAlreadyRun CategoryUuidId (db w) = false →
  runCategoryUuidIdMigration E w = (Ok tt, w', t) →
  ∃ r1 r2,
    t = gateAndFlagRead E CategoryUuidId ++
        [EvLog LDebug "Running category UUID ID migration" []; EvOp OpBeginTx None] ++
        listingEvents tbl_categories (length (listedCategories E w)) r1 ++
        (rangeMap E (categoryIDsMap E w) ≫= updateCategoryIDEvents) ++
        listingEvents tbl_category_blocks (length (listedCategoryBlocks E w)) r2 ++
        (rangeMap E (categoryBlocksIDsMap E w) ≫= updateCategoryBlocksIDEvents) ++
        [EvOp (OpSetSystemSetting CategoryUUIDIDMigrationKey "true") None;
         EvOp OpCommit None;
         EvLog LDebug "category IDs migration finished successfully" []].
Proof.
  intros Hflag H.
  destruct (runCategoryUuidIdMigration_Ok_steps w w' t Hflag H)
    as (w1 & w2 & u1 & u2 & t1 & t2 & H1 & H2 & _ & _ & _ & ->).
  pose proof (updateCategoryIDs_Ok_events _ _ _ _ H1) as [r1 ->].
  pose proof (updateCategoryBlocksIDs_Ok_events _ _ _ _ H2) as [r2 ->].
  apply updateCategoryIDs_Ok in H1 as (Htx1 & Hdb1 & Hidc1 & Hclock1).
  cbn [begin_tx later tx db idc clock] in *.
  replace (S (3 + clock w)) with (clock w + 4) in * by lia.
  fold (listedCategories E w) in *.
  fold (categoryIDsMap E w) in *.
  rewrite Htx1, foldl_categoryStep_cb_ids, Hidc1.
  replace (S (clock w1))
    with (clock w + 4 + length (listedCategories E w) + 1
          + 4 * length (rangeMap E (categoryIDsMap E w)) + 1) by lia.
  fold (listedCategoryBlocks E w). fold (categoryBlocksIDsMap E w).
  exists r1, r2. by rewrite <- !app_assoc.
Qed.

(** *** Sequential renaming with fresh identifiers is simultaneous *)

Lemma renameIn_not_key ps x : x ∉ ps.*1 → renameIn ps x = x.
Proof.
  unfold renameIn. induction ps as [|[o n] ps IH]; simpl; [done|].
  intros Hx%not_elem_of_cons. destruct Hx as [Hne Hx].
  destruct (decide (x = o)); [done|]. by apply IH.
Qed.

Lemma renameIn_cases ps x :
  (∀ o n, (o, n) ∈ ps → n ∉ ps.*1) →
  ((x ∉ ps.*1) ∧ renameIn ps x = x) ∨ (∃ n, (x, n) ∈ ps ∧ renameIn ps x = n).
Proof.
  revert x. induction ps as [|[o n] ps IH]; intros x Hfresh.
  - left. split; [apply not_elem_of_nil | done].
  - assert (∀ o' n', (o', n') ∈ ps → n' ∉ ps.*1) as Hfresh'.
    { intros o' n' Hin Hn'. apply (Hfresh o' n'); [by right | by right]. }
    unfold renameIn. simpl. destruct (decide (x = o)) as [->|Hne].
    + right. exists n. split; [by left|].
      apply renameIn_not_key. intros Hn. apply (Hfresh o n); [by left | by right].
    + destruct (IH x Hfresh') as [[Hx Hr] | (n' & Hin & Hr)].
      * left. split; [|done]. by apply not_elem_of_cons.
      * right. exists n'. split; [by right | done].
Qed.

Lemma renameIn_lookup (m : gmap string string) ps x :
  NoDup ps.*1 →
  (∀ o n, (o, n) ∈ ps ↔ m !! o = Some n) →
  (∀ o n, m !! o = Some n → m !! n = None) →
  renameIn ps x = default x (m !! x).
Proof.
  intros Hnd Hm Hfresh.
  destruct (renameIn_cases ps x) as [[Hx Hr] | (n & Hin & Hr)].
  - intros o n Hin Hn. apply list_elem_of_fmap in Hn as ([n1 n2] & -> & Hn).
    apply Hm in Hin, Hn. apply Hfresh in Hin. simpl in Hin. congruence.
  - rewrite Hr. destruct (m !! x) as [n|] eqn:Hl; [|done].
    exfalso. apply Hx. apply list_elem_of_fmap. exists (x, n). split; [done|].
    by apply Hm.
  - rewrite Hr. apply Hm in Hin. by rewrite Hin.
Qed.

(** *** The map [categoryIDs] *)

Lemma newIDsMap_lookup_Some c ids X n :
  newIDsMap E c ids !! X = Some n →
  ∃ i, ids !! i = Some X ∧ (∀ j, i < j → ids !! j ≠ Some X) ∧
       n = utils_NewID E (c + i) IDTypeNone.
Proof.
  revert n. induction ids as [|x ids IH] using rev_ind; intros n.
  - unfold newIDsMap. simpl. by rewrite lookup_empty.
  - rewrite newIDsMap_snoc, lookup_insert.
    destruct (decide (x = X)) as [->|Hne].
    + intros [= <-]. exists (length ids). split_and!; [|  |done].
      * by rewrite lookup_app_r, Nat.sub_diag.
      * intros j Hj. rewrite lookup_ge_None_2; [done|]. rewrite length_app. simpl. lia.
    + intros (i & Hi & Hlast & ->)%IH. exists i. split_and!; [| |done].
      * by apply lookup_app_l_Some.
      * intros j Hj. destruct (decide (j < length ids)) as [Hlt|Hge].
        -- rewrite lookup_app_l by done. by apply Hlast.
        -- rewrite lookup_app_r by lia.
           destruct (j - length ids) as [|k]; simpl; [congruence|].
           by rewrite lookup_nil.
Qed.

Lemma newIDsMap_lookup_is_Some c ids X :
  X ∈ ids ↔ is_Some (newIDsMap E c ids !! X).
Proof.
  split.
  - induction ids as [|x ids IH] using rev_ind; [by intros ?%elem_of_nil|].
    rewrite newIDsMap_snoc, lookup_insert. intros Hin.
    destruct (decide (x = X)); [eauto|].
    apply IH. apply elem_of_app in Hin as [?|Hin]; [done|].
    apply list_elem_of_singleton in Hin. congruence.
  - intros [n (i & Hi & _)%newIDsMap_lookup_Some]. by eapply list_elem_of_lookup_2.
Qed.

(** A repeated identifier keeps the entry written last. *)
Lemma newIDsMap_lookup_last c ids X i :
  ids !! i = Some X → (∀ j, i < j → ids !! j ≠ Some X) →
  newIDsMap E c ids !! X = Some (utils_NewID E (c + i) IDTypeNone).
Proof.
  intros Hi Hlast.
  destruct (proj1 (newIDsMap_lookup_is_Some c ids X)) as [n Hn];
    [by eapply list_elem_of_lookup_2|].
  rewrite Hn. apply newIDsMap_lookup_Some in Hn as (i' & Hi' & Hlast' & ->).
  destruct (Nat.lt_trichotomy i i') as [Hlt|[->|Hgt]]; [|done|].
  - by destruct (Hlast i' Hlt).
  - by destruct (Hlast' i Hgt).
Qed.

End CategoryOk.

(** ** Failing runs: which call failed, what was returned, what was cleaned up *)

Section Traces.
Variable E : Env.
Variable F : Op → error → error.
Variable B : Op → bool.

Lemma quiet_app l1 l2 : quiet l1 → quiet l2 → quiet (l1 ++ l2).
Proof. unfold quiet. rewrite forallb_app. by intros -> ->. Qed.

Lemma cleanupOnly_app l1 l2 : cleanupOnly l1 → cleanupOnly l2 → cleanupOnly (l1 ++ l2).
Proof. unfold cleanupOnly. rewrite forallb_app. by intros -> ->. Qed.

Lemma cleanupOnly_quiet l : cleanupOnly l → callsRollback l = false → quiet l.
Proof.
  unfold cleanupOnly, callsRollback, quiet. induction l as [|ev l IH]; simpl; [done|].
  intros [H1 H2]%andb_true_iff [H3 H4]%orb_false_iff.
  rewrite IH by done. rewrite andb_true_r.
  destruct ev as [[] []|]; simpl in *; done.
Qed.

Lemma quiet_no_rollback l : quiet l → callsRollback l = false.
Proof.
  unfold callsRollback, quiet. induction l as [|ev l IH]; simpl; [done|].
  intros [H1 H2]%andb_true_iff. rewrite IH by done. rewrite orb_false_r.
  destruct ev as [[] []|]; simpl in *; done.
Qed.

Lemma traced_ret {A} (a : A) : traced F B (ret a).
Proof. by intros w. Qed.

Lemma traced_bind {A C} (m : M A) (k : A → M C) :
  traced F B m → (∀ a, traced F B (k a)) → traced F B (bind m k).
Proof.
  intros Hm Hk w. unfold bind. specialize (Hm w).
  destruct (m w) as [[[a|e] w1] t1]; unfold resultOf, eventsOf in *; simpl in *.
  - specialize (Hk a w1). destruct (k a w1) as [[[c|e] w2] t2];
      unfold resultOf, eventsOf in *; simpl in *.
    + by apply quiet_app.
    + destruct Hk as (pre & o & e0 & post & -> & Hq & Hrest).
      exists (t1 ++ pre), o, e0, post. rewrite <- app_assoc.
      split; [done|]. split; [by apply quiet_app | done].
  - done.
Qed.

Lemma traced_foldM {X S} (f : S → X → M S) s l :
  (∀ s x, traced F B (f s x)) → traced F B (foldM f s l).
Proof.
  intros Hf. revert s. induction l as [|x l IH]; intros s; simpl.
  - apply traced_ret.
  - apply traced_bind; [apply Hf | intros s'; apply IH].
Qed.

Lemma traced_forM_ {X} (l : list X) (body : X → M unit) :
  (∀ x, traced F B (body x)) → traced F B (forM_ l body).
Proof. intros Hb. apply traced_foldM. intros _ x. apply Hb. Qed.

Lemma traced_logDebug msg : traced F B (logDebug msg).
Proof. by intros w. Qed.

Lemma traced_NewID t : traced F B (NewID E t).
Proof. by intros w. Qed.

(** A call, with the handling of its failure. *)
Lemma traced_onErr_exec o eff c wrap :
  isCleanup o = false →
  (∀ e, cleanup_spec (B o) (c e)) → (∀ e0, F o e0 = wrap e0) →
  traced F B (onErr (exec E o eff) c wrap).
Proof.
  intros Ho Hc HF w. unfold onErr, exec.
  destruct (fault E (clock w)) as [e0|]; simpl.
  - destruct (Hc e0 (tick w)) as (Hcl & Hrb).
    destruct (c e0 (tick w)) as [w2 t2]. unfold resultOf, eventsOf. simpl in *.
    exists [], o, e0, t2. by rewrite HF.
  - unfold resultOf, eventsOf. simpl. by destruct o.
Qed.

Lemma traced_onErr_query {A} o (f : World → A) c wrap :
  isCleanup o = false →
  (∀ e, cleanup_spec (B o) (c e)) → (∀ e0, F o e0 = wrap e0) →
  traced F B (onErr (query E o f) c wrap).
Proof.
  intros Ho Hc HF w. unfold onErr, query.
  destruct (fault E (clock w)) as [e0|]; simpl.
  - destruct (Hc e0 (tick w)) as (Hcl & Hrb).
    destruct (c e0 (tick w)) as [w2 t2]. unfold resultOf, eventsOf. simpl in *.
    exists [], o, e0, t2. by rewrite HF.
  - unfold resultOf, eventsOf. simpl. by destruct o.
Qed.

Lemma traced_exec o eff :
  isCleanup o = false → B o = false → (∀ e0, F o e0 = e0) →
  traced F B (exec E o eff).
Proof.
  intros Ho HB HF w. unfold exec.
  destruct (fault E (clock w)) as [e0|]; unfold resultOf, eventsOf; simpl.
  - exists [], o, e0, []. by rewrite HF, HB.
  - by destruct o.
Qed.

(** The commit, whose failure is returned wrapped with nothing cleaned up. *)
Lemma traced_onErr_Commit wrap :
  B OpCommit = false → (∀ e0, F OpCommit e0 = wrap e0) →
  traced F B (onErr (Commit E) noCleanup wrap).
Proof.
  intros HB HF w. unfold onErr, Commit.
  destruct (fault E (clock w)) as [e0|]; unfold resultOf, eventsOf; simpl; [|done].
  exists [], OpCommit, e0, []. by rewrite HF, HB.
Qed.

Lemma traced_rowsNext : traced F B (rowsNext E).
Proof. by intros w. Qed.

(** The loop over the rows of a listing. *)
Lemma traced_scanRows t acc rows :
  B (OpScan t) = false → (∀ e0, F (OpScan t) e0 = e0) →
  traced F B (scanRows E t acc rows).
Proof.
  intros HB HF. revert acc. induction rows as [|x rows IH]; intros acc; simpl; unmonad.
  - apply traced_ret.
  - apply traced_bind; [apply traced_rowsNext | intros [|]; [|apply traced_ret]].
    apply traced_bind; [|intros _; apply IH].
    apply traced_onErr_exec; [done | | done].
    intros e w. rewrite HB. done.
Qed.

Lemma traced_defer {A} c (m : M A) :
  cleanup_spec false c → traced F B m → traced F B (defer c m).
Proof.
  intros Hc Hm w. unfold defer. specialize (Hm w).
  destruct (m w) as [[r w1] t1]. destruct (Hc w1) as (Hcl & Hrb).
  destruct (c w1) as [w2 t2]. unfold resultOf, eventsOf in *. simpl in *.
  destruct r as [a|e]; simpl in *.
  - apply quiet_app; [done|]. by apply cleanupOnly_quiet.
  - destruct Hm as (pre & o & e0 & post & -> & Hq & Ho & He & Hpost & Hb).
    exists pre, o, e0, (post ++ t2). rewrite <- app_assoc. simpl.
    split_and!; try done.
    + by apply cleanupOnly_app.
    + unfold callsRollback in *. by rewrite existsb_app, Hb, Hrb, orb_false_r.
Qed.

Lemma cleanup_spec_noCleanup e : cleanup_spec false (noCleanup e).
Proof. by intros w. Qed.

Lemma cleanup_spec_logError msg fields : cleanup_spec false (logError msg fields).
Proof. by intros w. Qed.

Lemma cleanup_spec_rollbackLogged msg methodName :
  cleanup_spec true (rollbackLogged E msg methodName).
Proof.
  intros w. unfold rollbackLogged, Rollback, exec.
  by destruct (fault E (clock w)) as [e|].
Qed.

Lemma cleanup_spec_CloseRows : cleanup_spec false (CloseRows E).
Proof.
  intros w. unfold CloseRows, exec.
  by destruct (fault E (clock w)) as [e|].
Qed.

End Traces.

Section RunTraces.
Variable E : Env.

Lemma runUniqueIDsMigration_traced :
  traced uniqueIDsError uniqueIDsRollsBack (runUniqueIDsMigration E).
Proof.
  unfold runUniqueIDsMigration. unmonad.
  apply traced_bind; [by apply traced_exec | intros _].
  apply traced_bind;
    [apply traced_onErr_query; [done | apply cleanup_spec_noCleanup | done] | intros setting].
  destruct (ParseBool setting).1; [apply traced_ret|].
  apply traced_bind; [apply traced_logDebug | intros _].
  apply traced_bind; [by apply traced_exec | intros _].
  apply traced_bind;
    [apply traced_onErr_query;
     [done | intros _; apply cleanup_spec_rollbackLogged | done] | intros bs].
  apply traced_bind.
  { apply traced_forM_. intros [k g]. apply traced_forM_. intros [i b].
    destruct (decide (i = 0)); [apply traced_ret|].
    apply traced_bind; [apply traced_NewID | intros newID].
    apply traced_onErr_exec;
      [done | intros _; apply cleanup_spec_rollbackLogged | done]. }
  intros _.
  apply traced_bind;
    [apply traced_onErr_exec;
     [done | intros _; apply cleanup_spec_rollbackLogged | done] | intros _].
  apply traced_bind; [by apply traced_onErr_Commit | intros _].
  apply traced_bind; [apply traced_logDebug | intros _]. apply traced_ret.
Qed.

Lemma getIDs_traced t : traced categoryError categoryRollsBack (getIDs E t).
Proof.
  unfold getIDs. unmonad.
  apply traced_bind;
    [apply traced_onErr_query;
     [by destruct t | intros e; apply cleanup_spec_logError | by destruct t]
    | intros rows].
  apply traced_defer; [apply cleanup_spec_CloseRows|].
  by apply traced_scanRows.
Qed.

Lemma newIDsFor_traced ids : traced categoryError categoryRollsBack (newIDsFor E ids).
Proof.
  unfold newIDsFor. apply traced_foldM. intros m x. unmonad.
  apply traced_bind; [apply traced_NewID | intros n; apply traced_ret].
Qed.

Lemma updateCategoryID_traced o n :
  traced categoryError categoryRollsBack (updateCategoryID E o n).
Proof.
  unfold updateCategoryID. unmonad.
  repeat (apply traced_bind;
          [apply traced_onErr_exec;
           [done | intros e; apply cleanup_spec_logError | done] | intros _]).
  apply traced_ret.
Qed.

Lemma updateCategoryBlocksID_traced o n :
  traced categoryError categoryRollsBack (updateCategoryBlocksID E o n).
Proof.
  unfold updateCategoryBlocksID. unmonad.
  apply traced_bind;
    [apply traced_onErr_exec;
     [done | intros e; apply cleanup_spec_logError | done] | intros _].
  apply traced_ret.
Qed.

Lemma updateCategoryIDs_traced :
  traced categoryError categoryRollsBack (updateCategoryIDs E).
Proof.
  unfold updateCategoryIDs. unmonad.
  apply traced_bind; [apply getIDs_traced | intros ids].
  apply traced_bind; [apply newIDsFor_traced | intros m].
  apply traced_bind; [|intros _; apply traced_ret].
  apply traced_forM_. intros [o n]. apply updateCategoryID_traced.
Qed.

Lemma updateCategoryBlocksIDs_traced :
  traced categoryError categoryRollsBack (updateCategoryBlocksIDs E).
Proof.
  unfold updateCategoryBlocksIDs. unmonad.
  apply traced_bind; [apply getIDs_traced | intros ids].
  apply traced_bind; [apply newIDsFor_traced | intros m].
  apply traced_bind; [|intros _; apply traced_ret].
  apply traced_forM_. intros [o n]. apply updateCategoryBlocksID_traced.
Qed.

Lemma runCategoryUuidIdMigration_traced :
  traced categoryError categoryRollsBack (runCategoryUuidIdMigration E).
Proof.
  unfold runCategoryUuidIdMigration. unmonad.
  apply traced_bind; [by apply traced_exec | intros _].
  apply traced_bind;
    [apply traced_onErr_query; [done | apply cleanup_spec_noCleanup | done] | intros setting].
  destruct (ParseBool setting).1; [apply traced_ret|].
  apply traced_bind; [apply traced_logDebug | intros _].
  apply traced_bind; [by apply traced_exec | intros _].
  apply traced_bind; [apply updateCategoryIDs_traced | intros _].
  apply traced_bind; [apply updateCategoryBlocksIDs_traced | intros _].
  apply traced_bind;
    [apply traced_onErr_exec;
     [done | intros _; apply cleanup_spec_rollbackLogged | done] | intros _].
  apply traced_bind; [by apply traced_onErr_Commit | intros _].
  apply traced_bind; [apply traced_logDebug | intros _]. apply traced_ret.
Qed.

Lemma runMigration_traced mig :
  traced (returnedError mig) (rollsBack mig) (runMigration E mig).
Proof.
  destruct mig; [apply runUniqueIDsMigration_traced | apply runCategoryUuidIdMigration_traced].
Qed.

End RunTraces.

(** ** A rollback that fails is logged *)

Section Logged.
Variable E : Env.

Lemma noFailedRollback_logged l : noFailedRollback l → rollbackFailuresLogged l.
Proof. intros H i e Hi. by destruct (H i e). Qed.

Lemma noFailedRollback_one o r :
  o ≠ OpRollback → noFailedRollback [EvOp o r].
Proof. intros Ho [|i] e H; simpl in H; [congruence | done]. Qed.

Lemma noFailedRollback_log lvl msg fields : noFailedRollback [EvLog lvl msg fields].
Proof. by intros [|i] e H. Qed.

Lemma rollbackFailuresLogged_nil : rollbackFailuresLogged [].
Proof. by intros i e H. Qed.

Lemma rollbackFailuresLogged_app l1 l2 :
  rollbackFailuresLogged l1 → rollbackFailuresLogged l2 →
  rollbackFailuresLogged (l1 ++ l2).
Proof.
  intros H1 H2 i e Hi. apply lookup_app_Some in Hi as [Hi|[Hle Hi]].
  - destruct (H1 i e Hi) as (msg & mn & Hs). exists msg, mn.
    by apply lookup_app_l_Some.
  - destruct (H2 _ e Hi) as (msg & mn & Hs). exists msg, mn.
    rewrite lookup_app_r by lia. by replace (S i - length l1) with (S (i - length l1)) by lia.
Qed.

Lemma logged_ret {A} (a : A) : logged (ret a).
Proof. intros w. apply rollbackFailuresLogged_nil. Qed.

Lemma logged_bind {A C} (m : M A) (k : A → M C) :
  logged m → (∀ a, logged (k a)) → logged (bind m k).
Proof.
  intros Hm Hk w. unfold bind. specialize (Hm w).
  destruct (m w) as [[[a|e] w1] t1]; unfold eventsOf in *; simpl in *; [|done].
  specialize (Hk a w1). destruct (k a w1) as [[r w2] t2]. simpl in *.
  by apply rollbackFailuresLogged_app.
Qed.

Lemma logged_foldM {X S} (f : S → X → M S) s l :
  (∀ s x, logged (f s x)) → logged (foldM f s l).
Proof.
  intros Hf. revert s. induction l as [|x l IH]; intros s; simpl.
  - apply logged_ret.
  - apply logged_bind; [apply Hf | intros s'; apply IH].
Qed.

Lemma logged_forM_ {X} (l : list X) (body : X → M unit) :
  (∀ x, logged (body x)) → logged (forM_ l body).
Proof. intros Hb. apply logged_foldM. intros _ x. apply Hb. Qed.

Lemma logged_logDebug msg : logged (logDebug msg).
Proof. intros w. apply noFailedRollback_logged, noFailedRollback_log. Qed.

Lemma logged_NewID t : logged (NewID E t).
Proof. intros w. apply rollbackFailuresLogged_nil. Qed.

Lemma logged_rowsNext : logged (rowsNext E).
Proof. intros w. apply rollbackFailuresLogged_nil. Qed.

Lemma logged_exec o eff : o ≠ OpRollback → logged (exec E o eff).
Proof.
  intros Ho w. unfold exec.
  destruct (fault E (clock w)); apply noFailedRollback_logged;
    by apply noFailedRollback_one.
Qed.

Lemma logged_query {A} o (f : World → A) : o ≠ OpRollback → logged (query E o f).
Proof.
  intros Ho w. unfold query.
  destruct (fault E (clock w)); apply noFailedRollback_logged;
    by apply noFailedRollback_one.
Qed.

Lemma logged_Commit : logged (Commit E).
Proof.
  intros w. unfold Commit.
  destruct (fault E (clock w)); apply noFailedRollback_logged;
    by apply noFailedRollback_one.
Qed.

Lemma logged_onErr {A} (m : M A) c wrap :
  logged m → (∀ e w, rollbackFailuresLogged (c e w).2) → logged (onErr m c wrap).
Proof.
  intros Hm Hc w. unfold onErr. specialize (Hm w).
  destruct (m w) as [[[a|e] w1] t1]; unfold eventsOf in *; simpl in *; [done|].
  specialize (Hc e w1). destruct (c e w1) as [w2 t2]. simpl in *.
  by apply rollbackFailuresLogged_app.
Qed.

Lemma logged_defer {A} c (m : M A) :
  (∀ w, rollbackFailuresLogged (c w).2) → logged m → logged (defer c m).
Proof.
  intros Hc Hm w. unfold defer. specialize (Hm w).
  destruct (m w) as [[r w1] t1]. specialize (Hc w1).
  destruct (c w1) as [w2 t2]. unfold eventsOf in *. simpl in *.
  by apply rollbackFailuresLogged_app.
Qed.

Lemma noCleanup_logged e w : rollbackFailuresLogged (noCleanup e w).2.
Proof. apply rollbackFailuresLogged_nil. Qed.

Lemma logError_logged msg fields w : rollbackFailuresLogged (logError msg fields w).2.
Proof. apply noFailedRollback_logged, noFailedRollback_log. Qed.

Lemma rollbackLogged_logged msg methodName w :
  rollbackFailuresLogged (rollbackLogged E msg methodName w).2.
Proof.
  unfold rollbackLogged, Rollback, exec.
  destruct (fault E (clock w)) as [e|]; simpl.
  - intros [|[|i]] e' Hi; simpl in Hi; try done.
    simplify_eq. by eexists _, _.
  - intros [|i] e' Hi; simpl in Hi; done.
Qed.

Lemma CloseRows_logged w : rollbackFailuresLogged (CloseRows E w).2.
Proof.
  unfold CloseRows, exec.
  destruct (fault E (clock w)); apply noFailedRollback_logged;
    by apply noFailedRollback_one.
Qed.

Lemma scanRows_logged t acc rows : logged (scanRows E t acc rows).
Proof.
  revert acc. induction rows as [|x rows IH]; intros acc; simpl; unmonad.
  - apply logged_ret.
  - apply logged_bind; [apply logged_rowsNext | intros [|]; [|apply logged_ret]].
    apply logged_bind; [|intros _; apply IH].
    apply logged_onErr; [by apply logged_exec | intros; apply logError_logged].
Qed.

Lemma getIDs_logged t : logged (getIDs E t).
Proof.
  unfold getIDs. unmonad.
  apply logged_bind.
  - apply logged_onErr; [by apply logged_query | intros; apply logError_logged].
  - intros rows. apply logged_defer; [apply CloseRows_logged | apply scanRows_logged].
Qed.

Lemma newIDsFor_logged ids : logged (newIDsFor E ids).
Proof.
  unfold newIDsFor. apply logged_foldM. intros m x. unmonad.
  apply logged_bind; [apply logged_NewID | intros n; apply logged_ret].
Qed.

Lemma updateCategoryID_logged o n : logged (updateCategoryID E o n).
Proof.
  unfold updateCategoryID. unmonad.
  repeat (apply logged_bind;
          [apply logged_onErr; [by apply logged_exec | intros; apply logError_logged]
          | intros _]).
  apply logged_ret.
Qed.

Lemma updateCategoryBlocksID_logged o n : logged (updateCategoryBlocksID E o n).
Proof.
  unfold updateCategoryBlocksID. unmonad.
  apply logged_bind;
    [apply logged_onErr; [by apply logged_exec | intros; apply logError_logged]
    | intros _].
  apply logged_ret.
Qed.

Lemma runCategoryUuidIdMigration_logged : logged (runCategoryUuidIdMigration E).
Proof.
  unfold runCategoryUuidIdMigration, updateCategoryIDs, updateCategoryBlocksIDs. unmonad.
  apply logged_bind; [by apply logged_exec | intros _].
  apply logged_bind;
    [apply logged_onErr; [by apply logged_query | intros; apply noCleanup_logged]
    | intros setting].
  destruct (ParseBool setting).1; [apply logged_ret|].
  apply logged_bind; [apply logged_logDebug | intros _].
  apply logged_bind; [by apply logged_exec | intros _].
  apply logged_bind.
  { apply logged_bind; [apply getIDs_logged | intros ids].
    apply logged_bind; [apply newIDsFor_logged | intros m].
    apply logged_bind; [|intros _; apply logged_ret].
    apply logged_forM_. intros [o n]. apply updateCategoryID_logged. }
  intros _.
  apply logged_bind.
  { apply logged_bind; [apply getIDs_logged | intros ids].
    apply logged_bind; [apply newIDsFor_logged | intros m].
    apply logged_bind; [|intros _; apply logged_ret].
    apply logged_forM_. intros [o n]. apply updateCategoryBlocksID_logged. }
  intros _.
  apply logged_bind;
    [apply logged_onErr; [by apply logged_exec | intros; apply rollbackLogged_logged]
    | intros _].
  apply logged_bind;
    [apply logged_onErr; [apply logged_Commit | intros; apply noCleanup_logged] | intros _].
  apply logged_bind; [apply logged_logDebug | intros _]. apply logged_ret.
Qed.

Lemma runUniqueIDsMigration_logged : logged (runUniqueIDsMigration E).
Proof.
  unfold runUniqueIDsMigration. unmonad.
  apply logged_bind; [by apply logged_exec | intros _].
  apply logged_bind;
    [apply logged_onErr; [by apply logged_query | intros; apply noCleanup_logged]
    | intros setting].
  destruct (ParseBool setting).1; [apply logged_ret|].
  apply logged_bind; [apply logged_logDebug | intros _].
  apply logged_bind; [by apply logged_exec | intros _].
  apply logged_bind;
    [apply logged_onErr; [by apply logged_query | intros; apply rollbackLogged_logged]
    | intros bs].
  apply logged_bind.
  { apply logged_forM_. intros [k g]. apply logged_forM_. intros [i b].
    destruct (decide (i = 0)); [apply logged_ret|].
    apply logged_bind; [apply logged_NewID | intros newID].
    apply logged_onErr; [by apply logged_exec | intros; apply rollbackLogged_logged]. }
  intros _.
  apply logged_bind;
    [apply logged_onErr; [by apply logged_exec | intros; apply rollbackLogged_logged]
    | intros _].
  apply logged_bind;
    [apply logged_onErr; [apply logged_Commit | intros; apply noCleanup_logged] | intros _].
  apply logged_bind; [apply logged_logDebug | intros _]. apply logged_ret.
Qed.

Lemma runMigration_logged mig : logged (runMigration E mig).
Proof.
  destruct mig; [apply runUniqueIDsMigration_logged | apply runCategoryUuidIdMigration_logged].
Qed.

End Logged.

(** ** The committed database changes at a successful commit only *)

Section KeepsDB.
Variable E : Env.

Lemma keeps_db_ret {A} (a : A) : keeps_db (ret a).
Proof. by intros w. Qed.

Lemma keeps_db_bind {A C} (m : M A) (k : A → M C) :
  keeps_db m → (∀ a, keeps_db (k a)) → keeps_db (bind m k).
Proof.
  intros Hm Hk w. unfold bind. specialize (Hm w).
  destruct (m w) as [[[a|e] w1] t1]; unfold worldOf in *; simpl in *; [|done].
  specialize (Hk a w1). destruct (k a w1) as [[r w2] t2].
  unfold worldOf in *; simpl in *. congruence.
Qed.

Lemma keeps_db_foldM {X S} (f : S → X → M S) s l :
  (∀ s x, keeps_db (f s x)) → keeps_db (foldM f s l).
Proof.
  intros Hf. revert s. induction l as [|x l IH]; intros s; simpl.
  - apply keeps_db_ret.
  - apply keeps_db_bind; [apply Hf | intros s'; apply IH].
Qed.

Lemma keeps_db_forM_ {X} (l : list X) (body : X → M unit) :
  (∀ x, keeps_db (body x)) → keeps_db (forM_ l body).
Proof. intros Hb. apply keeps_db_foldM. intros _ x. apply Hb. Qed.

Lemma keeps_db_logDebug msg : keeps_db (logDebug msg).
Proof. by intros w. Qed.

Lemma keeps_db_NewID t : keeps_db (NewID E t).
Proof. by intros w. Qed.

Lemma keeps_db_exec o eff : (∀ w, db (eff w) = db w) → keeps_db (exec E o eff).
Proof.
  intros Heff w. unfold exec, worldOf. destruct (fault E (clock w)); simpl; [done|].
  by rewrite Heff.
Qed.

Lemma keeps_db_query {A} o (f : World → A) : keeps_db (query E o f).
Proof. intros w. unfold query, worldOf. by destruct (fault E (clock w)). Qed.

Lemma keeps_db_onErr {A} (m : M A) c wrap :
  keeps_db m → (∀ e w, db (c e w).1 = db w) → keeps_db (onErr m c wrap).
Proof.
  intros Hm Hc w. unfold onErr. specialize (Hm w).
  destruct (m w) as [[[a|e] w1] t1]; unfold worldOf in *; simpl in *; [done|].
  specialize (Hc e w1). destruct (c e w1) as [w2 t2]. simpl in *. congruence.
Qed.

Lemma keeps_db_defer {A} c (m : M A) :
  (∀ w, db (c w).1 = db w) → keeps_db m → keeps_db (defer c m).
Proof.
  intros Hc Hm w. unfold defer. specialize (Hm w).
  destruct (m w) as [[r w1] t1]. specialize (Hc w1). destruct (c w1) as [w2 t2].
  unfold worldOf in *. simpl in *. congruence.
Qed.

Lemma rollbackLogged_db msg methodName w : db (rollbackLogged E msg methodName w).1 = db w.
Proof. unfold rollbackLogged, Rollback, exec. by destruct (fault E (clock w)). Qed.

Lemma CloseRows_db w : db (CloseRows E w).1 = db w.
Proof. unfold CloseRows, exec. by destruct (fault E (clock w)). Qed.

Lemma db_safe_keeps {A} (m : M A) : keeps_db m → db_safe m.
Proof. intros Hm w. left. apply Hm. Qed.

Lemma db_safe_bind {A C} (m : M A) (k : A → M C) :
  keeps_db m → (∀ a, db_safe (k a)) → db_safe (bind m k).
Proof.
  intros Hm Hk w. unfold bind. specialize (Hm w).
  destruct (m w) as [[[a|e] w1] t1]; unfold worldOf, resultOf in *; simpl in *;
    [|by left].
  specialize (Hk a w1). destruct (k a w1) as [[r w2] t2].
  unfold worldOf, resultOf, eventsOf in *; simpl in *.
  destruct Hk as [Hk|[Hk|[e Hk]]]; [left; congruence | by right; left |].
  right. right. exists e. apply elem_of_app. by right.
Qed.

(** The end of both runs: commit, log, return. *)
Lemma db_safe_commit wrap msg :
  db_safe (bind (onErr (Commit E) noCleanup wrap)
                (λ _, bind (logDebug msg) (λ _, ret tt))).
Proof.
  intros w. unfold bind, onErr, Commit, logDebug, ret, worldOf, resultOf, eventsOf.
  destruct (fault E (clock w)) as [e|]; simpl.
  - right. right. exists e. apply list_elem_of_here.
  - right. left. eauto.
Qed.

Lemma keeps_db_rowsNext : keeps_db (rowsNext E).
Proof. by intros w. Qed.

Ltac keeps_db_leaf :=
  first
    [ apply keeps_db_onErr;
      [ first [ apply keeps_db_exec; done | apply keeps_db_query ]
      | first [ done | intros ? ?; apply rollbackLogged_db ] ]
    | apply keeps_db_exec; done
    | apply keeps_db_logDebug
    | apply keeps_db_NewID
    | apply keeps_db_ret ].

Lemma getIDs_keeps_db t : keeps_db (getIDs E t).
Proof.
  unfold getIDs. unmonad.
  apply keeps_db_bind; [keeps_db_leaf | intros rows].
  apply keeps_db_defer; [apply CloseRows_db|].
  generalize (@nil string) as acc.
  induction rows as [|x rows IH]; intros acc; simpl; unmonad; [keeps_db_leaf|].
  apply keeps_db_bind; [apply keeps_db_rowsNext | intros [|]; [|keeps_db_leaf]].
  apply keeps_db_bind; [keeps_db_leaf | intros _; apply IH].
Qed.

Lemma newIDsFor_keeps_db ids : keeps_db (newIDsFor E ids).
Proof.
  unfold newIDsFor. apply keeps_db_foldM. intros m x. unmonad.
  apply keeps_db_bind; [keeps_db_leaf | intros n; keeps_db_leaf].
Qed.

Lemma updateCategoryIDs_keeps_db : keeps_db (updateCategoryIDs E).
Proof.
  unfold updateCategoryIDs. unmonad.
  apply keeps_db_bind; [apply getIDs_keeps_db | intros ids].
  apply keeps_db_bind; [apply newIDsFor_keeps_db | intros m].
  apply keeps_db_bind; [|intros _; keeps_db_leaf].
  apply keeps_db_forM_. intros [o n]. unfold updateCategoryID. unmonad.
  repeat (apply keeps_db_bind; [keeps_db_leaf | intros _]). keeps_db_leaf.
Qed.

Lemma updateCategoryBlocksIDs_keeps_db : keeps_db (updateCategoryBlocksIDs E).
Proof.
  unfold updateCategoryBlocksIDs. unmonad.
  apply keeps_db_bind; [apply getIDs_keeps_db | intros ids].
  apply keeps_db_bind; [apply newIDsFor_keeps_db | intros m].
  apply keeps_db_bind; [|intros _; keeps_db_leaf].
  apply keeps_db_forM_. intros [o n]. unfold updateCategoryBlocksID. unmonad.
  repeat (apply keeps_db_bind; [keeps_db_leaf | intros _]). keeps_db_leaf.
Qed.

Lemma runUniqueIDsMigration_db_safe : db_safe (runUniqueIDsMigration E).
Proof.
  unfold runUniqueIDsMigration. unmonad.
  apply db_safe_bind; [keeps_db_leaf | intros _].
  apply db_safe_bind; [keeps_db_leaf | intros setting].
  destruct (ParseBool setting).1; [apply db_safe_keeps, keeps_db_ret|].
  apply db_safe_bind; [keeps_db_leaf | intros _].
  apply db_safe_bind; [keeps_db_leaf | intros _].
  apply db_safe_bind; [keeps_db_leaf | intros bs].
  apply db_safe_bind.
  { apply keeps_db_forM_. intros [k g]. apply keeps_db_forM_. intros [i b].
    destruct (decide (i = 0)); [keeps_db_leaf|].
    apply keeps_db_bind; [keeps_db_leaf | intros newID]. keeps_db_leaf. }
  intros _.
  apply db_safe_bind; [keeps_db_leaf | intros _].
  apply db_safe_commit.
Qed.

Lemma runCategoryUuidIdMigration_db_safe : db_safe (runCategoryUuidIdMigration E).
Proof.
  unfold runCategoryUuidIdMigration. unmonad.
  apply db_safe_bind; [keeps_db_leaf | intros _].
  apply db_safe_bind; [keeps_db_leaf | intros setting].
  destruct (ParseBool setting).1; [apply db_safe_keeps, keeps_db_ret|].
  apply db_safe_bind; [keeps_db_leaf | intros _].
  apply db_safe_bind; [keeps_db_leaf | intros _].
  apply db_safe_bind; [apply updateCategoryIDs_keeps_db | intros _].
  apply db_safe_bind; [apply updateCategoryBlocksIDs_keeps_db | intros _].
  apply db_safe_bind; [keeps_db_leaf | intros _].
  apply db_safe_commit.
Qed.

(** The committed database after a run is the one before it, unless the
    run returned [Ok] or called a [Commit] that returned an error. *)
Lemma runMigration_db_safe mig : db_safe (runMigration E mig).
Proof.
  destruct mig; [apply runUniqueIDsMigration_db_safe
                | apply runCategoryUuidIdMigration_db_safe].
Qed.

(** A run that stopped at a failed call [o] other than [Commit] has
    committed nothing. *)
Lemma runMigration_Err_db mig w pre o e0 post :
  eventsOf (runMigration E mig w) = pre ++ EvOp o (Some e0) :: post →
  quiet pre → cleanupOnly post → isCleanup o = false → o ≠ OpCommit →
  db (worldOf (runMigration E mig w)) = db w.
Proof.
  intros Hev Hpre Hpost Hc Ho.
  destruct (runMigration_db_safe mig w) as [Hdb|[[a Ha]|[e He]]]; [done| |].
  - exfalso. pose proof (runMigration_traced E mig w) as Ht.
    rewrite Ha in Ht. simpl in Ht. rewrite Hev in Ht.
    unfold quiet in Ht. rewrite forallb_forall in Ht.
    specialize (Ht (EvOp o (Some e0))). simpl in Ht.
    rewrite Hc in Ht. destruct o; try done; discriminate Ht;
      apply in_or_app; right; by left.
  - exfalso. rewrite Hev in He.
    apply elem_of_app in He as [He|He].
    + unfold quiet in Hpre. rewrite forallb_forall in Hpre.
      apply list_elem_of_In, Hpre in He. done.
    + apply elem_of_cons in He as [He|He]; [by injection He as <-|].
      unfold cleanupOnly in Hpost. rewrite forallb_forall in Hpost.
      apply list_elem_of_In, Hpost in He. done.
Qed.

End KeepsDB.

(** ** Without failing calls, a run returns [Ok] *)

Section Succeeds.
Variable E : Env.
Hypothesis Hnofault : ∀ n, fault E n = None.

Lemma succeeds_ret {A} (a : A) : succeeds (ret a).
Proof. intros w. by exists a. Qed.

Lemma succeeds_bind {A C} (m : M A) (k : A → M C) :
  succeeds m → (∀ a, succeeds (k a)) → succeeds (bind m k).
Proof.
  intros Hm Hk w. unfold bind. destruct (Hm w) as [a Ha].
  destruct (m w) as [[r w1] t1]. unfold resultOf in *. simpl in *. subst r.
  destruct (Hk a w1) as [c Hc]. destruct (k a w1) as [[r w2] t2].
  unfold resultOf in *. simpl in *. eauto.
Qed.

Lemma succeeds_foldM {X S} (f : S → X → M S) s l :
  (∀ s x, succeeds (f s x)) → succeeds (foldM f s l).
Proof.
  intros Hf. revert s. induction l as [|x l IH]; intros s; simpl.
  - apply succeeds_ret.
  - apply succeeds_bind; [apply Hf | intros s'; apply IH].
Qed.

Lemma succeeds_forM_ {X} (l : list X) (body : X → M unit) :
  (∀ x, succeeds (body x)) → succeeds (forM_ l body).
Proof. intros Hb. apply succeeds_foldM. intros _ x. apply Hb. Qed.

Lemma succeeds_logDebug msg : succeeds (logDebug msg).
Proof. intros w. by exists tt. Qed.

Lemma succeeds_NewID t : succeeds (NewID E t).
Proof. intros w. unfold NewID, resultOf. simpl. eauto. Qed.

Lemma succeeds_exec o eff : succeeds (exec E o eff).
Proof. intros w. unfold exec, resultOf. rewrite Hnofault. simpl. eauto. Qed.

Lemma succeeds_query {A} o (f : World → A) : succeeds (query E o f).
Proof. intros w. unfold query, resultOf. rewrite Hnofault. simpl. eauto. Qed.

Lemma succeeds_onErr {A} (m : M A) c wrap : succeeds m → succeeds (onErr m c wrap).
Proof.
  intros Hm w. unfold onErr. destruct (Hm w) as [a Ha].
  destruct (m w) as [[r w1] t1]. unfold resultOf in *. simpl in *. subst r. eauto.
Qed.

Lemma succeeds_defer {A} c (m : M A) : succeeds m → succeeds (defer c m).
Proof.
  intros Hm w. unfold defer. destruct (Hm w) as [a Ha].
  destruct (m w) as [[r w1] t1]. destruct (c w1) as [w2 t2].
  unfold resultOf in *. simpl in *. eauto.
Qed.

Lemma succeeds_Commit : succeeds (Commit E).
Proof. intros w. unfold Commit, resultOf. rewrite Hnofault. simpl. eauto. Qed.

Lemma succeeds_rowsNext : succeeds (rowsNext E).
Proof. intros w. unfold rowsNext, resultOf. simpl. eauto. Qed.

Ltac succeeds_leaf :=
  first
    [ apply succeeds_onErr;
      first [ apply succeeds_exec | apply succeeds_query | apply succeeds_Commit ]
    | apply succeeds_exec
    | apply succeeds_logDebug
    | apply succeeds_NewID
    | apply succeeds_ret ].

Lemma getIDs_succeeds t : succeeds (getIDs E t).
Proof.
  unfold getIDs. unmonad.
  apply succeeds_bind; [succeeds_leaf | intros rows].
  apply succeeds_defer. generalize (@nil string) as acc.
  induction rows as [|x rows IH]; intros acc; simpl; unmonad; [succeeds_leaf|].
  apply succeeds_bind; [apply succeeds_rowsNext | intros [|]; [|succeeds_leaf]].
  apply succeeds_bind; [succeeds_leaf | intros _; apply IH].
Qed.

Lemma newIDsFor_succeeds ids : succeeds (newIDsFor E ids).
Proof.
  unfold newIDsFor. apply succeeds_foldM. intros m x. unmonad.
  apply succeeds_bind; [succeeds_leaf | intros n; succeeds_leaf].
Qed.

Lemma runMigration_succeeds mig : succeeds (runMigration E mig).
Proof.
  destruct mig; simpl.
  - unfold runUniqueIDsMigration. unmonad.
    apply succeeds_bind; [succeeds_leaf | intros _].
    apply succeeds_bind; [succeeds_leaf | intros setting].
    destruct (ParseBool setting).1; [succeeds_leaf|].
    apply succeeds_bind; [succeeds_leaf | intros _].
    apply succeeds_bind; [succeeds_leaf | intros _].
    apply succeeds_bind; [succeeds_leaf | intros bs].
    apply succeeds_bind.
    { apply succeeds_forM_. intros [k g]. apply succeeds_forM_. intros [i b].
      destruct (decide (i = 0)); [succeeds_leaf|].
      apply succeeds_bind; [succeeds_leaf | intros newID]. succeeds_leaf. }
    intros _.
    repeat (apply succeeds_bind; [succeeds_leaf | intros _]). succeeds_leaf.
  - unfold runCategoryUuidIdMigration. unmonad.
    apply succeeds_bind; [succeeds_leaf | intros _].
    apply succeeds_bind; [succeeds_leaf | intros setting].
    destruct (ParseBool setting).1; [succeeds_leaf|].
    apply succeeds_bind; [succeeds_leaf | intros _].
    apply succeeds_bind; [succeeds_leaf | intros _].
    apply succeeds_bind.
    { unfold updateCategoryIDs. unmonad.
      apply succeeds_bind; [apply getIDs_succeeds | intros ids].
      apply succeeds_bind; [apply newIDsFor_succeeds | intros m].
      apply succeeds_bind; [|intros _; succeeds_leaf].
      apply succeeds_forM_. intros [o n]. unfold updateCategoryID. unmonad.
      repeat (apply succeeds_bind; [succeeds_leaf | intros _]). succeeds_leaf. }
    intros _.
    apply succeeds_bind.
    { unfold updateCategoryBlocksIDs. unmonad.
      apply succeeds_bind; [apply getIDs_succeeds | intros ids].
      apply succeeds_bind; [apply newIDsFor_succeeds | intros m].
      apply succeeds_bind; [|intros _; succeeds_leaf].
      apply succeeds_forM_. intros [o n]. unfold updateCategoryBlocksID. unmonad.
      repeat (apply succeeds_bind; [succeeds_leaf | intros _]). succeeds_leaf. }
    intros _.
    repeat (apply succeeds_bind; [succeeds_leaf | intros _]). succeeds_leaf.
Qed.

End Succeeds.

(** ** With new identifiers, renaming one by one is renaming by the map *)

Section CategoryFresh.
Variable E : Env.
Hypothesis Hperm : rangeOrder_perm E.

Lemma newIDsMap_lookup_ge c ids o n :
  newIDsMap E c ids !! o = Some n →
  ∃ k, c ≤ k < c + length ids ∧ n = utils_NewID E k IDTypeNone ∧ o ∈ ids.
Proof.
  intros (i & Hi & _ & ->)%newIDsMap_lookup_Some. exists (c + i).
  split_and!; [lia | | done |].
  - apply lookup_lt_Some in Hi. lia.
  - by eapply list_elem_of_lookup_2.
Qed.

Lemma newIDsMap_lookup_None c ids x : x ∉ ids → newIDsMap E c ids !! x = None.
Proof.
  intros Hx. apply eq_None_not_Some. by rewrite <- newIDsMap_lookup_is_Some.
Qed.

Lemma renameIn_rangeMap c c0 ids x :
  c0 ≤ c → gen_avoids E c0 ids →
  renameIn (rangeMap E (newIDsMap E c ids)) x = renameBy (newIDsMap E c ids) x.
Proof.
  intros Hc Havoid. unfold renameBy. apply renameIn_lookup.
  - by apply rangeMap_NoDup.
  - intros o n. by apply elem_of_rangeMap.
  - intros o n (k & Hk & -> & _)%newIDsMap_lookup_ge.
    apply newIDsMap_lookup_None. apply Havoid. lia.
Qed.

Variables (w w' : World) (t : list Event).
Hypothesis Hflag : hasAlreadyRun CategoryUuidId (db w) = false.
Hypothesis Hrun : runCategoryUuidIdMigration E w = (Ok tt, w', t).

Lemma gen_avoids_listedCategories :
  gen_avoids E (idc w) (cat_id <$> categories (db w)) →
  gen_avoids E (idc w) (listedCategories E w).
Proof. intros H i u Hi Hin. apply (H i u Hi). by eapply delivered_subseteq. Qed.

Lemma gen_avoids_listedCategoryBlocks :
  gen_avoids E (idc w) (cb_id <$> category_blocks (db w)) →
  gen_avoids E (idc w) (listedCategoryBlocks E w).
Proof. intros H i u Hi Hin. apply (H i u Hi). by eapply delivered_subseteq. Qed.

(** The categories and the foreign keys after the run, when no generated
    identifier is an identifier of a category. *)
Lemma category_final_categories :
  gen_avoids E (idc w) (cat_id <$> categories (db w)) →
  categories (db w') =
    (λ c, set_cat_id (renameBy (categoryIDsMap E w) (cat_id c)) c)
      <$> categories (db w) ∧
  cb_category_id <$> category_blocks (db w') =
    (λ r, renameBy (categoryIDsMap E w) (cb_category_id r))
      <$> category_blocks (db w).
Proof.
  intros Havoid%gen_avoids_listedCategories.
  destruct (runCategoryUuidIdMigration_Ok E w w' t Hflag Hrun) as (-> & _). simpl.
  split.
  - apply list_fmap_ext. intros _ c _. f_equal. unfold categoryIDsMap.
    by apply (renameIn_rangeMap _ (idc w)).
  - rewrite <- list_fmap_compose. apply list_fmap_ext. intros _ r _. simpl.
    unfold categoryIDsMap. by apply (renameIn_rangeMap _ (idc w)).
Qed.

(** The rows of [category_blocks] after the run, when moreover no
    generated identifier is an identifier of a row of [category_blocks]. *)
Lemma category_final_category_blocks :
  gen_avoids E (idc w) (cat_id <$> categories (db w)) →
  gen_avoids E (idc w) (cb_id <$> category_blocks (db w)) →
  category_blocks (db w') =
    (λ r, set_cb_id (renameBy (categoryBlocksIDsMap E w) (cb_id r))
            (set_cb_category_id
               (renameBy (categoryIDsMap E w) (cb_category_id r)) r))
      <$> category_blocks (db w).
Proof.
  intros Havoid1%gen_avoids_listedCategories Havoid2%gen_avoids_listedCategoryBlocks.
  destruct (runCategoryUuidIdMigration_Ok E w w' t Hflag Hrun) as (-> & _). simpl.
  apply list_fmap_ext. intros _ r _.
  unfold categoryBlocksIDsMap, categoryIDsMap.
  by rewrite !(renameIn_rangeMap _ (idc w)) by (done || lia).
Qed.

End CategoryFresh.

(** ** The completion flag *)

Section Flag.
Variable E : Env.

Lemma ParseBool_malformed s : (ParseBool s).2 ≠ None → (ParseBool s).1 = false.
Proof. unfold ParseBool. by repeat case_bool_decide. Qed.

Lemma hasAlreadyRun_absent mig d :
  system_settings d !! migrationKey mig = None → hasAlreadyRun mig d = false.
Proof. unfold hasAlreadyRun, settingValue. by intros ->. Qed.

Lemma hasAlreadyRun_malformed mig d s :
  system_settings d !! migrationKey mig = Some s → (ParseBool s).2 ≠ None →
  hasAlreadyRun mig d = false.
Proof.
  unfold hasAlreadyRun, settingValue. intros -> Hs. simpl. by apply ParseBool_malformed.
Qed.

(** With the flag read as true, the run stops after the gate and the
    flag read. *)
Lemma runMigration_completed mig w :
  fault E (clock w) = None → fault E (S (clock w)) = None →
  hasAlreadyRun mig (db w) = true →
  runMigration E mig w = (Ok tt, tick (tick w), gateAndFlagRead E mig).
Proof.
  intros H0 H1 Hflag. unfold hasAlreadyRun in Hflag.
  destruct mig; simpl in *;
    [unfold runUniqueIDsMigration | unfold runCategoryUuidIdMigration];
    unmonad;
    unfold bind at 1, ensureMigrationsAppliedUpToVersion, exec at 1; rewrite H0;
    unfold bind at 1, onErr at 1, GetSystemSetting, query; simpl; rewrite H1;
    simpl; rewrite Hflag; reflexivity.
Qed.

(** With the flag read as false, the run logs its start and begins a
    transaction. *)
Lemma runMigration_proceeds mig w :
  fault E (clock w) = None → fault E (S (clock w)) = None →
  hasAlreadyRun mig (db w) = false →
  ∃ r rest,
    eventsOf (runMigration E mig w) =
    gateAndFlagRead E mig ++
      EvLog LDebug (startMessage mig) [] :: EvOp OpBeginTx r :: rest.
Proof.
  intros H0 H1 Hflag. unfold hasAlreadyRun in Hflag.
  destruct mig; simpl in *;
    [unfold runUniqueIDsMigration | unfold runCategoryUuidIdMigration];
    unmonad;
    unfold bind at 1, ensureMigrationsAppliedUpToVersion, exec at 1; rewrite H0;
    unfold bind at 1, onErr at 1, GetSystemSetting, query; simpl; rewrite H1;
    simpl; rewrite Hflag;
    unfold bind at 1, logDebug at 1; unfold bind at 1, BeginTx, exec at 1; simpl;
    (destruct (fault E (S (S (clock w)))) as [e|];
     [ by exists (Some e), []
     | match goal with
       | |- context [ bind ?m ?k ?w0 ] =>
           destruct (bind m k w0) as [[r w2] t2]; by exists None, t2
       end ]).
Qed.

(** A successful run leaves the flag set. *)
Lemma runMigration_Ok_flag mig w w' t :
  runMigration E mig w = (Ok tt, w', t) → hasAlreadyRun mig (db w') = true.
Proof.
  intros Hrun. destruct (hasAlreadyRun mig (db w)) eqn:Hflag.
  - assert (fault E (clock w) = None ∧ fault E (S (clock w)) = None) as [H0 H1].
    { destruct mig; simpl in Hrun;
        [unfold runUniqueIDsMigration in Hrun | unfold runCategoryUuidIdMigration in Hrun];
        unmonad;
        unfold ensureMigrationsAppliedUpToVersion, GetSystemSetting in Hrun;
        apply bind_Ok in Hrun as (? & ? & ? & ? & Hg & Hrun & _);
        apply exec_Ok in Hg as (? & -> & _);
        apply bind_Ok in Hrun as (? & ? & ? & ? & Hq & _ & _);
        apply onErr_Ok, query_Ok in Hq as (? & _); done. }
    rewrite (runMigration_completed mig w H0 H1 Hflag) in Hrun.
    injection Hrun as <- _. exact Hflag.
  - destruct mig; simpl in Hrun.
    + apply runUniqueIDsMigration_Ok in Hrun as (-> & _); [|done].
      unfold hasAlreadyRun, settingValue. simpl. by rewrite lookup_insert_eq.
    + apply runCategoryUuidIdMigration_Ok in Hrun as (-> & _); [|done].
      unfold hasAlreadyRun, settingValue. simpl. by rewrite lookup_insert_eq.
Qed.

End Flag.

(** ** The generator of the examples *)

Lemma genID_distinct f order c : gen_distinct (Examples.env f order) c.
Proof.
  intros i j u u' _ _ H. simpl in H. unfold Examples.genID in H.
  injection H as _ H. by apply (inj pretty).
Qed.

Lemma genID_shape n u : ∃ c r, Examples.genID n u = String c (String "-" r).
Proof. unfold Examples.genID. simpl. eauto. Qed.

Ltac genID_avoids :=
  let i := fresh "i" in let u := fresh "u" in let Hin := fresh "Hin" in
  let c := fresh "c" in let r := fresh "r" in let Heq := fresh "Heq" in
  intros i u _ Hin;
  destruct (genID_shape i u) as (c & r & Heq);
  match type of Hin with ?x ∈ _ => change x with (Examples.genID i u) in Hin end;
  rewrite Heq in Hin; vm_compute in Hin;
  repeat (apply elem_of_cons in Hin as [Hin|Hin]; [discriminate Hin|]);
  by apply elem_of_nil in Hin.

(** ** Which failures are rolled back *)

(** A run that returns an error stopped at one failed step [o]; unless
    [o] is the commit, after whose failure the state of the store is not
    known, it has committed nothing; and [Rollback] was called in it if
    and only if [rollsBack mig o]: in the unique-IDs migration after a
    failure of the duplicate scan, of a replacement or of the flag write,
    in the category migration after a failure of the flag write only. *)
Lemma failing_run_rollback (E : Env) (mig : Migration) (w : World) (e : error) :
  resultOf (runMigration E mig w) = Err e →
  ∃ pre o e0 post,
    eventsOf (runMigration E mig w) = pre ++ EvOp o (Some e0) :: post ∧
    quiet pre ∧ cleanupOnly post ∧
    isCleanup o = false ∧ e = returnedError mig o e0 ∧
    callsRollback (eventsOf (runMigration E mig w)) = rollsBack mig o ∧
    (o ≠ OpCommit → db (worldOf (runMigration E mig w)) = db w).
Proof.
  intros Hr.
  pose proof (runMigration_traced E mig w) as H. rewrite Hr in H.
  destruct H as (pre & o & e0 & post & Hev & Hpre & Ho & -> & Hpost & Hrb).
  exists pre, o, e0, post. split_and!; try done.
  - rewrite Hev. pose proof (quiet_no_rollback pre Hpre) as Hq.
    unfold callsRollback in *. rewrite existsb_app. simpl.
    rewrite Hq, Hrb. by destruct o.
  - intros Hne. by eapply runMigration_Err_db.
Qed.

(** * Part IV: the properties of the specification *)

(** C1. In the category migration, a failure of the identifier listing
    inside the open transaction is returned without any call to
    [Rollback]: with one category, one member and the first [SELECT id]
    failing, the run returns the error, the only events after [BeginTx] are
    the failed query and its log entry, and the transaction is still open.
    (The unique-IDs migration calls [Rollback] after each failure inside its
    transaction but that of the commit, see [failing_run_rollback].) *)
Theorem category_listing_failure_leaves_transaction_open :
  runCategoryUuidIdMigration
    (Examples.env (Examples.failAt 3 (ErrBase "query failed")) id)
    (Examples.start Examples.dbB) =
  (Err (ErrBase "query failed"),
   mkWorld Examples.dbB Examples.dbB TxOpen 4 0,
   [EvOp (OpEnsureMigrations 16) None;
    EvOp (OpGetSystemSetting "CategoryUuidIdMigrationComplete") None;
    EvLog LDebug "Running category UUID ID migration" [];
    EvOp OpBeginTx None;
    EvOp (OpSelectIDs tbl_categories) (Some (ErrBase "query failed"));
    EvLog LError "getIDs error"
      [FString "table" "categories"; FErr (ErrBase "query failed")]]).
Proof. vm_compute. reflexivity. Qed.

(** C2. A run that reads its completion flag as true (the gate and the flag
    read having succeeded) returns [Ok] with the world untouched but for
    the two calls counted: no transaction is begun, the only events are the
    gate and the flag read, nothing is queried in or written to the tables.
    A world left by a successful run is such a world, so a second run
    changes nothing. *)
Theorem completed_migration_is_noop (E : Env) (mig : Migration) (w : World) :
  fault E (clock w) = None → fault E (S (clock w)) = None →
  (hasAlreadyRun mig (db w) = true →
   runMigration E mig w = (Ok tt, tick (tick w), gateAndFlagRead E mig) ∧
   db (worldOf (runMigration E mig w)) = db w ∧
   tx (worldOf (runMigration E mig w)) = tx w ∧
   txState (worldOf (runMigration E mig w)) = txState w) ∧
  (∀ E0 w0 t0,
     runMigration E0 mig w0 = (Ok tt, w, t0) →
     runMigration E mig w = (Ok tt, tick (tick w), gateAndFlagRead E mig) ∧
     db (worldOf (runMigration E mig w)) = db w).
Proof.
  intros H0 H1. split.
  - intros Hflag. rewrite (runMigration_completed E mig w H0 H1 Hflag). done.
  - intros E0 w0 t0 Hrun. apply runMigration_Ok_flag in Hrun.
    rewrite (runMigration_completed E mig w H0 H1 Hrun). done.
Qed.

Lemma completed_migration_is_noop_witness :
  let E := Examples.env Examples.noFault id in
  let w := worldOf (runUniqueIDsMigration E (Examples.start Examples.dbA)) in
  runMigration E UniqueIDs w = (Ok tt, tick (tick w), gateAndFlagRead E UniqueIDs) ∧
  db (worldOf (runMigration E UniqueIDs w)) = db w.
Proof.
  intros E w.
  refine (proj2 (completed_migration_is_noop E UniqueIDs w _ _) E
            (Examples.start Examples.dbA)
            (eventsOf (runUniqueIDsMigration E (Examples.start Examples.dbA))) _).
  - reflexivity.
  - reflexivity.
  - vm_compute. reflexivity.
Defined.



(** C5.  Every category identifier is to be replaced.  [getIDs] returns
    the error of its query and the error of a scan, but after its loop it
    does not ask [rows.Err] whether the iteration ended on an error: the
    identifiers read so far are returned as if they were all.  With two
    categories and the iteration of the first listing ending on an error
    after the first row, the run returns [Ok], the category ["c2"] and the
    reference to it keep the old identifier, and the run is committed with
    the completion flag set, so that no later run replaces it. *)
Theorem category_listing_cut_short_is_committed :
  let E := Examples.envWith Examples.noFault
             (Examples.failAt 5 (ErrBase "connection lost")) (λ _, false) id in
  let run := runCategoryUuidIdMigration E (Examples.start Examples.dbD) in
  listedCategories E (Examples.start Examples.dbD) = ["c1"] ∧
  resultOf run = Ok tt ∧
  categories (db (worldOf run)) =
    [mkCategory "7-0" "inbox"; mkCategory "c2" "later"] ∧
  category_blocks (db (worldOf run)) =
    [mkCategoryBlock "7-1" "7-0" "blk1"; mkCategoryBlock "7-2" "c2" "blk2"] ∧
  txState (worldOf run) = TxCommitted ∧
  hasAlreadyRun CategoryUuidId (db (worldOf run)) = true ∧
  eventsOf run =
    [EvOp (OpEnsureMigrations 16) None;
     EvOp (OpGetSystemSetting "CategoryUuidIdMigrationComplete") None;
     EvLog LDebug "Running category UUID ID migration" [];
     EvOp OpBeginTx None; EvOp (OpSelectIDs tbl_categories) None;
     EvOp (OpScan tbl_categories) None; EvOp OpCloseRows None;
     EvOp (OpUpdateCategoriesID "7-0" "c1") None;
     EvOp OpRowsClose None;
     EvOp (OpUpdateCategoryBlocksCategoryID "7-0" "c1") None;
     EvOp OpRowsClose None; EvOp (OpSelectIDs tbl_category_blocks) None;
     EvOp (OpScan tbl_category_blocks) None;
     EvOp (OpScan tbl_category_blocks) None; EvOp OpCloseRows None;
     EvOp (OpUpdateCategoryBlocksID "7-1" "d1") None;
     EvOp (OpUpdateCategoryBlocksID "7-2" "d2") None;
     EvOp (OpSetSystemSetting "CategoryUuidIdMigrationComplete" "true") None;
     EvOp OpCommit None;
     EvLog LDebug "category IDs migration finished successfully" []].
Proof. vm_compute. repeat split; reflexivity. Qed.

(** C6.  In a successful run of the category migration with a generator
    whose values are new and distinct there are two maps.  [categoryIDs] of
    [updateCategoryIDs] is keyed on the identifiers its listing of
    [categories] has read and rewrites [categories.id] and
    [category_blocks.category_id]; [categoryIDs] of
    [updateCategoryBlocksIDs] is keyed on the identifiers its listing of
    [category_blocks] has read and rewrites [category_blocks.id] only.
    The identifiers read are identifiers of the table listed.  No
    identifier generated for one map is in the other. *)
Theorem category_mappings_are_independent (E : Env) (w w' : World) (t : list Event) :
  rangeOrder_perm E →
  gen_distinct E (idc w) →
  gen_avoids E (idc w) (cat_id <$> categories (db w)) →
  gen_avoids E (idc w) (cb_id <$> category_blocks (db w)) →
  hasAlreadyRun CategoryUuidId (db w) = false →
  runCategoryUuidIdMigration E w = (Ok tt, w', t) →
  let m1 := categoryIDsMap E w in
  let m2 := categoryBlocksIDsMap E w in
  (∀ x, is_Some (m1 !! x) ↔ x ∈ listedCategories E w) ∧
  (∀ y, is_Some (m2 !! y) ↔ y ∈ listedCategoryBlocks E w) ∧
  (∀ x, x ∈ listedCategories E w → x ∈ cat_id <$> categories (db w)) ∧
  (∀ y, y ∈ listedCategoryBlocks E w → y ∈ cb_id <$> category_blocks (db w)) ∧
  categories (db w') =
    (λ c, set_cat_id (renameBy m1 (cat_id c)) c) <$> categories (db w) ∧
  category_blocks (db w') =
    (λ r, set_cb_id (renameBy m2 (cb_id r))
            (set_cb_category_id (renameBy m1 (cb_category_id r)) r))
      <$> category_blocks (db w) ∧
  (∀ x y n1 n2, m1 !! x = Some n1 → m2 !! y = Some n2 → n1 ≠ n2).
Proof.
  intros Hperm Hdist Havoid1 Havoid2 Hflag Hrun m1 m2.
  split_and!.
  - intros x. symmetry. apply newIDsMap_lookup_is_Some.
  - intros y. symmetry. apply newIDsMap_lookup_is_Some.
  - intros x. apply delivered_subseteq.
  - intros y. apply delivered_subseteq.
  - by apply (category_final_categories E Hperm w w' t Hflag Hrun).
  - by apply (category_final_category_blocks E Hperm w w' t Hflag Hrun).
  - intros x y n1 n2 (k1 & Hk1 & -> & _)%newIDsMap_lookup_ge
                     (k2 & Hk2 & -> & _)%newIDsMap_lookup_ge Heq.
    apply Hdist in Heq; lia.
Qed.

Lemma category_mappings_are_independent_witness :
  let E := Examples.env Examples.noFault reverse in
  let w := Examples.start Examples.dbC in
  let w' := worldOf (runCategoryUuidIdMigration E w) in
  let m1 := categoryIDsMap E w in
  let m2 := categoryBlocksIDsMap E w in
  (∀ x, is_Some (m1 !! x) ↔ x ∈ listedCategories E w) ∧
  (∀ y, is_Some (m2 !! y) ↔ y ∈ listedCategoryBlocks E w) ∧
  (∀ x, x ∈ listedCategories E w → x ∈ cat_id <$> categories (db w)) ∧
  (∀ y, y ∈ listedCategoryBlocks E w → y ∈ cb_id <$> category_blocks (db w)) ∧
  categories (db w') =
    (λ c, set_cat_id (renameBy m1 (cat_id c)) c) <$> categories (db w) ∧
  category_blocks (db w') =
    (λ r, set_cb_id (renameBy m2 (cb_id r))
            (set_cb_category_id (renameBy m1 (cb_category_id r)) r))
      <$> category_blocks (db w) ∧
  (∀ x y n1 n2, m1 !! x = Some n1 → m2 !! y = Some n2 → n1 ≠ n2).
Proof.
  intros E w w'.
  refine (category_mappings_are_independent E w w'
            (eventsOf (runCategoryUuidIdMigration E w)) _ _ _ _ _ _).
  - intros l. apply reverse_Permutation.
  - apply genID_distinct.
  - genID_avoids.
  - genID_avoids.
  - reflexivity.
  - vm_compute. reflexivity.
Defined.





(** C9.  In a successful run of the category migration each map is keyed
    on the identifier value: for an identifier read more than once the
    entry written last (the identifier generated at its last position in
    the listing) stays, and the update loop issues its statements once for
    each distinct identifier read: the calls of the run are the listing of
    [categories], the two updates of each entry of the first map, the
    listing of [category_blocks], the update of each entry of the second
    map, the flag write and the commit.  These statements give a row of
    [categories] an identifier that depends on its old identifier only,
    and likewise a row of [category_blocks] for its own [id]: rows that
    share an identifier before the run share one after it.  With a
    generator that returns no identifier of the tables, the new identifier
    of a row whose identifier was read is the entry of its old identifier
    in the map. *)
Theorem shared_identifier_gets_one_new_identifier
    (E : Env) (w w' : World) (t : list Event) :
  rangeOrder_perm E →
  hasAlreadyRun CategoryUuidId (db w) = false →
  runCategoryUuidIdMigration E w = (Ok tt, w', t) →
  let ids1 := listedCategories E w in
  let ids2 := listedCategoryBlocks E w in
  let m1 := categoryIDsMap E w in
  let m2 := categoryBlocksIDsMap E w in
  let ps1 := rangeMap E m1 in
  let ps2 := rangeMap E m2 in
  (∃ r1 r2,
     t = gateAndFlagRead E CategoryUuidId ++
         [EvLog LDebug "Running category UUID ID migration" []; EvOp OpBeginTx None] ++
         listingEvents tbl_categories (length ids1) r1 ++
         (ps1 ≫= updateCategoryIDEvents) ++
         listingEvents tbl_category_blocks (length ids2) r2 ++
         (ps2 ≫= updateCategoryBlocksIDEvents) ++
         [EvOp (OpSetSystemSetting CategoryUUIDIDMigrationKey "true") None;
          EvOp OpCommit None;
          EvLog LDebug "category IDs migration finished successfully" []]) ∧
  (NoDup ps1.*1 ∧ (∀ x, x ∈ ps1.*1 ↔ x ∈ ids1) ∧ ∀ o n, (o, n) ∈ ps1 ↔ m1 !! o = Some n) ∧
  (NoDup ps2.*1 ∧ (∀ x, x ∈ ps2.*1 ↔ x ∈ ids2) ∧ ∀ o n, (o, n) ∈ ps2 ↔ m2 !! o = Some n) ∧
  (∀ i X, ids1 !! i = Some X → (∀ j, i < j → ids1 !! j ≠ Some X) →
          m1 !! X = Some (utils_NewID E (idc w + i) IDTypeNone)) ∧
  (∀ i X, ids2 !! i = Some X → (∀ j, i < j → ids2 !! j ≠ Some X) →
          m2 !! X = Some (utils_NewID E (idc w + length ids1 + i) IDTypeNone)) ∧
  (∀ i c c', categories (db w) !! i = Some c → categories (db w') !! i = Some c' →
             cat_id c' = renameIn ps1 (cat_id c)) ∧
  (∀ i r r', category_blocks (db w) !! i = Some r →
             category_blocks (db w') !! i = Some r' →
             cb_id r' = renameIn ps2 (cb_id r)) ∧
  (∀ i j c1 c2 c1' c2',
     categories (db w) !! i = Some c1 → categories (db w) !! j = Some c2 →
     categories (db w') !! i = Some c1' → categories (db w') !! j = Some c2' →
     cat_id c1 = cat_id c2 → cat_id c1' = cat_id c2') ∧
  (∀ i j r1 r2 r1' r2',
     category_blocks (db w) !! i = Some r1 → category_blocks (db w) !! j = Some r2 →
     category_blocks (db w') !! i = Some r1' → category_blocks (db w') !! j = Some r2' →
     cb_id r1 = cb_id r2 → cb_id r1' = cb_id r2') ∧
  (gen_avoids E (idc w) (cat_id <$> categories (db w)) →
   ∀ i c c', categories (db w) !! i = Some c → categories (db w') !! i = Some c' →
             cat_id c ∈ ids1 → m1 !! cat_id c = Some (cat_id c')) ∧
  (gen_avoids E (idc w) (cat_id <$> categories (db w)) →
   gen_avoids E (idc w) (cb_id <$> category_blocks (db w)) →
   ∀ i r r', category_blocks (db w) !! i = Some r →
             category_blocks (db w') !! i = Some r' →
             cb_id r ∈ ids2 → m2 !! cb_id r = Some (cb_id r')).
Proof.
  intros Hperm Hflag Hrun ids1 ids2 m1 m2 ps1 ps2. subst ps1 ps2.
  destruct (runCategoryUuidIdMigration_Ok E w w' t Hflag Hrun) as (Hdb & _).
  assert (∀ (m : gmap string string) x,
            x ∈ (rangeMap E m).*1 ↔ is_Some (m !! x)) as Hkeys.
  { intros m x. rewrite list_elem_of_fmap. split.
    - intros ([k v] & -> & Hkv). apply (elem_of_rangeMap E Hperm) in Hkv. eauto.
    - intros [v Hv]. exists (x, v). split; [done|]. by apply (elem_of_rangeMap E Hperm). }
  assert (∀ i c c', categories (db w) !! i = Some c → categories (db w') !! i = Some c' →
                    cat_id c' = renameIn (rangeMap E m1) (cat_id c)) as Hcat.
  { intros i c c' Hc Hc'. rewrite Hdb in Hc'. simpl in Hc'.
    rewrite list_lookup_fmap, Hc in Hc'. simpl in Hc'. by injection Hc' as <-. }
  assert (∀ i r r', category_blocks (db w) !! i = Some r →
                    category_blocks (db w') !! i = Some r' →
                    cb_id r' = renameIn (rangeMap E m2) (cb_id r)) as Hcb.
  { intros i r r' Hr Hr'. rewrite Hdb in Hr'. simpl in Hr'.
    rewrite list_lookup_fmap, Hr in Hr'. simpl in Hr'. by injection Hr' as <-. }
  split_and!.
  - by apply (runCategoryUuidIdMigration_Ok_events E w w').
  - by apply rangeMap_NoDup.
  - intros x. rewrite Hkeys. symmetry. apply newIDsMap_lookup_is_Some.
  - intros o n. by apply elem_of_rangeMap.
  - by apply rangeMap_NoDup.
  - intros x. rewrite Hkeys. symmetry. apply newIDsMap_lookup_is_Some.
  - intros o n. by apply elem_of_rangeMap.
  - intros i X Hi Hlast. by apply newIDsMap_lookup_last.
  - intros i X Hi Hlast. by apply newIDsMap_lookup_last.
  - exact Hcat.
  - exact Hcb.
  - intros i j c1 c2 c1' c2' H1 H2 H1' H2' Heq.
    by rewrite (Hcat _ _ _ H1 H1'), (Hcat _ _ _ H2 H2'), Heq.
  - intros i j r1 r2 r1' r2' H1 H2 H1' H2' Heq.
    by rewrite (Hcb _ _ _ H1 H1'), (Hcb _ _ _ H2 H2'), Heq.
  - intros Havoid i c c' Hc Hc' Hin.
    destruct (category_final_categories E Hperm w w' t Hflag Hrun Havoid) as [Hcats _].
    rewrite Hcats, list_lookup_fmap, Hc in Hc'. simpl in Hc'. injection Hc' as <-.
    simpl. unfold renameBy.
    apply (newIDsMap_lookup_is_Some E (idc w)) in Hin as [n Hn].
    unfold m1, categoryIDsMap. fold ids1. by rewrite Hn.
  - intros Havoid1 Havoid2 i r r' Hr Hr' Hin.
    pose proof (category_final_category_blocks E Hperm w w' t Hflag Hrun Havoid1 Havoid2)
      as Hcbs.
    rewrite Hcbs, list_lookup_fmap, Hr in Hr'. simpl in Hr'. injection Hr' as <-.
    simpl. unfold renameBy.
    apply (newIDsMap_lookup_is_Some E (idc w + length (listedCategories E w))) in Hin
      as [n Hn].
    unfold m2, categoryBlocksIDsMap. fold ids2. by rewrite Hn.
Qed.

Lemma shared_identifier_gets_one_new_identifier_witness :
  let E := Examples.env Examples.noFault reverse in
  let w := Examples.start Examples.dbC in
  let w' := worldOf (runCategoryUuidIdMigration E w) in
  categories (db w) !! 0 = Some (mkCategory "c1" "inbox") ∧
  categories (db w) !! 2 = Some (mkCategory "c1" "copy") ∧
  categories (db w') !! 0 = Some (mkCategory "7-2" "inbox") ∧
  categories (db w') !! 2 = Some (mkCategory "7-2" "copy") ∧
  categoryIDsMap E w !! "c1" = Some "7-2" ∧
  cat_id (mkCategory "7-2" "inbox") = cat_id (mkCategory "7-2" "copy").
Proof.
  intros E w w'.
  assert (categories (db w') !! 0 = Some (mkCategory "7-2" "inbox")) as H0
    by (vm_compute; reflexivity).
  assert (categories (db w') !! 2 = Some (mkCategory "7-2" "copy")) as H2
    by (vm_compute; reflexivity).
  assert (rangeOrder_perm E) as Hperm by (intros l; apply reverse_Permutation).
  assert (runCategoryUuidIdMigration E w =
          (Ok tt, w', eventsOf (runCategoryUuidIdMigration E w))) as Hrun
    by (vm_compute; reflexivity).
  pose proof (shared_identifier_gets_one_new_identifier E w w'
                (eventsOf (runCategoryUuidIdMigration E w)) Hperm eq_refl Hrun)
    as (_ & _ & _ & _ & _ & _ & _ & Hshare & _ & Hentry & _).
  split_and!; [reflexivity | reflexivity | exact H0 | exact H2 | |].
  - refine (Hentry _ 0 (mkCategory "c1" "inbox") (mkCategory "7-2" "inbox") _ H0 _).
    + genID_avoids.
    + reflexivity.
    + vm_compute. apply list_elem_of_here.
  - exact (Hshare 0 2 (mkCategory "c1" "inbox") (mkCategory "c1" "copy") _ _
             eq_refl eq_refl H0 H2 eq_refl).
Defined.

(** C10. The commit is not the only failing step of the category migration
    without a rollback: when the update of [category_blocks.category_id]
    fails after the category row has been renamed in the transaction, the
    run returns the error with no call to [Rollback], the half-applied
    working copy stays in the open transaction. *)
Theorem category_update_failure_is_not_rolled_back :
  let '(r, w', evs) :=
    runCategoryUuidIdMigration
      (Examples.env (Examples.failAt 8 (ErrBase "update failed")) id)
      (Examples.start Examples.dbB) in
  r = Err (ErrBase "update failed") ∧
  callsRollback evs = false ∧
  txState w' = TxOpen ∧
  db w' = Examples.dbB ∧
  categories (tx w') = [mkCategory "7-0" "inbox"] ∧
  category_blocks (tx w') = [mkCategoryBlock "d1" "c1" "blk"] ∧
  evs =
    [EvOp (OpEnsureMigrations 16) None;
     EvOp (OpGetSystemSetting "CategoryUuidIdMigrationComplete") None;
     EvLog LDebug "Running category UUID ID migration" [];
     EvOp OpBeginTx None; EvOp (OpSelectIDs tbl_categories) None;
     EvOp (OpScan tbl_categories) None; EvOp OpCloseRows None;
     EvOp (OpUpdateCategoriesID "7-0" "c1") None;
     EvOp OpRowsClose None;
     EvOp (OpUpdateCategoryBlocksCategoryID "7-0" "c1") (Some (ErrBase "update failed"));
     EvLog LError "updateCategoryID update category boards error"
       [FErr (ErrBase "update failed")]].
Proof. vm_compute. repeat split; reflexivity. Qed.

(** * Part V: further properties of the code *)

(** ** [getIDs] *)

Section GetIDs.
Variable E : Env.

(** Running a program forward. *)
Lemma bind_run_Ok {A B} (m : M A) (k : A → M B) w a w1 t1 :
  m w = (Ok a, w1, t1) →
  bind m k w = let '(r, w2, t2) := k a w1 in (r, w2, t1 ++ t2).
Proof. unfold bind. by intros ->. Qed.

Lemma bind_run_Err {A B} (m : M A) (k : A → M B) w e w1 t1 :
  m w = (Err e, w1, t1) → bind m k w = (Err e, w1, t1).
Proof. unfold bind. by intros ->. Qed.

Lemma exec_run_Ok o eff w :
  fault E (clock w) = None → exec E o eff w = (Ok tt, eff (tick w), [EvOp o None]).
Proof. unfold exec. by intros ->. Qed.

Lemma exec_run_Err o eff w e :
  fault E (clock w) = Some e → exec E o eff w = (Err e, tick w, [EvOp o (Some e)]).
Proof. unfold exec. by intros ->. Qed.

Lemma query_run_Ok {A} o (f : World → A) w :
  fault E (clock w) = None → query E o f w = (Ok (f w), tick w, [EvOp o None]).
Proof. unfold query. by intros ->. Qed.

Lemma query_run_Err {A} o (f : World → A) w e :
  fault E (clock w) = Some e → query E o f w = (Err e, tick w, [EvOp o (Some e)]).
Proof. unfold query. by intros ->. Qed.

Lemma onErr_run_Ok {A} (m : M A) c wr w a w1 t1 :
  m w = (Ok a, w1, t1) → onErr m c wr w = (Ok a, w1, t1).
Proof. unfold onErr. by intros ->. Qed.

Lemma onErr_run_Err {A} (m : M A) c wr w e w1 t1 :
  m w = (Err e, w1, t1) →
  onErr m c wr w = (Err (wr e), (c e w1).1, t1 ++ (c e w1).2).
Proof. unfold onErr. intros ->. by destruct (c e w1). Qed.

Lemma rowsNext_run w :
  rowsNext E w = (Ok (if nextErr E (clock w) is None then true else false), w, []).
Proof. done. Qed.

(** The loop over the rows when no scan fails: it reads the rows before
    the first iteration error. *)
Lemma scanRows_run_Ok t rows acc w :
  (∀ i, i < length (delivered E (clock w) rows) → fault E (clock w + i) = None) →
  scanRows E t acc rows w =
  (Ok (acc ++ delivered E (clock w) rows),
   later (length (delivered E (clock w) rows)) w,
   replicate (length (delivered E (clock w) rows)) (EvOp (OpScan t) None)).
Proof.
  revert acc w. induction rows as [|x rows IH]; intros acc w Hf; simpl in *; unmonad.
  - by rewrite app_nil_r, later_0.
  - erewrite bind_run_Ok by apply rowsNext_run.
    destruct (nextErr E (clock w)) as [e|]; simpl in *.
    + by rewrite app_nil_r, later_0.
    + assert (fault E (clock w) = None) as H0
        by (rewrite <- (Nat.add_0_r (clock w)); apply Hf; lia).
      erewrite bind_run_Ok by (apply onErr_run_Ok, exec_run_Ok, H0).
      unfold id. rewrite IH.
      * simpl. by rewrite <- app_assoc, later_tick.
      * intros i Hi. simpl in *. rewrite <- Nat.add_succ_r. apply Hf. lia.
Qed.

(** The loop over the rows when the scan of row [k], a row that the
    iteration reaches, is the first call to fail. *)
Lemma scanRows_run_Err t rows acc w k e :
  k < length (delivered E (clock w) rows) →
  (∀ i, i < k → fault E (clock w + i) = None) →
  fault E (clock w + k) = Some e →
  scanRows E t acc rows w =
  (Err e, later (S k) w,
   replicate k (EvOp (OpScan t) None) ++
   [EvOp (OpScan t) (Some e);
    EvLog LError "getIDs scan row error" [FString "table" (tableName t); FErr e]]).
Proof.
  revert acc w k. induction rows as [|x rows IH]; intros acc w k Hk Hf He;
    simpl in *; unmonad; [lia|].
  erewrite bind_run_Ok by apply rowsNext_run.
  destruct (nextErr E (clock w)) as [e'|]; simpl in *; [lia|].
  destruct k as [|k].
  - rewrite Nat.add_0_r in He.
    erewrite bind_run_Err by (apply onErr_run_Err, exec_run_Err, He).
    simpl. by rewrite <- later_tick, later_0.
  - assert (fault E (clock w) = None) as H0
      by (rewrite <- (Nat.add_0_r (clock w)); apply Hf; lia).
    erewrite bind_run_Ok by (apply onErr_run_Ok, exec_run_Ok, H0).
    unfold id. rewrite (IH _ _ k).
    + simpl. by rewrite later_tick.
    + simpl. lia.
    + intros i Hi. simpl. rewrite <- Nat.add_succ_r. apply Hf. lia.
    + simpl. by rewrite <- Nat.add_succ_r.
Qed.

(** A listing whose query and scans do not fail. *)
Lemma getIDs_run_Ok t w :
  let ids := delivered E (S (clock w)) (selectIDs t (tx w)) in
  (∀ i, i ≤ length ids → fault E (clock w + i) = None) →
  getIDs E t w =
  (Ok ids, later (S (S (length ids))) w,
   listingEvents t (length ids) (fault E (clock w + S (length ids)))).
Proof.
  intros ids Hf. unfold getIDs. unmonad.
  assert (fault E (clock w) = None) as H0
    by (rewrite <- (Nat.add_0_r (clock w)); apply Hf; lia).
  erewrite bind_run_Ok by (apply onErr_run_Ok, query_run_Ok, H0).
  unfold defer. rewrite scanRows_run_Ok.
  - simpl. fold ids. rewrite later_tick, CloseRows_eq.
    replace (clock (later (S (length ids)) w)) with (clock w + S (length ids))
      by (simpl; lia).
    reflexivity.
  - intros i Hi. simpl in *. rewrite <- Nat.add_succ_r. apply Hf. fold ids in Hi. lia.
Qed.

(** ** A view of the world that no call of a program changes *)

Section Keeps.
Context {T : Type} (π : World → T).
Hypothesis Hπ : ∀ w, π (tick w) = π w.

Lemma keeps_ret {A} (a : A) : keeps π (ret a).
Proof. done. Qed.

Lemma keeps_bind {A C} (m : M A) (k : A → M C) :
  keeps π m → (∀ a, keeps π (k a)) → keeps π (bind m k).
Proof.
  intros Hm Hk w. unfold bind, worldOf. specialize (Hm w). unfold worldOf in Hm.
  destruct (m w) as [[[a|e] w1] t1]; simpl in *; [|done].
  specialize (Hk a w1). unfold worldOf in Hk.
  destruct (k a w1) as [[r w2] t2]. simpl in *. congruence.
Qed.

Lemma keeps_exec_id o : keeps π (exec E o id).
Proof. intros w. unfold exec, worldOf. destruct (fault E (clock w)); simpl; apply Hπ. Qed.

Lemma keeps_query {A} o (f : World → A) : keeps π (query E o f).
Proof. intros w. unfold query, worldOf. destruct (fault E (clock w)); simpl; apply Hπ. Qed.

Lemma keeps_rowsNext : keeps π (rowsNext E).
Proof. done. Qed.

Lemma keeps_onErr {A} (m : M A) c wrap :
  keeps π m → (∀ e w, π (c e w).1 = π w) → keeps π (onErr m c wrap).
Proof.
  intros Hm Hc w. unfold onErr, worldOf. specialize (Hm w). unfold worldOf in Hm.
  destruct (m w) as [[[a|e] w1] t1]; simpl in *; [done|].
  specialize (Hc e w1). destruct (c e w1) as [w2 t2]. simpl in *. congruence.
Qed.

Lemma keeps_defer {A} c (m : M A) :
  keeps π m → (∀ w, π (c w).1 = π w) → keeps π (defer c m).
Proof.
  intros Hm Hc w. unfold defer, worldOf. specialize (Hm w). unfold worldOf in Hm.
  destruct (m w) as [[r w1] t1]. simpl in *.
  specialize (Hc w1). destruct (c w1) as [w2 t2]. simpl in *. congruence.
Qed.

Lemma scanRows_keeps t acc rows : keeps π (scanRows E t acc rows).
Proof.
  revert acc. induction rows as [|x rows IH]; intros acc; simpl; unmonad.
  - apply keeps_ret.
  - apply keeps_bind; [apply keeps_rowsNext | intros [|]; [|apply keeps_ret]].
    apply keeps_bind; [|intros _; apply IH].
    apply keeps_onErr; [apply keeps_exec_id | done].
Qed.

Lemma getIDs_keeps t : keeps π (getIDs E t).
Proof.
  unfold getIDs. unmonad. apply keeps_bind.
  - apply keeps_onErr; [apply keeps_query | done].
  - intros rows. apply keeps_defer.
    + apply scanRows_keeps.
    + intros w. rewrite CloseRows_eq. apply Hπ.
Qed.

End Keeps.

End GetIDs.

(** X1.  [getIDs] only reads: whatever its outcome (the query fails, a scan
    fails, the rows cannot be closed, or it returns the identifiers), the
    committed database, the working copy of the transaction, the state of
    the transaction and the identifier generator are as before. *)
Theorem getIDs_only_reads (E : Env) (t : Table) (w : World) :
  storeOf (worldOf (getIDs E t w)) = storeOf w.
Proof. by apply (getIDs_keeps E storeOf). Qed.

(** X2.  When the query and the scans succeed, [getIDs] returns [Ok] with
    the identifiers its iteration has read, in listing order, after one
    query, one scan for each identifier read and the deferred closing of
    the rows, whose outcome does not change the result.  The identifiers
    read are the first rows of the table, up to the first iteration error:
    all rows (none for an empty table) when the iteration meets no error,
    and fewer, still with [Ok], when it does: [getIDs] does not consult
    [rows.Err]. *)
Theorem getIDs_returns_the_identifiers_read (E : Env) (t : Table) (w : World) :
  let ids := delivered E (S (clock w)) (selectIDs t (tx w)) in
  let n := length ids in
  (∀ i, i ≤ n → fault E (clock w + i) = None) →
  getIDs E t w =
    (Ok ids, later (S (S n)) w, listingEvents t n (fault E (clock w + S n))) ∧
  ids = take n (selectIDs t (tx w)) ∧
  ((∀ i, i < length (selectIDs t (tx w)) → nextErr E (S (clock w) + i) = None) →
   ids = selectIDs t (tx w)) ∧
  (∀ k e, k < length (selectIDs t (tx w)) →
          (∀ i, i < k → nextErr E (S (clock w) + i) = None) →
          nextErr E (S (clock w) + k) = Some e → n = k).
Proof.
  intros ids n Hf. split_and!.
  - by apply getIDs_run_Ok.
  - apply delivered_take.
  - apply delivered_all.
  - intros k e. unfold n, ids. generalize (S (clock w)). generalize (selectIDs t (tx w)).
    clear. intros rows. revert k. induction rows as [|x rows IH]; intros k c Hk Hn He;
      simpl in *; [lia|].
    destruct k as [|k].
    + rewrite Nat.add_0_r in He. by rewrite He.
    + rewrite <- (Nat.add_0_r c) at 1. rewrite (Hn 0) by lia. simpl. f_equal.
      apply IH; [lia | |].
      * intros i Hi. replace (S c + i) with (c + S i) by lia. apply Hn. lia.
      * by replace (S c + k) with (c + S k) by lia.
Qed.

Lemma getIDs_returns_the_identifiers_read_witness :
  let E := Examples.envWith (Examples.failAt 3 (ErrBase "close"))
             (Examples.failAt 3 (ErrBase "connection lost")) (λ _, false) id in
  let w := Examples.start Examples.dbC in
  selectIDs tbl_categories (tx w) = ["c1"; "c2"; "c1"] ∧
  getIDs E tbl_categories w =
    (Ok ["c1"; "c2"], later 4 w,
     [EvOp (OpSelectIDs tbl_categories) None;
      EvOp (OpScan tbl_categories) None; EvOp (OpScan tbl_categories) None;
      EvOp OpCloseRows (Some (ErrBase "close"))]).
Proof.
  intros E w. split; [reflexivity|].
  refine (proj1 (getIDs_returns_the_identifiers_read E tbl_categories w _)).
  intros i Hi. change (i ≤ 2) in Hi. simpl. unfold Examples.failAt.
  destruct (decide (i = 3)); [lia | done].
Defined.

(** X3.  The two ways [getIDs] returns an error.  If the query fails, its
    error is logged and returned as it is and nothing else is called:
    there are no rows to close.  If the scan of row [k], a row the
    iteration reaches, is the first call to fail, the rows before it have
    been scanned, the error is logged and returned as it is, no identifier
    is returned, and the deferred [CloseRows] still runs. *)
Theorem getIDs_failure_closes_the_rows_it_opened (E : Env) (t : Table) (w : World) (e : error) :
  (fault E (clock w) = Some e →
   getIDs E t w =
   (Err e, later 1 w,
    [EvOp (OpSelectIDs t) (Some e);
     EvLog LError "getIDs error" [FString "table" (tableName t); FErr e]])) ∧
  (∀ k, k < length (delivered E (S (clock w)) (selectIDs t (tx w))) →
     (∀ i, i ≤ k → fault E (clock w + i) = None) →
     fault E (clock w + S k) = Some e →
     getIDs E t w =
     (Err e, later (k + 3) w,
      EvOp (OpSelectIDs t) None :: replicate k (EvOp (OpScan t) None) ++
      [EvOp (OpScan t) (Some e);
       EvLog LError "getIDs scan row error" [FString "table" (tableName t); FErr e]] ++
      closeRowsEvents (fault E (clock w + k + 2)))).
Proof.
  split.
  - intros He. unfold getIDs. unmonad.
    erewrite bind_run_Err by (apply onErr_run_Err, query_run_Err, He). simpl.
    by rewrite <- later_tick, later_0.
  - intros k Hk Hf He. unfold getIDs. unmonad.
    assert (fault E (clock w) = None) as H0
      by (rewrite <- (Nat.add_0_r (clock w)); apply Hf; lia).
    erewrite bind_run_Ok by (apply onErr_run_Ok, query_run_Ok, H0).
    unfold defer. rewrite (scanRows_run_Err E t _ _ _ k e).
    + rewrite later_tick, CloseRows_eq.
      replace (clock (later (S (S k)) w)) with (clock w + k + 2) by (simpl; lia).
      replace (k + 3) with (S (S (S k))) by lia.
      simpl. by rewrite <- app_assoc.
    + done.
    + intros i Hi. simpl. rewrite <- Nat.add_succ_r. apply Hf. lia.
    + simpl. by rewrite <- Nat.add_succ_r.
Qed.

Lemma getIDs_failure_closes_the_rows_it_opened_witness :
  let e := ErrBase "down" in
  let E1 := Examples.env (Examples.failAt 0 e) id in
  let E2 := Examples.env (Examples.failAt 2 e) id in
  let w := Examples.start Examples.dbC in
  eventsOf (getIDs E1 tbl_categories w) =
    [EvOp (OpSelectIDs tbl_categories) (Some e);
     EvLog LError "getIDs error" [FString "table" "categories"; FErr e]] ∧
  resultOf (getIDs E2 tbl_categories w) = Err e ∧
  eventsOf (getIDs E2 tbl_categories w) =
    [EvOp (OpSelectIDs tbl_categories) None; EvOp (OpScan tbl_categories) None;
     EvOp (OpScan tbl_categories) (Some e);
     EvLog LError "getIDs scan row error" [FString "table" "categories"; FErr e];
     EvOp OpCloseRows None].
Proof.
  intros e E1 E2 w.
  destruct (getIDs_failure_closes_the_rows_it_opened E1 tbl_categories w e) as [Hq _].
  destruct (getIDs_failure_closes_the_rows_it_opened E2 tbl_categories w e) as [_ Hs].
  rewrite Hq by reflexivity.
  rewrite (Hs 1).
  - split_and!; reflexivity.
  - simpl. lia.
  - intros i Hi. simpl. unfold Examples.failAt. destruct (decide (i = 2)); [lia | done].
  - reflexivity.
Defined.

(** ** [updateCategoryID] and the two update loops *)

Section UpdateLoops.
Variable E : Env.

Lemma rangeMap_empty {V} : rangeMap E (∅ : gmap string V) = [].
Proof.
  unfold rangeMap. rewrite map_to_list_empty. simpl.
  induction (rangeOrder E []) as [|k l IH]; simpl; [done|].
  by rewrite lookup_empty.
Qed.

Lemma categoryStep_old_gone d o n :
  n ≠ o →
  (o ∉ cat_id <$> categories (categoryStep d (o, n))) ∧
  (o ∉ cb_category_id <$> category_blocks (categoryStep d (o, n))).
Proof.
  intros Hne. unfold categoryStep, sqlUpdateCategoryBlocksCategoryID, sqlUpdateCategoriesID.
  simpl. rewrite <- !list_fmap_compose.
  split; intros (x & Heq & _)%list_elem_of_fmap; simpl in Heq.
  - destruct (decide (cat_id x = o)); simpl in Heq; congruence.
  - destruct (decide (cb_category_id x = o)); simpl in Heq; congruence.
Qed.

Lemma categoryStep_absent d o n :
  o ∉ cat_id <$> categories d → o ∉ cb_category_id <$> category_blocks d →
  categoryStep d (o, n) = d.
Proof.
  intros H1 H2. unfold categoryStep, sqlUpdateCategoryBlocksCategoryID,
    sqlUpdateCategoriesID, with_category_blocks, with_categories.
  destruct d as [bs cs cbs st]. simpl in *. f_equal.
  - rewrite <- (list_fmap_id cs) at 2. apply list_fmap_ext. intros i c Hc. simpl.
    destruct (decide (cat_id c = o)) as [Heq|]; [|done].
    exfalso. apply H1, list_elem_of_fmap. exists c. split; [done|].
    by eapply list_elem_of_lookup_2.
  - rewrite <- (list_fmap_id cbs) at 2. apply list_fmap_ext. intros i r Hr. simpl.
    destruct (decide (cb_category_id r = o)) as [Heq|]; [|done].
    exfalso. apply H2, list_elem_of_fmap. exists r. split; [done|].
    by eapply list_elem_of_lookup_2.
Qed.

Lemma categoryStep_columns d on :
  blocks (categoryStep d on) = blocks d ∧
  system_settings (categoryStep d on) = system_settings d ∧
  cat_name <$> categories (categoryStep d on) = cat_name <$> categories d ∧
  cb_id <$> category_blocks (categoryStep d on) = cb_id <$> category_blocks d ∧
  cb_block_id <$> category_blocks (categoryStep d on) = cb_block_id <$> category_blocks d.
Proof.
  unfold categoryStep, sqlUpdateCategoryBlocksCategoryID, sqlUpdateCategoriesID. simpl.
  rewrite <- !list_fmap_compose.
  split_and!; try done; apply list_fmap_ext; intros _ x _; simpl.
  - by destruct (decide (cat_id x = on.1)).
  - by destruct (decide (cb_category_id x = on.1)).
  - by destruct (decide (cb_category_id x = on.1)).
Qed.

(** A member that referred to a category refers to it after the two
    statements. *)
Lemma categoryStep_reference d on i j r c :
  category_blocks d !! i = Some r → categories d !! j = Some c →
  cb_category_id r = cat_id c →
  ∃ r' c', category_blocks (categoryStep d on) !! i = Some r' ∧
           categories (categoryStep d on) !! j = Some c' ∧
           cb_category_id r' = cat_id c'.
Proof.
  intros Hr Hc Href.
  unfold categoryStep, sqlUpdateCategoryBlocksCategoryID, sqlUpdateCategoriesID. simpl.
  rewrite !list_lookup_fmap, Hr, Hc. simpl. eexists _, _. split_and!; [done..|].
  rewrite Href. by destruct (decide (cat_id c = on.1)).
Qed.

End UpdateLoops.

(** X4.  A successful [updateCategoryID] moves a category and its members
    together, in the transaction only: with a new identifier different
    from the old one, no category and no [category_id] carries the old
    identifier any more; a member that referred to a category still refers
    to it; an old identifier that occurs in neither column changes
    nothing; and the names, the other columns of [category_blocks], the
    table [blocks], the settings and the committed database are as
    before. *)
Theorem updateCategoryID_moves_category_with_members
    (E : Env) (oldID newID : string) (w w' : World) (u : unit) (t : list Event) :
  updateCategoryID E oldID newID w = (Ok u, w', t) →
  (newID ≠ oldID →
   (oldID ∉ cat_id <$> categories (tx w')) ∧
   (oldID ∉ cb_category_id <$> category_blocks (tx w'))) ∧
  (∀ i j r c,
     category_blocks (tx w) !! i = Some r → categories (tx w) !! j = Some c →
     cb_category_id r = cat_id c →
     ∃ r' c', category_blocks (tx w') !! i = Some r' ∧ categories (tx w') !! j = Some c' ∧
              cb_category_id r' = cat_id c') ∧
  (oldID ∉ cat_id <$> categories (tx w) →
   oldID ∉ cb_category_id <$> category_blocks (tx w) → tx w' = tx w) ∧
  (blocks (tx w') = blocks (tx w) ∧
   system_settings (tx w') = system_settings (tx w) ∧
   cat_name <$> categories (tx w') = cat_name <$> categories (tx w) ∧
   cb_id <$> category_blocks (tx w') = cb_id <$> category_blocks (tx w) ∧
   cb_block_id <$> category_blocks (tx w') = cb_block_id <$> category_blocks (tx w)) ∧
  db w' = db w ∧ idc w' = idc w.
Proof.
  intros (Htx & Hdb & Hidc)%updateCategoryID_Ok. rewrite Htx.
  split_and!; try done; try apply categoryStep_columns.
  - apply categoryStep_old_gone.
  - intros i j r c. apply categoryStep_reference.
  - apply categoryStep_absent.
Qed.

Lemma updateCategoryID_moves_category_with_members_witness :
  let E := Examples.env Examples.noFault id in
  let w := mkWorld Examples.dbC Examples.dbC TxOpen 0 0 in
  let w' := worldOf (updateCategoryID E "c1" "n1" w) in
  resultOf (updateCategoryID E "c1" "n1" w) = Ok tt ∧
  ("c1" ∉ cat_id <$> categories (tx w')) ∧
  ("c1" ∉ cb_category_id <$> category_blocks (tx w')) ∧
  db w' = db w.
Proof.
  intros E w w'.
  assert (updateCategoryID E "c1" "n1" w =
          (Ok tt, w', eventsOf (updateCategoryID E "c1" "n1" w))) as Hrun
    by (vm_compute; reflexivity).
  destruct (updateCategoryID_moves_category_with_members E "c1" "n1" w w' tt _ Hrun)
    as (Hgone & _ & _ & _ & Hdb & _).
  destruct Hgone as [H1 H2]; [discriminate|].
  split_and!; [reflexivity | exact H1 | exact H2 | exact Hdb].
Defined.

(** X5.  [updateCategoryID] is not atomic by itself.  When its first
    statement and the closing of its rows succeed and its second statement
    fails, the error is logged and returned as it is, with no further
    call; in the transaction the categories are already renamed and
    [category_blocks] is not: with a new identifier different from the old
    one, every member of the renamed category refers to an identifier that
    no category carries. *)
Theorem updateCategoryID_second_statement_failure
    (E : Env) (oldID newID : string) (w : World) (e : error) :
  fault E (clock w) = None → fault E (clock w + 1) = None →
  fault E (clock w + 2) = Some e →
  let run := updateCategoryID E oldID newID w in
  resultOf run = Err e ∧
  eventsOf run =
    [EvOp (OpUpdateCategoriesID newID oldID) None; EvOp OpRowsClose None;
     EvOp (OpUpdateCategoryBlocksCategoryID newID oldID) (Some e);
     EvLog LError "updateCategoryID update category boards error" [FErr e]] ∧
  categories (tx (worldOf run)) = categories (sqlUpdateCategoriesID newID oldID (tx w)) ∧
  category_blocks (tx (worldOf run)) = category_blocks (tx w) ∧
  (newID ≠ oldID →
   ∀ r, r ∈ category_blocks (tx w) → cb_category_id r = oldID →
        r ∈ category_blocks (tx (worldOf run)) ∧
        (cb_category_id r ∉ cat_id <$> categories (tx (worldOf run)))).
Proof.
  intros H0 H1 H2 run.
  assert (run = (Err e,
                 later 2 (with_tx (sqlUpdateCategoriesID newID oldID) (later 1 w)),
                 [EvOp (OpUpdateCategoriesID newID oldID) None; EvOp OpRowsClose None;
                  EvOp (OpUpdateCategoryBlocksCategoryID newID oldID) (Some e);
                  EvLog LError "updateCategoryID update category boards error" [FErr e]]))
    as Hrun.
  { subst run. unfold updateCategoryID. unmonad.
    erewrite bind_run_Ok by (apply onErr_run_Ok, exec_run_Ok, H0).
    erewrite bind_run_Ok
      by (apply onErr_run_Ok, exec_run_Ok; simpl; by rewrite <- Nat.add_1_r).
    erewrite bind_run_Err.
    2:{ apply onErr_run_Err, exec_run_Err. simpl.
        replace (S (S (clock w))) with (clock w + 2) by lia. exact H2. }
    reflexivity. }
  rewrite Hrun. unfold resultOf, worldOf, eventsOf. simpl.
  split_and!; try done.
  intros Hne r Hr Hold. split; [done|].
  intros (c' & Heq & (c & -> & _)%list_elem_of_fmap)%list_elem_of_fmap.
  destruct (decide (cat_id c = oldID)); simpl in Heq; congruence.
Qed.

Lemma updateCategoryID_second_statement_failure_witness :
  let e := ErrBase "down" in
  let E := Examples.env (Examples.failAt 2 e) id in
  let w := mkWorld Examples.dbB Examples.dbB TxOpen 0 0 in
  let run := updateCategoryID E "c1" "n1" w in
  resultOf run = Err e ∧
  categories (tx (worldOf run)) = [mkCategory "n1" "inbox"] ∧
  category_blocks (tx (worldOf run)) = [mkCategoryBlock "d1" "c1" "blk"].
Proof.
  intros e E w run.
  destruct (updateCategoryID_second_statement_failure E "c1" "n1" w e)
    as (Hr & _ & Hc & Hcb & _); [reflexivity..|].
  split_and!; [exact Hr | exact Hc | exact Hcb].
Defined.

(** X6.  On an empty table the update loops do nothing but the listing:
    [updateCategoryIDs] on a transaction without categories, and
    [updateCategoryBlocksIDs] on one without members, return [Ok] after the
    query and the closing of its rows, issue no [UPDATE], generate no
    identifier and leave the store as it is, whatever the iteration order
    of the map. *)
Theorem update_loops_on_empty_tables (E : Env) (w : World) :
  fault E (clock w) = None →
  (categories (tx w) = [] →
   updateCategoryIDs E w =
   (Ok tt, later 2 w, listingEvents tbl_categories 0 (fault E (clock w + 1)))) ∧
  (category_blocks (tx w) = [] →
   updateCategoryBlocksIDs E w =
   (Ok tt, later 2 w, listingEvents tbl_category_blocks 0 (fault E (clock w + 1)))).
Proof.
  intros H0.
  assert (∀ t, selectIDs t (tx w) = [] →
               getIDs E t w =
               (Ok [], later 2 w, listingEvents t 0 (fault E (clock w + 1)))) as Hg.
  { intros t Ht. pose proof (getIDs_run_Ok E t w) as H. rewrite Ht in H. simpl in H.
    apply H. intros i Hi. replace i with 0 by lia. by rewrite Nat.add_0_r. }
  split; intros Hempty;
    [unfold updateCategoryIDs | unfold updateCategoryBlocksIDs]; unmonad;
    (erewrite bind_run_Ok by (apply Hg; simpl; by rewrite Hempty));
    simpl; unfold bind, ret; simpl;
    rewrite rangeMap_empty; reflexivity.
Qed.

Lemma update_loops_on_empty_tables_witness :
  let E := Examples.env Examples.noFault reverse in
  let w := mkWorld Examples.dbA Examples.dbA TxOpen 0 0 in
  fault E (clock w) = None ∧
  updateCategoryIDs E w =
    (Ok tt, later 2 w, [EvOp (OpSelectIDs tbl_categories) None; EvOp OpCloseRows None]) ∧
  updateCategoryBlocksIDs E w =
    (Ok tt, later 2 w, [EvOp (OpSelectIDs tbl_category_blocks) None; EvOp OpCloseRows None]).
Proof.
  intros E w.
  destruct (update_loops_on_empty_tables E w) as [H1 H2]; [reflexivity|].
  split_and!; [reflexivity | by rewrite H1 | by rewrite H2].
Defined.

(** X7.  The calls of a successful [updateCategoryIDs], in order: the
    listing of [categories] (the query, one scan for each identifier read,
    the closing of the rows), then for each entry of the map, in the order
    the iteration visits them, the two statements of [updateCategoryID],
    each followed by the closing of its rows.  One identifier is generated
    for each identifier read, repeated identifiers included.  The
    identifiers read are the rows of the table up to the first iteration
    error. *)
Theorem updateCategoryIDs_calls (E : Env) (w w' : World) (u : unit) (t : list Event) :
  updateCategoryIDs E w = (Ok u, w', t) →
  let ids := delivered E (S (clock w)) (selectIDs tbl_categories (tx w)) in
  let categoryIDs := newIDsMap E (idc w) ids in
  (∃ r, t = listingEvents tbl_categories (length ids) r ++
            (rangeMap E categoryIDs ≫= updateCategoryIDEvents)) ∧
  ids = take (length ids) (selectIDs tbl_categories (tx w)) ∧
  idc w' = idc w + length ids.
Proof.
  intros H ids categoryIDs. split_and!.
  - by eapply updateCategoryIDs_Ok_events.
  - apply delivered_take.
  - by apply updateCategoryIDs_Ok in H as (_ & _ & -> & _).
Qed.

Lemma updateCategoryIDs_calls_witness :
  let E := Examples.env Examples.noFault id in
  let w := mkWorld Examples.dbB Examples.dbB TxOpen 0 0 in
  resultOf (updateCategoryIDs E w) = Ok tt ∧
  eventsOf (updateCategoryIDs E w) =
    [EvOp (OpSelectIDs tbl_categories) None; EvOp (OpScan tbl_categories) None;
     EvOp OpCloseRows None;
     EvOp (OpUpdateCategoriesID "7-0" "c1") None; EvOp OpRowsClose None;
     EvOp (OpUpdateCategoryBlocksCategoryID "7-0" "c1") None; EvOp OpRowsClose None] ∧
  idc (worldOf (updateCategoryIDs E w)) = 1.
Proof.
  intros E w.
  assert (updateCategoryIDs E w =
          (Ok tt, worldOf (updateCategoryIDs E w), eventsOf (updateCategoryIDs E w))) as Hrun
    by (vm_compute; reflexivity).
  destruct (updateCategoryIDs_calls E w _ tt _ Hrun) as (_ & _ & Hidc).
  split_and!; [reflexivity | vm_compute; reflexivity | exact Hidc].
Defined.

(** X8.  The calls of a successful [updateCategoryBlocksIDs], in order: the
    listing of [category_blocks], then one statement for each entry of the
    map; the rows of these statements are never closed.  One identifier is
    generated for each identifier read; the identifiers read are the rows
    of the table up to the first iteration error. *)
Theorem updateCategoryBlocksIDs_calls (E : Env) (w w' : World) (u : unit) (t : list Event) :
  updateCategoryBlocksIDs E w = (Ok u, w', t) →
  let ids := delivered E (S (clock w)) (selectIDs tbl_category_blocks (tx w)) in
  let categoryIDs := newIDsMap E (idc w) ids in
  (∃ r, t = listingEvents tbl_category_blocks (length ids) r ++
            (rangeMap E categoryIDs ≫= updateCategoryBlocksIDEvents)) ∧
  (EvOp OpRowsClose None ∉ t) ∧
  ids = take (length ids) (selectIDs tbl_category_blocks (tx w)) ∧
  idc w' = idc w + length ids.
Proof.
  intros H ids categoryIDs.
  assert (∃ r, t = listingEvents tbl_category_blocks (length ids) r ++
                   (rangeMap E categoryIDs ≫= updateCategoryBlocksIDEvents)) as Hev.
  { by eapply updateCategoryBlocksIDs_Ok_events. }
  split_and!; [done| | apply delivered_take |].
  - destruct Hev as [r ->]. unfold listingEvents. intros Hin.
    rewrite app_comm_cons, !elem_of_app, elem_of_cons, list_elem_of_bind in Hin.
    destruct Hin as [[[Hin | Hin] | Hin] | (on & Hin & _)].
    + discriminate.
    + apply elem_of_replicate in Hin as [Hin _]. discriminate.
    + destruct r; simpl in Hin;
        repeat (apply elem_of_cons in Hin as [Hin|Hin]; [discriminate|]);
        by apply elem_of_nil in Hin.
    + unfold updateCategoryBlocksIDEvents in Hin.
      apply elem_of_cons in Hin as [Hin|Hin]; [discriminate|].
      by apply elem_of_nil in Hin.
  - by apply updateCategoryBlocksIDs_Ok in H as (_ & _ & -> & _).
Qed.

Lemma updateCategoryBlocksIDs_calls_witness :
  let E := Examples.env Examples.noFault id in
  let w := mkWorld Examples.dbB Examples.dbB TxOpen 0 0 in
  resultOf (updateCategoryBlocksIDs E w) = Ok tt ∧
  eventsOf (updateCategoryBlocksIDs E w) =
    [EvOp (OpSelectIDs tbl_category_blocks) None; EvOp (OpScan tbl_category_blocks) None;
     EvOp OpCloseRows None; EvOp (OpUpdateCategoryBlocksID "7-0" "d1") None] ∧
  idc (worldOf (updateCategoryBlocksIDs E w)) = 1.
Proof.
  intros E w.
  assert (updateCategoryBlocksIDs E w =
          (Ok tt, worldOf (updateCategoryBlocksIDs E w),
           eventsOf (updateCategoryBlocksIDs E w))) as Hrun
    by (vm_compute; reflexivity).
  destruct (updateCategoryBlocksIDs_calls E w _ tt _ Hrun) as (_ & _ & _ & Hidc).
  split_and!; [reflexivity | vm_compute; reflexivity | exact Hidc].
Defined.

(** ** The category migration as a whole *)

Section CategoryRun.
Variable E : Env.

(** The renamed rows of a successful run, row by row. *)
Lemma category_run_rows w w' t :
  hasAlreadyRun CategoryUuidId (db w) = false →
  runCategoryUuidIdMigration E w = (Ok tt, w', t) →
  let ps1 := rangeMap E (categoryIDsMap E w) in
  let ps2 := rangeMap E (categoryBlocksIDsMap E w) in
  (∀ j c c', categories (db w) !! j = Some c → categories (db w') !! j = Some c' →
             c' = set_cat_id (renameIn ps1 (cat_id c)) c) ∧
  (∀ i r r', category_blocks (db w) !! i = Some r → category_blocks (db w') !! i = Some r' →
             r' = set_cb_id (renameIn ps2 (cb_id r))
                    (set_cb_category_id (renameIn ps1 (cb_category_id r)) r)).
Proof.
  intros Hflag Hrun ps1 ps2.
  destruct (runCategoryUuidIdMigration_Ok E w w' t Hflag Hrun) as (-> & _). simpl.
  split.
  - intros j c c' Hc. rewrite list_lookup_fmap, Hc. simpl. by intros [= <-].
  - intros i r r' Hr. rewrite list_lookup_fmap, Hr. simpl. by intros [= <-].
Qed.

(** Renaming by the map of a loop keeps different identifiers different,
    when the generator returns distinct values that are none of them. *)
Lemma renameBy_newIDsMap_apart c ids U x y :
  gen_distinct E c → gen_avoids E c U → x ∈ U → y ∈ U → x ≠ y →
  renameBy (newIDsMap E c ids) x ≠ renameBy (newIDsMap E c ids) y.
Proof.
  intros Hdist Havoid Hx Hy Hne. unfold renameBy.
  destruct (newIDsMap E c ids !! x) as [nx|] eqn:Hmx;
    destruct (newIDsMap E c ids !! y) as [ny|] eqn:Hmy; simpl; [| | |done].
  - apply newIDsMap_lookup_Some in Hmx as (i & Hi & _ & ->).
    apply newIDsMap_lookup_Some in Hmy as (j & Hj & _ & ->).
    intros Heq. apply Hdist in Heq; [|lia..].
    assert (i = j) as -> by lia. congruence.
  - apply newIDsMap_lookup_Some in Hmx as (i & _ & _ & ->).
    intros Heq. apply (Havoid (c + i) IDTypeNone); [lia|]. by rewrite Heq.
  - apply newIDsMap_lookup_Some in Hmy as (j & _ & _ & ->).
    intros Heq. apply (Havoid (c + j) IDTypeNone); [lia|]. by rewrite <- Heq.
Qed.

Lemma gen_distinct_mono c c' : c ≤ c' → gen_distinct E c → gen_distinct E c'.
Proof. intros Hle H i j u u' Hi Hj. apply H; lia. Qed.

Lemma gen_avoids_mono c c' U : c ≤ c' → gen_avoids E c U → gen_avoids E c' U.
Proof. intros Hle H i u Hi. apply H. lia. Qed.

Lemma gen_avoids_app c U V : gen_avoids E c U → gen_avoids E c V → gen_avoids E c (U ++ V).
Proof. intros HU HV i u Hi [Hin|Hin]%elem_of_app; [by eapply HU | by eapply HV]. Qed.

End CategoryRun.

(** X9.  A successful category migration keeps every reference, whatever
    the generator returns and in whatever order the maps are visited: a
    member that referred to a category before the run refers to the same
    row of [categories] after it, so a member whose category existed
    still has one. *)
Theorem category_references_survive (E : Env) (w w' : World) (t : list Event) :
  hasAlreadyRun CategoryUuidId (db w) = false →
  runCategoryUuidIdMigration E w = (Ok tt, w', t) →
  (∀ i j r c r' c',
     category_blocks (db w) !! i = Some r → categories (db w) !! j = Some c →
     category_blocks (db w') !! i = Some r' → categories (db w') !! j = Some c' →
     cb_category_id r = cat_id c → cb_category_id r' = cat_id c') ∧
  (∀ i r r',
     category_blocks (db w) !! i = Some r → category_blocks (db w') !! i = Some r' →
     cb_category_id r ∈ cat_id <$> categories (db w) →
     cb_category_id r' ∈ cat_id <$> categories (db w')).
Proof.
  intros Hflag Hrun.
  destruct (category_run_rows E w w' t Hflag Hrun) as [Hcat Hcb].
  assert (∀ i j r c r' c',
     category_blocks (db w) !! i = Some r → categories (db w) !! j = Some c →
     category_blocks (db w') !! i = Some r' → categories (db w') !! j = Some c' →
     cb_category_id r = cat_id c → cb_category_id r' = cat_id c') as Href.
  { intros i j r c r' c' Hr Hc Hr' Hc' Heq.
    rewrite (Hcat _ _ _ Hc Hc'), (Hcb _ _ _ Hr Hr'). simpl. by rewrite Heq. }
  split; [exact Href|].
  intros i r r' Hr Hr' (c & Heq & Hc)%list_elem_of_fmap.
  apply list_elem_of_lookup in Hc as [j Hc].
  destruct (runCategoryUuidIdMigration_Ok E w w' t Hflag Hrun) as (Hdb & _).
  assert (is_Some (categories (db w') !! j)) as [c' Hc'].
  { rewrite Hdb. simpl. rewrite list_lookup_fmap, Hc. simpl. eauto. }
  apply list_elem_of_fmap. exists c'. split; [by eapply Href|].
  by eapply list_elem_of_lookup_2.
Qed.

Lemma category_references_survive_witness :
  let E := Examples.env Examples.noFault (λ _, ["c1"; "c1"; "d1"; "d2"; "c2"]) in
  let w := Examples.start Examples.dbC in
  let w' := worldOf (runCategoryUuidIdMigration E w) in
  categories (db w') =
    [mkCategory "7-2" "inbox"; mkCategory "7-1" "later"; mkCategory "7-2" "copy"] ∧
  category_blocks (db w') =
    [mkCategoryBlock "7-3" "7-2" "blk1"; mkCategoryBlock "7-4" "7-1" "blk2"] ∧
  "7-2" ∈ cat_id <$> categories (db w').
Proof.
  intros E w w'.
  assert (runCategoryUuidIdMigration E w =
          (Ok tt, w', eventsOf (runCategoryUuidIdMigration E w))) as Hrun
    by (vm_compute; reflexivity).
  split_and!; [vm_compute; reflexivity..|].
  destruct (category_references_survive E w w' _ eq_refl Hrun) as [_ Hin].
  apply (Hin 0 (mkCategoryBlock "d1" "c1" "blk1") (mkCategoryBlock "7-3" "7-2" "blk1"));
    [reflexivity | vm_compute; reflexivity |].
  apply list_elem_of_fmap. exists (mkCategory "c1" "inbox"). split; [reflexivity|].
  apply list_elem_of_here.
Defined.

(** X10.  With a generator that returns distinct values, none of them an
    identifier or a reference of the tables, a successful category
    migration merges nothing: categories with different identifiers have
    different identifiers after the run, a member that did not refer to a
    category does not refer to it after the run, and members with
    different identifiers keep different identifiers. *)
Theorem category_migration_merges_nothing (E : Env) (w w' : World) (t : list Event) :
  rangeOrder_perm E →
  gen_distinct E (idc w) →
  gen_avoids E (idc w) (cat_id <$> categories (db w)) →
  gen_avoids E (idc w) (cb_category_id <$> category_blocks (db w)) →
  gen_avoids E (idc w) (cb_id <$> category_blocks (db w)) →
  hasAlreadyRun CategoryUuidId (db w) = false →
  runCategoryUuidIdMigration E w = (Ok tt, w', t) →
  (∀ i j c1 c2 c1' c2',
     categories (db w) !! i = Some c1 → categories (db w) !! j = Some c2 →
     categories (db w') !! i = Some c1' → categories (db w') !! j = Some c2' →
     cat_id c1 ≠ cat_id c2 → cat_id c1' ≠ cat_id c2') ∧
  (∀ i j r c r' c',
     category_blocks (db w) !! i = Some r → categories (db w) !! j = Some c →
     category_blocks (db w') !! i = Some r' → categories (db w') !! j = Some c' →
     cb_category_id r ≠ cat_id c → cb_category_id r' ≠ cat_id c') ∧
  (∀ i j r1 r2 r1' r2',
     category_blocks (db w) !! i = Some r1 → category_blocks (db w) !! j = Some r2 →
     category_blocks (db w') !! i = Some r1' → category_blocks (db w') !! j = Some r2' →
     cb_id r1 ≠ cb_id r2 → cb_id r1' ≠ cb_id r2').
Proof.
  intros Hperm Hdist Hav1 Hav2 Hav3 Hflag Hrun.
  pose proof (category_final_categories E Hperm w w' t Hflag Hrun Hav1) as [Hcats _].
  pose proof (category_final_category_blocks E Hperm w w' t Hflag Hrun Hav1 Hav3) as Hcbs.
  assert (∀ j c c', categories (db w) !! j = Some c → categories (db w') !! j = Some c' →
            cat_id c' = renameBy (categoryIDsMap E w) (cat_id c)) as Hc.
  { intros j c c' Hj. rewrite Hcats, list_lookup_fmap, Hj. simpl. by intros [= <-]. }
  assert (∀ i r r', category_blocks (db w) !! i = Some r →
            category_blocks (db w') !! i = Some r' →
            cb_category_id r' = renameBy (categoryIDsMap E w) (cb_category_id r) ∧
            cb_id r' = renameBy (categoryBlocksIDsMap E w) (cb_id r)) as Hr.
  { intros i r r' Hi. rewrite Hcbs, list_lookup_fmap, Hi. simpl. by intros [= <-]. }
  pose proof (gen_avoids_app E _ _ _ Hav1 Hav2) as Hav12.
  split_and!.
  - intros i j c1 c2 c1' c2' H1 H2 H1' H2' Hne.
    rewrite (Hc _ _ _ H1 H1'), (Hc _ _ _ H2 H2').
    apply (renameBy_newIDsMap_apart E _ _ _ _ _ Hdist Hav1); [| |done];
      apply list_elem_of_fmap; eexists; (split; [done|]); by eapply list_elem_of_lookup_2.
  - intros i j r c r' c' H1 H2 H1' H2' Hne.
    destruct (Hr _ _ _ H1 H1') as [-> _]. rewrite (Hc _ _ _ H2 H2').
    apply (renameBy_newIDsMap_apart E _ _ _ _ _ Hdist Hav12); [| |done];
      apply elem_of_app; [right|left];
      apply list_elem_of_fmap; eexists; (split; [done|]); by eapply list_elem_of_lookup_2.
  - intros i j r1 r2 r1' r2' H1 H2 H1' H2' Hne.
    destruct (Hr _ _ _ H1 H1') as [_ ->]. destruct (Hr _ _ _ H2 H2') as [_ ->].
    apply (renameBy_newIDsMap_apart E _ _ (cb_id <$> category_blocks (db w)));
      [ eapply gen_distinct_mono; [|exact Hdist]; lia
      | eapply gen_avoids_mono; [|exact Hav3]; lia
      | | | done];
      apply list_elem_of_fmap; eexists; (split; [done|]); by eapply list_elem_of_lookup_2.
Qed.

Lemma category_migration_merges_nothing_witness :
  let E := Examples.env Examples.noFault reverse in
  let w := Examples.start Examples.dbC in
  let w' := worldOf (runCategoryUuidIdMigration E w) in
  categories (db w) !! 0 = Some (mkCategory "c1" "inbox") ∧
  categories (db w) !! 1 = Some (mkCategory "c2" "later") ∧
  categories (db w') !! 0 = Some (mkCategory "7-2" "inbox") ∧
  categories (db w') !! 1 = Some (mkCategory "7-1" "later") ∧
  "7-2" ≠ "7-1".
Proof.
  intros E w w'.
  assert (runCategoryUuidIdMigration E w =
          (Ok tt, w', eventsOf (runCategoryUuidIdMigration E w))) as Hrun
    by (vm_compute; reflexivity).
  assert (rangeOrder_perm E) as Hperm by (intros l; apply reverse_Permutation).
  assert (gen_avoids E (idc w) (cat_id <$> categories (db w))) as Hav1 by genID_avoids.
  assert (gen_avoids E (idc w) (cb_category_id <$> category_blocks (db w))) as Hav2
    by genID_avoids.
  assert (gen_avoids E (idc w) (cb_id <$> category_blocks (db w))) as Hav3 by genID_avoids.
  destruct (category_migration_merges_nothing E w w' _ Hperm
              (genID_distinct _ _ _) Hav1 Hav2 Hav3 eq_refl Hrun) as (Hapart & _ & _).
  split_and!; [vm_compute; reflexivity..|].
  apply (Hapart 0 1 (mkCategory "c1" "inbox") (mkCategory "c2" "later")
           (mkCategory "7-2" "inbox") (mkCategory "7-1" "later"));
    [reflexivity | reflexivity | vm_compute; reflexivity | vm_compute; reflexivity
    | discriminate].
Defined.

(** X11.  A successful category migration changes identifier columns only
    and one setting: the table [blocks], the names of the categories, the
    block of each member, the number and the order of the rows, and every
    setting but the completion flag are as before; the flag reads "true";
    one identifier was generated for each identifier the two listings have
    read, at most one for each row of the two tables. *)
Theorem category_migration_changes_identifiers_only
    (E : Env) (w w' : World) (t : list Event) :
  hasAlreadyRun CategoryUuidId (db w) = false →
  runCategoryUuidIdMigration E w = (Ok tt, w', t) →
  blocks (db w') = blocks (db w) ∧
  cat_name <$> categories (db w') = cat_name <$> categories (db w) ∧
  cb_block_id <$> category_blocks (db w') = cb_block_id <$> category_blocks (db w) ∧
  (∀ key, key ≠ CategoryUUIDIDMigrationKey →
          system_settings (db w') !! key = system_settings (db w) !! key) ∧
  system_settings (db w') !! CategoryUUIDIDMigrationKey = Some "true" ∧
  idc w' = idc w + length (listedCategories E w) + length (listedCategoryBlocks E w) ∧
  length (listedCategories E w) ≤ length (categories (db w)) ∧
  length (listedCategoryBlocks E w) ≤ length (category_blocks (db w)).
Proof.
  intros Hflag Hrun.
  destruct (runCategoryUuidIdMigration_Ok E w w' t Hflag Hrun) as (-> & -> & _). simpl.
  rewrite <- !list_fmap_compose.
  split_and!; try done.
  - intros key Hkey. by rewrite lookup_insert_ne.
  - by rewrite lookup_insert_eq.
  - unfold listedCategories. etrans; [apply delivered_length|].
    simpl. by rewrite length_fmap.
  - unfold listedCategoryBlocks. etrans; [apply delivered_length|].
    simpl. by rewrite length_fmap.
Qed.

Lemma category_migration_changes_identifiers_only_witness :
  let E := Examples.env Examples.noFault reverse in
  let w := Examples.start Examples.dbC in
  let w' := worldOf (runCategoryUuidIdMigration E w) in
  resultOf (runCategoryUuidIdMigration E w) = Ok tt ∧
  cat_name <$> categories (db w') = ["inbox"; "later"; "copy"] ∧
  cb_block_id <$> category_blocks (db w') = ["blk1"; "blk2"] ∧
  idc w' = 5.
Proof.
  intros E w w'.
  assert (runCategoryUuidIdMigration E w =
          (Ok tt, w', eventsOf (runCategoryUuidIdMigration E w))) as Hrun
    by (vm_compute; reflexivity).
  destruct (category_migration_changes_identifiers_only E w w' _ eq_refl Hrun)
    as (_ & Hn & Hb & _ & _ & Hidc & _).
  split_and!; [reflexivity | exact Hn | exact Hb | rewrite Hidc; reflexivity].
Defined.

(** X12.  The calls of a successful category migration, in order: the
    schema gate and the flag read; the start message and [BeginTx]; the
    listing of [categories] (one scan for each identifier read) and the
    statements of [updateCategoryIDs]; the listing of [category_blocks],
    as [updateCategoryIDs] left it, and the statements of
    [updateCategoryBlocksIDs]; the write of the completion flag, last
    inside the transaction; the one [Commit]; the final message.  No
    [Rollback] is called. *)
Theorem category_migration_calls (E : Env) (w w' : World) (t : list Event) :
  hasAlreadyRun CategoryUuidId (db w) = false →
  runCategoryUuidIdMigration E w = (Ok tt, w', t) →
  (∃ r1 r2,
    t = gateAndFlagRead E CategoryUuidId ++
        [EvLog LDebug "Running category UUID ID migration" []; EvOp OpBeginTx None] ++
        listingEvents tbl_categories (length (listedCategories E w)) r1 ++
        (rangeMap E (categoryIDsMap E w) ≫= updateCategoryIDEvents) ++
        listingEvents tbl_category_blocks (length (listedCategoryBlocks E w)) r2 ++
        (rangeMap E (categoryBlocksIDsMap E w) ≫= updateCategoryBlocksIDEvents) ++
        [EvOp (OpSetSystemSetting CategoryUUIDIDMigrationKey "true") None;
         EvOp OpCommit None;
         EvLog LDebug "category IDs migration finished successfully" []]) ∧
  callsRollback t = false.
Proof.
  intros Hflag H. split.
  - by apply (runCategoryUuidIdMigration_Ok_events E w w').
  - pose proof (runCategoryUuidIdMigration_traced E w) as Htr.
    rewrite H in Htr. by apply quiet_no_rollback.
Qed.

Lemma category_migration_calls_witness :
  let E := Examples.env Examples.noFault id in
  let w := Examples.start Examples.dbB in
  resultOf (runCategoryUuidIdMigration E w) = Ok tt ∧
  ∃ r1 r2,
    eventsOf (runCategoryUuidIdMigration E w) =
    gateAndFlagRead E CategoryUuidId ++
    [EvLog LDebug "Running category UUID ID migration" []; EvOp OpBeginTx None] ++
    listingEvents tbl_categories 1 r1 ++
    updateCategoryIDEvents ("c1", "7-0") ++
    listingEvents tbl_category_blocks 1 r2 ++
    updateCategoryBlocksIDEvents ("d1", "7-1") ++
    [EvOp (OpSetSystemSetting CategoryUUIDIDMigrationKey "true") None;
     EvOp OpCommit None;
     EvLog LDebug "category IDs migration finished successfully" []].
Proof.
  intros E w.
  assert (runCategoryUuidIdMigration E w =
          (Ok tt, worldOf (runCategoryUuidIdMigration E w),
           eventsOf (runCategoryUuidIdMigration E w))) as Hrun
    by (vm_compute; reflexivity).
  split; [reflexivity|].
  destruct (category_migration_calls E w _ _ eq_refl Hrun) as ((r1 & r2 & Hev) & _).
  exists r1, r2. rewrite Hev. vm_compute. reflexivity.
Defined.

(** ** Every call is made in its place with respect to the transaction *)

Section Phases.
Variable E : Env.

Lemma phaseAfter_app p l1 l2 :
  phaseAfter p (l1 ++ l2) =
  match phaseAfter p l1 with
  | Some q => phaseAfter q l2
  | None => None
  end.
Proof.
  revert p. induction l1 as [|ev l1 IH]; intros p; simpl; [done|].
  destruct (phaseStep p ev); [apply IH | done].
Qed.

Lemma phased_ret {A} p (a : A) (Q QE : Phase → Prop) : Q p → phased p (ret a) Q QE.
Proof. intros HQ w. by exists p. Qed.

Lemma phased_bind {A C} p (m : M A) (k : A → M C) (Q R QE : Phase → Prop) :
  phased p m Q QE → (∀ a q, Q q → phased q (k a) R QE) → phased p (bind m k) R QE.
Proof.
  intros Hm Hk w. unfold bind, eventsOf, resultOf.
  destruct (Hm w) as (q & Hq & Hr). unfold eventsOf, resultOf in Hq, Hr.
  destruct (m w) as [[[a|e] w1] t1]; simpl in *.
  - destruct (Hk a q Hr w1) as (q2 & Hq2 & Hr2). unfold eventsOf, resultOf in Hq2, Hr2.
    destruct (k a w1) as [[r w2] t2]. simpl in *.
    exists q2. by rewrite phaseAfter_app, Hq.
  - by exists q.
Qed.

Lemma phased_weaken {A} p (m : M A) (Q Q' QE QE' : Phase → Prop) :
  phased p m Q QE → (∀ q, Q q → Q' q) → (∀ q, QE q → QE' q) → phased p m Q' QE'.
Proof.
  intros Hm HQ HQE w. destruct (Hm w) as (q & Hq & Hr). exists q. split; [done|].
  destruct (resultOf (m w)); auto.
Qed.

Lemma phased_foldM {X S} p (f : S → X → M S) s l (QE : Phase → Prop) :
  (∀ s0 x, phased p (f s0 x) (eq p) QE) → phased p (foldM f s l) (eq p) QE.
Proof.
  intros Hf. revert s. induction l as [|x l IH]; intros s; simpl.
  - by apply phased_ret.
  - eapply phased_bind; [apply Hf|]. intros s' q <-. apply IH.
Qed.

Lemma phased_forM_ {X} p (l : list X) (body : X → M unit) (QE : Phase → Prop) :
  (∀ x, phased p (body x) (eq p) QE) → phased p (forM_ l body) (eq p) QE.
Proof. intros Hb. apply phased_foldM. intros _ x. apply Hb. Qed.

Lemma phased_logDebug p msg (Q QE : Phase → Prop) : Q p → phased p (logDebug msg) Q QE.
Proof. intros HQ w. by exists p. Qed.

Lemma phased_NewID p u (Q QE : Phase → Prop) : Q p → phased p (NewID E u) Q QE.
Proof. intros HQ w. by exists p. Qed.

(** A call whose failure is handled by [c]. *)
Lemma phased_onErr_exec p q o eff c wr (Q QE : Phase → Prop) :
  phaseStep p (EvOp o None) = Some q → Q q →
  (∀ e w, ∃ q1 q2, phaseStep p (EvOp o (Some e)) = Some q1 ∧
                   phaseAfter q1 (c e w).2 = Some q2 ∧ QE q2) →
  phased p (onErr (exec E o eff) c wr) Q QE.
Proof.
  intros Hok HQ Herr w. unfold onErr, exec, eventsOf, resultOf.
  destruct (fault E (clock w)) as [e|]; simpl.
  - destruct (Herr e (tick w)) as (q1 & q2 & H1 & H2 & H3).
    destruct (c e (tick w)) as [w2 t2]. simpl in *. exists q2. by rewrite H1.
  - exists q. by rewrite Hok.
Qed.

Lemma phased_onErr_query {A} p q o (f : World → A) c wr (Q QE : Phase → Prop) :
  phaseStep p (EvOp o None) = Some q → Q q →
  (∀ e w, ∃ q1 q2, phaseStep p (EvOp o (Some e)) = Some q1 ∧
                   phaseAfter q1 (c e w).2 = Some q2 ∧ QE q2) →
  phased p (onErr (query E o f) c wr) Q QE.
Proof.
  intros Hok HQ Herr w. unfold onErr, query, eventsOf, resultOf.
  destruct (fault E (clock w)) as [e|]; simpl.
  - destruct (Herr e (tick w)) as (q1 & q2 & H1 & H2 & H3).
    destruct (c e (tick w)) as [w2 t2]. simpl in *. exists q2. by rewrite H1.
  - exists q. by rewrite Hok.
Qed.

(** A call whose error is returned at once. *)
Lemma phased_exec p q o eff (Q QE : Phase → Prop) :
  phaseStep p (EvOp o None) = Some q → Q q →
  (∀ e, ∃ q1, phaseStep p (EvOp o (Some e)) = Some q1 ∧ QE q1) →
  phased p (exec E o eff) Q QE.
Proof.
  intros Hok HQ Herr w. unfold exec, eventsOf, resultOf.
  destruct (fault E (clock w)) as [e|]; simpl.
  - destruct (Herr e) as (q1 & H1 & H2). exists q1. by rewrite H1.
  - exists q. by rewrite Hok.
Qed.

(** A deferred call that stays in the phase. *)
Lemma phased_defer {A} p c (m : M A) (Q QE : Phase → Prop) :
  phased p m Q QE →
  (∀ w q, Q q ∨ QE q → phaseAfter q (c w).2 = Some q) →
  phased p (defer c m) Q QE.
Proof.
  intros Hm Hc w. unfold defer, eventsOf, resultOf.
  destruct (Hm w) as (q & Hq & Hr). unfold eventsOf, resultOf in Hq, Hr.
  destruct (m w) as [[r w1] t1]. simpl in *.
  assert (Q q ∨ QE q) as Hq' by (destruct r; auto).
  specialize (Hc w1 q Hq'). destruct (c w1) as [w2 t2]. simpl in *.
  exists q. by rewrite phaseAfter_app, Hq.
Qed.

Lemma rollbackLogged_phase msg methodName w :
  phaseAfter POpen (rollbackLogged E msg methodName w).2 = Some PRolledBack.
Proof. unfold rollbackLogged, Rollback, exec. by destruct (fault E (clock w)). Qed.

Local Abbreviation inTx := (λ q : Phase, q = POpen).
Local Abbreviation committed := (λ q : Phase, q = PCommitted).
Local Abbreviation closedByFailure :=
  (λ q : Phase, q = PIdle ∨ q = PNoTx ∨ q = PRolledBack ∨ q = PCommitFailed).
Local Abbreviation notCommitted := (λ q : Phase, q ≠ PCommitted).
Local Abbreviation idleOrCommitted := (λ q : Phase, q = PIdle ∨ q = PCommitted).

Lemma phased_rowsNext p (Q QE : Phase → Prop) : Q p → phased p (rowsNext E) Q QE.
Proof. intros HQ w. by exists p. Qed.

(** The commit, whose failure is returned with nothing cleaned up. *)
Lemma phased_onErr_Commit wr (QE : Phase → Prop) :
  QE PCommitFailed → phased POpen (onErr (Commit E) noCleanup wr) committed QE.
Proof.
  intros HQE w. unfold onErr, Commit, eventsOf, resultOf.
  destruct (fault E (clock w)) as [e|]; simpl.
  - by exists PCommitFailed.
  - by exists PCommitted.
Qed.

Lemma scanRows_phased t acc rows : phased POpen (scanRows E t acc rows) (eq POpen) inTx.
Proof.
  revert acc. induction rows as [|x rows IH]; intros acc; simpl; unmonad.
  - by apply phased_ret.
  - apply (phased_bind POpen _ _ (eq POpen)); [by apply phased_rowsNext|].
    intros [|] q <-; [|by apply phased_ret].
    apply (phased_bind POpen _ _ (eq POpen)).
    + apply (phased_onErr_exec POpen POpen); [done | done |].
      intros e w. by exists POpen, POpen.
    + intros _ q <-. apply IH.
Qed.

(** Inside the open transaction [getIDs] stays inside it, also when it
    fails. *)
Lemma getIDs_phased t : phased POpen (getIDs E t) (eq POpen) inTx.
Proof.
  unfold getIDs. unmonad.
  apply (phased_bind POpen _ _ (eq POpen)).
  - apply (phased_onErr_query POpen POpen); [done | done |].
    intros e w. by exists POpen, POpen.
  - intros rows q <-. apply phased_defer.
    + apply scanRows_phased.
    + intros w q [<- | ->]; unfold CloseRows, exec; by destruct (fault E (clock w)).
Qed.

Lemma newIDsFor_phased p ids (QE : Phase → Prop) :
  phased p (newIDsFor E ids) (eq p) QE.
Proof.
  unfold newIDsFor. apply phased_foldM. intros m x. unmonad.
  apply (phased_bind p _ _ (eq p)); [by apply phased_NewID|].
  intros n q <-. by apply phased_ret.
Qed.

Lemma updateCategoryID_phased o n : phased POpen (updateCategoryID E o n) (eq POpen) inTx.
Proof.
  unfold updateCategoryID. unmonad.
  repeat (apply (phased_bind POpen _ _ (eq POpen));
          [ apply (phased_onErr_exec POpen POpen); [done | done |];
            intros e w; by exists POpen, POpen
          | intros _ ? <- ]).
  by apply phased_ret.
Qed.

Lemma updateCategoryBlocksID_phased o n :
  phased POpen (updateCategoryBlocksID E o n) (eq POpen) inTx.
Proof.
  unfold updateCategoryBlocksID. unmonad.
  apply (phased_bind POpen _ _ (eq POpen)).
  - apply (phased_onErr_exec POpen POpen); [done | done |].
    intros e w. by exists POpen, POpen.
  - intros _ q <-. by apply phased_ret.
Qed.

Lemma updateCategoryIDs_phased : phased POpen (updateCategoryIDs E) (eq POpen) inTx.
Proof.
  unfold updateCategoryIDs. unmonad.
  apply (phased_bind POpen _ _ (eq POpen)); [apply getIDs_phased|]. intros ids q <-.
  apply (phased_bind POpen _ _ (eq POpen)); [apply newIDsFor_phased|]. intros m q <-.
  apply (phased_bind POpen _ _ (eq POpen)).
  - apply phased_forM_. intros [o n]. apply updateCategoryID_phased.
  - intros _ q <-. by apply phased_ret.
Qed.

Lemma updateCategoryBlocksIDs_phased :
  phased POpen (updateCategoryBlocksIDs E) (eq POpen) inTx.
Proof.
  unfold updateCategoryBlocksIDs. unmonad.
  apply (phased_bind POpen _ _ (eq POpen)); [apply getIDs_phased|]. intros ids q <-.
  apply (phased_bind POpen _ _ (eq POpen)); [apply newIDsFor_phased|]. intros m q <-.
  apply (phased_bind POpen _ _ (eq POpen)).
  - apply phased_forM_. intros [o n]. apply updateCategoryBlocksID_phased.
  - intros _ q <-. by apply phased_ret.
Qed.

(** The end of both runs: the flag write, the commit, the final message. *)
Lemma finish_phased key msg cmsg fmsg mname (QE : Phase → Prop) :
  QE PRolledBack → QE PCommitFailed →
  phased POpen
    (bind (onErr (setSystemSetting E key (FormatBool true))
             (λ _, rollbackLogged E msg mname)
             (ErrWrap "cannot mark migration as completed"))
       (λ _, bind (onErr (Commit E) noCleanup (ErrWrap cmsg))
               (λ _, bind (logDebug fmsg) (λ _, ret tt))))
    committed QE.
Proof.
  intros HQE1 HQE2.
  apply (phased_bind POpen _ _ (eq POpen)).
  - apply (phased_onErr_exec POpen POpen); [done | done |].
    intros e w. exists POpen, PRolledBack. split_and!; [done | | done].
    apply rollbackLogged_phase.
  - intros _ q <-. apply (phased_bind POpen _ _ committed).
    + by apply phased_onErr_Commit.
    + intros _ q ->. apply (phased_bind PCommitted _ _ committed).
      * by apply phased_logDebug.
      * intros _ q ->. by apply phased_ret.
Qed.

(** The start of both runs: the schema gate and the flag read, before any
    transaction. *)
Lemma start_phased {A} version key (k : string → M A) (Q QE : Phase → Prop) :
  QE PIdle →
  (∀ setting, phased PIdle (k setting) Q QE) →
  phased PIdle
    (bind (ensureMigrationsAppliedUpToVersion E version)
       (λ _, bind (onErr (GetSystemSetting E key) noCleanup
                     (ErrWrap "cannot get migration state")) k))
    Q QE.
Proof.
  intros HQE Hk.
  apply (phased_bind PIdle _ _ (eq PIdle)).
  - apply (phased_exec PIdle PIdle); [done | done |]. intros e. by exists PIdle.
  - intros _ q <-. apply (phased_bind PIdle _ _ (eq PIdle)).
    + apply (phased_onErr_query PIdle PIdle); [done | done |].
      intros e w. by exists PIdle, PIdle.
    + intros setting q <-. apply Hk.
Qed.

Lemma BeginTx_phased (QE : Phase → Prop) :
  QE PNoTx → phased PIdle (BeginTx E) (eq POpen) QE.
Proof.
  intros HQE. apply (phased_exec PIdle POpen); [done | done |].
  intros e. by exists PNoTx.
Qed.

Lemma runUniqueIDsMigration_phased :
  phased PIdle (runUniqueIDsMigration E) idleOrCommitted closedByFailure.
Proof.
  unfold runUniqueIDsMigration. unmonad.
  apply start_phased; [by left|]. intros setting.
  destruct (ParseBool setting).1; [apply phased_ret; by left|].
  apply (phased_bind PIdle _ _ (eq PIdle)); [by apply phased_logDebug|]. intros _ q <-.
  apply (phased_bind PIdle _ _ (eq POpen)); [apply BeginTx_phased; tauto|]. intros _ q <-.
  apply (phased_weaken POpen _ committed _ closedByFailure); [|by right | done].
  apply (phased_bind POpen _ _ (eq POpen)).
  { apply (phased_onErr_query POpen POpen); [done | done |].
    intros e w. exists POpen, PRolledBack. split_and!; [done | | tauto].
    apply rollbackLogged_phase. }
  intros bs q <-.
  apply (phased_bind POpen _ _ (eq POpen)).
  { apply phased_forM_. intros [k g]. apply phased_forM_. intros [i b].
    destruct (decide (i = 0)); [by apply phased_ret|].
    apply (phased_bind POpen _ _ (eq POpen)); [by apply phased_NewID|]. intros newID q <-.
    apply (phased_onErr_exec POpen POpen); [done | done |].
    intros e w. exists POpen, PRolledBack. split_and!; [done | | tauto].
    apply rollbackLogged_phase. }
  intros _ q <-. apply finish_phased; tauto.
Qed.

Lemma runCategoryUuidIdMigration_phased :
  phased PIdle (runCategoryUuidIdMigration E) idleOrCommitted notCommitted.
Proof.
  unfold runCategoryUuidIdMigration. unmonad.
  apply start_phased; [done|]. intros setting.
  destruct (ParseBool setting).1; [apply phased_ret; by left|].
  apply (phased_bind PIdle _ _ (eq PIdle)); [by apply phased_logDebug|]. intros _ q <-.
  apply (phased_bind PIdle _ _ (eq POpen)); [by apply BeginTx_phased|]. intros _ q <-.
  apply (phased_weaken POpen _ committed _ notCommitted); [|by right | done].
  apply (phased_bind POpen _ _ (eq POpen)).
  { eapply phased_weaken; [apply updateCategoryIDs_phased | done | by intros q ->]. }
  intros _ q <-.
  apply (phased_bind POpen _ _ (eq POpen)).
  { eapply phased_weaken; [apply updateCategoryBlocksIDs_phased | done | by intros q ->]. }
  intros _ q <-. by apply finish_phased.
Qed.

End Phases.


(** ** What holds of the world along a run *)

Section Hoare.
Variable E : Env.

Lemma hoare_ret {A} (a : A) (P Q QE : World → Prop) :
  (∀ w, P w → Q w) → hoare P (ret a) Q QE.
Proof. intros H w Hw. by apply H. Qed.

Lemma hoare_bind {A C} (m : M A) (k : A → M C) (P Q R QE : World → Prop) :
  hoare P m Q QE → (∀ a, hoare Q (k a) R QE) → hoare P (bind m k) R QE.
Proof.
  intros Hm Hk w Hw. unfold bind, resultOf, worldOf. specialize (Hm w Hw).
  unfold resultOf, worldOf in Hm.
  destruct (m w) as [[[a|e] w1] t1]; simpl in *; [|done].
  specialize (Hk a w1 Hm). unfold resultOf, worldOf in Hk.
  by destruct (k a w1) as [[r w2] t2].
Qed.

Lemma hoare_weaken {A} (m : M A) (P Q Q' QE QE' : World → Prop) :
  hoare P m Q QE → (∀ w, Q w → Q' w) → (∀ w, QE w → QE' w) → hoare P m Q' QE'.
Proof.
  intros Hm HQ HQE w Hw. specialize (Hm w Hw).
  destruct (resultOf (m w)); auto.
Qed.

Lemma hoare_foldM {X S} (f : S → X → M S) s l (I QE : World → Prop) :
  (∀ s0 x, hoare I (f s0 x) I QE) → hoare I (foldM f s l) I QE.
Proof.
  intros Hf. revert s. induction l as [|x l IH]; intros s; simpl.
  - by apply hoare_ret.
  - eapply hoare_bind; [apply Hf | intros s'; apply IH].
Qed.

Lemma hoare_forM_ {X} (l : list X) (body : X → M unit) (I QE : World → Prop) :
  (∀ x, hoare I (body x) I QE) → hoare I (forM_ l body) I QE.
Proof. intros Hb. apply hoare_foldM. intros _ x. apply Hb. Qed.

Lemma hoare_exec o eff (P Q QE : World → Prop) :
  (∀ w, P w → Q (eff (tick w))) → (∀ w, P w → QE (tick w)) →
  hoare P (exec E o eff) Q QE.
Proof.
  intros HQ HQE w Hw. unfold exec, resultOf, worldOf.
  destruct (fault E (clock w)); simpl; auto.
Qed.

Lemma hoare_query {A} o (f : World → A) (P Q QE : World → Prop) :
  (∀ w, P w → Q (tick w)) → (∀ w, P w → QE (tick w)) →
  hoare P (query E o f) Q QE.
Proof.
  intros HQ HQE w Hw. unfold query, resultOf, worldOf.
  destruct (fault E (clock w)); simpl; auto.
Qed.

Lemma hoare_Commit (P Q QE : World → Prop) :
  (∀ w, P w → Q (commit_tx (tick w))) →
  (∀ w, P w → QE (commit_unknown (commitLands E (clock w)) (tick w))) →
  hoare P (Commit E) Q QE.
Proof.
  intros HQ HQE w Hw. unfold Commit, resultOf, worldOf.
  destruct (fault E (clock w)); simpl; auto.
Qed.

Lemma hoare_onErr {A} (m : M A) c wr (P Q QE QE' : World → Prop) :
  hoare P m Q QE' → (∀ e w, QE' w → QE (c e w).1) → hoare P (onErr m c wr) Q QE.
Proof.
  intros Hm Hc w Hw. unfold onErr, resultOf, worldOf. specialize (Hm w Hw).
  unfold resultOf, worldOf in Hm.
  destruct (m w) as [[[a|e] w1] t1]; simpl in *; [done|].
  specialize (Hc e w1 Hm). by destruct (c e w1) as [w2 t2].
Qed.

Lemma hoare_defer {A} c (m : M A) (P Q QE Q' QE' : World → Prop) :
  hoare P m Q' QE' → (∀ w, Q' w → Q (c w).1) → (∀ w, QE' w → QE (c w).1) →
  hoare P (defer c m) Q QE.
Proof.
  intros Hm HQ HQE w Hw. unfold defer, resultOf, worldOf. specialize (Hm w Hw).
  unfold resultOf, worldOf in Hm.
  destruct (m w) as [[r w1] t1]. simpl in *.
  specialize (HQ w1). specialize (HQE w1).
  destruct (c w1) as [w2 t2]. simpl in *. destruct r; auto.
Qed.

(** *** A setting that no statement of a run writes *)

Section Setting.
Variables (key : string) (v : option string).

Local Abbreviation committedIs := (λ w : World, system_settings (db w) !! key = v).
Local Abbreviation bothAre :=
  (λ w : World, system_settings (db w) !! key = v ∧ system_settings (tx w) !! key = v).

Lemma setting_exec o f :
  (∀ d, system_settings (f d) !! key = system_settings d !! key) →
  hoare bothAre (exec E o (with_tx f)) bothAre bothAre.
Proof.
  intros Hf. apply hoare_exec; intros w [H1 H2]; simpl; [|done].
  split; [done|]. by rewrite Hf.
Qed.

Lemma setting_exec_id o : hoare bothAre (exec E o id) bothAre bothAre.
Proof. by apply hoare_exec. Qed.

Lemma setting_query {A} o (f : World → A) : hoare bothAre (query E o f) bothAre bothAre.
Proof. by apply hoare_query. Qed.

Lemma setting_NewID u : hoare bothAre (NewID E u) bothAre bothAre.
Proof. by intros w Hw. Qed.

Lemma setting_rowsNext : hoare bothAre (rowsNext E) bothAre bothAre.
Proof. by intros w Hw. Qed.

Lemma setting_logDebug (P : World → Prop) msg : hoare P (logDebug msg) P P.
Proof. by intros w Hw. Qed.

Lemma setting_rollbackLogged msg methodName w :
  bothAre w → bothAre (rollbackLogged E msg methodName w).1.
Proof.
  intros [H1 H2]. unfold rollbackLogged, Rollback, exec.
  by destruct (fault E (clock w)).
Qed.

Lemma setting_CloseRows w : bothAre w → bothAre (CloseRows E w).1.
Proof. intros H. by rewrite CloseRows_eq. Qed.

Lemma setting_scanRows t acc rows : hoare bothAre (scanRows E t acc rows) bothAre bothAre.
Proof.
  revert acc. induction rows as [|x rows IH]; intros acc; simpl; unmonad.
  - by apply hoare_ret.
  - eapply hoare_bind; [apply setting_rowsNext|]. intros [|]; [|by apply hoare_ret].
    eapply (hoare_bind _ _ _ bothAre); [|intros _; apply IH].
    eapply hoare_onErr; [apply setting_exec_id | done].
Qed.

Lemma setting_getIDs t : hoare bothAre (getIDs E t) bothAre bothAre.
Proof.
  unfold getIDs. unmonad. eapply hoare_bind.
  - eapply hoare_onErr; [apply setting_query | done].
  - intros rows. eapply hoare_defer; [apply setting_scanRows | |];
      intros w; apply setting_CloseRows.
Qed.

Lemma setting_newIDsFor ids : hoare bothAre (newIDsFor E ids) bothAre bothAre.
Proof.
  unfold newIDsFor. apply hoare_foldM. intros m x. unmonad.
  eapply hoare_bind; [apply setting_NewID | intros n; by apply hoare_ret].
Qed.

Lemma setting_updateCategoryIDs : hoare bothAre (updateCategoryIDs E) bothAre bothAre.
Proof.
  unfold updateCategoryIDs, updateCategoryID. unmonad.
  eapply hoare_bind; [apply setting_getIDs | intros ids].
  eapply hoare_bind; [apply setting_newIDsFor | intros m].
  eapply (hoare_bind _ _ _ bothAre); [|intros _; by apply hoare_ret].
  apply hoare_forM_. intros [o n].
  eapply hoare_bind; [eapply hoare_onErr; [by apply setting_exec | done] | intros _].
  eapply hoare_bind; [eapply hoare_onErr; [apply setting_exec_id | done] | intros _].
  eapply hoare_bind; [eapply hoare_onErr; [by apply setting_exec | done] | intros _].
  eapply hoare_bind; [eapply hoare_onErr; [apply setting_exec_id | done] | intros _].
  by apply hoare_ret.
Qed.

Lemma setting_updateCategoryBlocksIDs :
  hoare bothAre (updateCategoryBlocksIDs E) bothAre bothAre.
Proof.
  unfold updateCategoryBlocksIDs, updateCategoryBlocksID. unmonad.
  eapply hoare_bind; [apply setting_getIDs | intros ids].
  eapply hoare_bind; [apply setting_newIDsFor | intros m].
  eapply (hoare_bind _ _ _ bothAre); [|intros _; by apply hoare_ret].
  apply hoare_forM_. intros [o n].
  eapply hoare_bind; [eapply hoare_onErr; [by apply setting_exec | done] | intros _].
  by apply hoare_ret.
Qed.

(** The end of both runs: the flag write, the commit (applied or not when
    it returns an error), the final message. *)
Lemma setting_finish flag msg cmsg fmsg mname :
  key ≠ flag →
  hoare bothAre
    (bind (onErr (setSystemSetting E flag (FormatBool true))
             (λ _, rollbackLogged E msg mname)
             (ErrWrap "cannot mark migration as completed"))
       (λ _, bind (onErr (Commit E) noCleanup (ErrWrap cmsg))
               (λ _, bind (logDebug fmsg) (λ _, ret tt))))
    committedIs committedIs.
Proof.
  intros Hkey.
  eapply hoare_bind.
  - eapply (hoare_onErr _ _ _ _ _ _ bothAre).
    + apply setting_exec. intros d. unfold sqlSetSystemSetting. simpl.
      by rewrite lookup_insert_ne.
    + intros e w Hw. by apply setting_rollbackLogged.
  - intros _. eapply hoare_bind.
    + eapply (hoare_onErr _ _ _ bothAre committedIs committedIs committedIs);
        [|done]. apply hoare_Commit.
      * by intros w [H1 H2].
      * intros w [H1 H2]. simpl. by destruct (commitLands E (clock w)).
    + intros _. eapply hoare_bind; [apply setting_logDebug|].
      intros _. by apply hoare_ret.
Qed.

(** The start of both runs. *)
Lemma setting_start {A} version flag (k : string → M A) :
  (∀ setting, hoare committedIs (k setting) committedIs committedIs) →
  hoare committedIs
    (bind (ensureMigrationsAppliedUpToVersion E version)
       (λ _, bind (onErr (GetSystemSetting E flag) noCleanup
                     (ErrWrap "cannot get migration state")) k))
    committedIs committedIs.
Proof.
  intros Hk.
  eapply (hoare_bind _ _ _ committedIs); [by apply hoare_exec | intros _].
  eapply (hoare_bind _ _ _ committedIs); [|apply Hk].
  eapply (hoare_onErr _ _ _ _ _ _ committedIs); [by apply hoare_query | done].
Qed.

Lemma setting_BeginTx : hoare committedIs (BeginTx E) bothAre committedIs.
Proof. by apply hoare_exec. Qed.

Lemma setting_runUniqueIDsMigration :
  key ≠ UniqueIDsMigrationKey →
  hoare committedIs (runUniqueIDsMigration E) committedIs committedIs.
Proof.
  intros Hkey. unfold runUniqueIDsMigration. unmonad.
  apply setting_start. intros setting.
  destruct (ParseBool setting).1; [by apply hoare_ret|].
  eapply hoare_bind; [apply setting_logDebug | intros _].
  eapply hoare_bind; [apply setting_BeginTx | intros _].
  eapply (hoare_bind _ _ _ bothAre).
  { eapply (hoare_weaken _ _ bothAre _ bothAre); [|done | by intros w [H1 H2]].
    eapply (hoare_onErr _ _ _ _ _ _ bothAre); [apply setting_query|].
    intros e w Hw. by apply setting_rollbackLogged. }
  intros bs. eapply (hoare_bind _ _ _ bothAre).
  { eapply (hoare_weaken _ _ bothAre _ bothAre); [|done | by intros w [H1 H2]].
    apply hoare_forM_. intros [k g]. apply hoare_forM_. intros [i b].
    destruct (decide (i = 0)); [by apply hoare_ret|].
    eapply hoare_bind; [apply setting_NewID | intros newID].
    eapply (hoare_onErr _ _ _ _ _ _ bothAre); [by apply setting_exec|].
    intros e w Hw. by apply setting_rollbackLogged. }
  intros _. by apply setting_finish.
Qed.

Lemma setting_runCategoryUuidIdMigration :
  key ≠ CategoryUUIDIDMigrationKey →
  hoare committedIs (runCategoryUuidIdMigration E) committedIs committedIs.
Proof.
  intros Hkey. unfold runCategoryUuidIdMigration. unmonad.
  apply setting_start. intros setting.
  destruct (ParseBool setting).1; [by apply hoare_ret|].
  eapply hoare_bind; [apply setting_logDebug | intros _].
  eapply hoare_bind; [apply setting_BeginTx | intros _].
  eapply (hoare_bind _ _ _ bothAre).
  { eapply (hoare_weaken _ _ bothAre _ bothAre);
      [apply setting_updateCategoryIDs | done | by intros w [H1 H2]]. }
  intros _. eapply (hoare_bind _ _ _ bothAre).
  { eapply (hoare_weaken _ _ bothAre _ bothAre);
      [apply setting_updateCategoryBlocksIDs | done | by intros w [H1 H2]]. }
  intros _. by apply setting_finish.
Qed.

End Setting.

End Hoare.

(** ** Runs that stop early, runs that fail, and the committed database *)

Section Runs.
Variable E : Env.

Lemma runMigration_unfold mig :
  runMigration E mig =
  bind (ensureMigrationsAppliedUpToVersion E (requiredVersion E mig))
    (λ _, bind (onErr (GetSystemSetting E (migrationKey mig)) noCleanup
                  (ErrWrap "cannot get migration state"))
            (λ setting,
               if (ParseBool setting).1 then ret tt
               else bind (logDebug (startMessage mig))
                      (λ _, bind (BeginTx E)
                              (λ _, match mig with
                                    | UniqueIDs =>
  blocks ← onErr (getBlocksWithSameID E)
             (λ _, rollbackLogged E "unique IDs transaction rollback error"
                     "getBlocksWithSameID")
             (ErrWrap "cannot get blocks with same ID");
  let blocksByID := groupByID blocks in
  forM_ (rangeMap E blocksByID) (λ '(_, blocks),
    forM_ (imap pair blocks) (λ '(i, block),
      if decide (i = 0) then mret tt else
      newID ← NewID E (BlockType2IDType E (BlockType block));
      onErr (replaceBlockID E (ID block) newID (WorkspaceID block))
            (λ _, rollbackLogged E "unique IDs transaction rollback error" "replaceBlockID")
            (ErrWrap ("cannot replace blockID " +:+ ID block))));;
  onErr (setSystemSetting E UniqueIDsMigrationKey (FormatBool true))
        (λ _, rollbackLogged E "unique IDs transaction rollback error" "setSystemSetting")
        (ErrWrap "cannot mark migration as completed");;
  onErr (Commit E) noCleanup (ErrWrap "cannot commit unique IDs transaction");;
  logDebug "Unique IDs migration finished successfully";;
  mret tt
                                    | CategoryUuidId =>
  updateCategoryIDs E;;
  updateCategoryBlocksIDs E;;
  onErr (setSystemSetting E CategoryUUIDIDMigrationKey (FormatBool true))
        (λ _, rollbackLogged E "category IDs transaction rollback error" "setSystemSetting")
        (ErrWrap "cannot mark migration as completed");;
  onErr (Commit E) noCleanup (ErrWrap "cannot commit category IDs transaction");;
  logDebug "category IDs migration finished successfully";;
  mret tt
                                    end)))).
Proof. by destruct mig. Qed.

(** The three ways a run stops before its transaction. *)
Lemma runMigration_gate_failure mig w e :
  fault E (clock w) = Some e →
  runMigration E mig w =
  (Err e, later 1 w, [EvOp (OpEnsureMigrations (requiredVersion E mig)) (Some e)]).
Proof.
  intros H0. rewrite runMigration_unfold.
  erewrite bind_run_Err by (apply exec_run_Err, H0).
  by rewrite <- later_tick, later_0.
Qed.

Lemma runMigration_flag_read_failure mig w e :
  fault E (clock w) = None → fault E (clock w + 1) = Some e →
  runMigration E mig w =
  (Err (ErrWrap "cannot get migration state" e), later 2 w,
   [EvOp (OpEnsureMigrations (requiredVersion E mig)) None;
    EvOp (OpGetSystemSetting (migrationKey mig)) (Some e)]).
Proof.
  intros H0 H1. rewrite runMigration_unfold.
  erewrite bind_run_Ok by (apply exec_run_Ok, H0).
  erewrite bind_run_Err.
  2:{ apply onErr_run_Err, query_run_Err. simpl. by rewrite <- Nat.add_1_r. }
  simpl. unfold id. by rewrite <- (later_0 w) at 1.
Qed.

Lemma runMigration_BeginTx_failure mig w e :
  fault E (clock w) = None → fault E (clock w + 1) = None →
  hasAlreadyRun mig (db w) = false →
  fault E (clock w + 2) = Some e →
  runMigration E mig w =
  (Err e, later 3 w,
   gateAndFlagRead E mig ++
   [EvLog LDebug (startMessage mig) []; EvOp OpBeginTx (Some e)]).
Proof.
  intros H0 H1 Hflag H2. rewrite runMigration_unfold.
  erewrite bind_run_Ok by (apply exec_run_Ok, H0).
  erewrite bind_run_Ok.
  2:{ apply onErr_run_Ok, query_run_Ok. simpl. by rewrite <- Nat.add_1_r. }
  simpl. unfold hasAlreadyRun in Hflag. rewrite Hflag.
  erewrite bind_run_Ok by reflexivity.
  erewrite bind_run_Err.
  2:{ apply exec_run_Err. simpl. replace (S (S (clock w))) with (clock w + 2) by lia.
      exact H2. }
  simpl. unfold id. by rewrite <- (later_0 w) at 1.
Qed.

(** A run changes no setting but the flag of its migration. *)
Lemma runMigration_other_settings mig w key :
  key ≠ migrationKey mig →
  system_settings (db (worldOf (runMigration E mig w))) !! key =
  system_settings (db w) !! key.
Proof.
  intros Hkey.
  assert (hoare (λ w0, system_settings (db w0) !! key = system_settings (db w) !! key)
            (runMigration E mig)
            (λ w0, system_settings (db w0) !! key = system_settings (db w) !! key)
            (λ w0, system_settings (db w0) !! key = system_settings (db w) !! key)) as H.
  { destruct mig; [by apply setting_runUniqueIDsMigration
                  | by apply setting_runCategoryUuidIdMigration]. }
  specialize (H w eq_refl). by destruct (resultOf (runMigration E mig w)).
Qed.

End Runs.

(** X14.  The three ways a run of either migration stops before its
    transaction.  A failure of the schema gate is returned as it is and
    the flag is not read.  A failure of the flag read is returned wrapped
    with "cannot get migration state" and no transaction is begun.  A
    failure of [BeginTx] is returned as it is, after the start message,
    and nothing is rolled back.  In the three cases no other call is made
    and the store is as before. *)
Theorem runs_that_stop_before_the_transaction
    (E : Env) (mig : Migration) (w : World) (e : error) :
  (fault E (clock w) = Some e →
   runMigration E mig w =
   (Err e, later 1 w, [EvOp (OpEnsureMigrations (requiredVersion E mig)) (Some e)])) ∧
  (fault E (clock w) = None → fault E (clock w + 1) = Some e →
   runMigration E mig w =
   (Err (ErrWrap "cannot get migration state" e), later 2 w,
    [EvOp (OpEnsureMigrations (requiredVersion E mig)) None;
     EvOp (OpGetSystemSetting (migrationKey mig)) (Some e)])) ∧
  (fault E (clock w) = None → fault E (clock w + 1) = None →
   hasAlreadyRun mig (db w) = false →
   fault E (clock w + 2) = Some e →
   runMigration E mig w =
   (Err e, later 3 w,
    gateAndFlagRead E mig ++
    [EvLog LDebug (startMessage mig) []; EvOp OpBeginTx (Some e)])).
Proof.
  split_and!.
  - apply runMigration_gate_failure.
  - apply runMigration_flag_read_failure.
  - apply runMigration_BeginTx_failure.
Qed.

Lemma runs_that_stop_before_the_transaction_witness :
  let e := ErrBase "down" in
  let w := Examples.start Examples.dbB in
  runMigration (Examples.env (Examples.failAt 0 e) id) CategoryUuidId w =
    (Err e, later 1 w, [EvOp (OpEnsureMigrations 16) (Some e)]) ∧
  runMigration (Examples.env (Examples.failAt 1 e) id) UniqueIDs w =
    (Err (ErrWrap "cannot get migration state" e), later 2 w,
     [EvOp (OpEnsureMigrations 14) None;
      EvOp (OpGetSystemSetting "UniqueIDsMigrationComplete") (Some e)]) ∧
  runMigration (Examples.env (Examples.failAt 2 e) id) CategoryUuidId w =
    (Err e, later 3 w,
     [EvOp (OpEnsureMigrations 16) None;
      EvOp (OpGetSystemSetting "CategoryUuidIdMigrationComplete") None;
      EvLog LDebug "Running category UUID ID migration" [];
      EvOp OpBeginTx (Some e)]).
Proof.
  intros e w. split_and!.
  - by apply (runs_that_stop_before_the_transaction
                (Examples.env (Examples.failAt 0 e) id) CategoryUuidId w e).
  - by apply (runs_that_stop_before_the_transaction
                (Examples.env (Examples.failAt 1 e) id) UniqueIDs w e).
  - by apply (runs_that_stop_before_the_transaction
                (Examples.env (Examples.failAt 2 e) id) CategoryUuidId w e).
Defined.

(** X15.  The committed database changes at a commit only: after any run
    of either migration it is as before, unless the run returned [Ok], had
    found its flag not set, and leaves it set, or unless the run has
    called [Commit] and [Commit] has returned an error, which the run
    returns wrapped.  (What the committed database is after a commit that
    returned an error is not decided by the code.) *)
Theorem committed_database_changes_at_the_commit_only
    (E : Env) (mig : Migration) (w : World) :
  let run := runMigration E mig w in
  db (worldOf run) = db w ∨
  (resultOf run = Ok tt ∧ hasAlreadyRun mig (db w) = false ∧
   hasAlreadyRun mig (db (worldOf run)) = true) ∨
  (∃ e0, resultOf run = Err (returnedError mig OpCommit e0) ∧
         EvOp OpCommit (Some e0) ∈ eventsOf run).
Proof.
  intros run. subst run.
  pose proof (runMigration_traced E mig w) as Htr.
  destruct (runMigration E mig w) as [[[u|e] w'] t] eqn:Hrun.
  - destruct u. destruct (hasAlreadyRun mig (db w)) eqn:Hflag.
    + left.
      assert (fault E (clock w) = None ∧ fault E (S (clock w)) = None) as [H0 H1].
      { rewrite runMigration_unfold in Hrun.
        unfold ensureMigrationsAppliedUpToVersion, GetSystemSetting in Hrun.
        apply bind_Ok in Hrun as (? & ? & ? & ? & Hg & Hrun & _).
        apply exec_Ok in Hg as (? & -> & _).
        apply bind_Ok in Hrun as (? & ? & ? & ? & Hq & _ & _).
        apply onErr_Ok, query_Ok in Hq as (? & _). done. }
      rewrite (runMigration_completed E mig w H0 H1 Hflag) in Hrun.
      by injection Hrun as <- _.
    + right. left. split_and!; [done | done |]. by eapply runMigration_Ok_flag.
  - destruct Htr as (pre & o & e0 & post & Hev & Hpre & Ho & He & Hpost & _).
    unfold resultOf, eventsOf, worldOf in *. simpl in *.
    destruct (decide (o = OpCommit)) as [->|Hne].
    + right. right. exists e0. split; [by rewrite He|].
      rewrite Hev. apply elem_of_app. right. apply list_elem_of_here.
    + left. pose proof (runMigration_Err_db E mig w pre o e0 post) as Hdb.
      rewrite Hrun in Hdb. by apply Hdb.
Qed.

(** X16.  In the unique-IDs migration a failure is rolled back exactly when
    it happens inside the transaction before the commit: a failing run
    stopped at one failed call; [Rollback] was not called before it; after
    it only cleanup follows; and [Rollback] is called then if and only if
    the failed call is the duplicate scan, a replacement of a block
    identifier or the flag write.  Unless the failed call is the commit,
    the committed database is as before the run. *)
Theorem uniqueIDs_failure_in_transaction_is_rolled_back
    (E : Env) (w : World) (e : error) :
  resultOf (runUniqueIDsMigration E w) = Err e →
  ∃ pre o e0 post,
    eventsOf (runUniqueIDsMigration E w) = pre ++ EvOp o (Some e0) :: post ∧
    callsRollback pre = false ∧ cleanupOnly post ∧
    (callsRollback post = true ↔
     o = OpGetBlocksWithSameID ∨ (∃ cur new ws, o = OpReplaceBlockID cur new ws) ∨
     (∃ key value, o = OpSetSystemSetting key value)) ∧
    (o ≠ OpCommit → db (worldOf (runUniqueIDsMigration E w)) = db w).
Proof.
  intros Hr.
  pose proof (runUniqueIDsMigration_traced E w) as H. rewrite Hr in H.
  destruct H as (pre & o & e0 & post & Hev & Hpre & Ho & -> & Hpost & Hrb).
  exists pre, o, e0, post.
  split_and!; [done | by apply quiet_no_rollback | done | |].
  - rewrite Hrb. clear.
    destruct o; simpl; (split; [intros Ht | intros Ho]);
      try discriminate Ht;
      try (destruct Ho as [Ho | [(? & ? & ? & Ho) | (? & ? & Ho)]]; discriminate Ho);
      try reflexivity.
    + by left.
    + right. left. by eexists _, _, _.
    + right. right. by eexists _, _.
  - intros Hne. by apply (runMigration_Err_db E UniqueIDs w pre o e0 post).
Qed.

Lemma uniqueIDs_failure_in_transaction_is_rolled_back_witness :
  let e := ErrBase "down" in
  let E := Examples.env (Examples.failAt 4 e) id in
  let w := Examples.start Examples.dbA in
  resultOf (runUniqueIDsMigration E w) =
    Err (ErrWrap "cannot replace blockID a" e) ∧
  ∃ pre o e0 post,
    eventsOf (runUniqueIDsMigration E w) = pre ++ EvOp o (Some e0) :: post ∧
    callsRollback pre = false ∧ cleanupOnly post ∧
    (callsRollback post = true ↔
     o = OpGetBlocksWithSameID ∨ (∃ cur new ws, o = OpReplaceBlockID cur new ws) ∨
     (∃ key value, o = OpSetSystemSetting key value)) ∧
    (o ≠ OpCommit → db (worldOf (runUniqueIDsMigration E w)) = db w).
Proof.
  intros e E w.
  assert (resultOf (runUniqueIDsMigration E w) =
          Err (ErrWrap "cannot replace blockID a" e)) as Hr by (vm_compute; reflexivity).
  split; [exact Hr|].
  exact (uniqueIDs_failure_in_transaction_is_rolled_back E w _ Hr).
Defined.

(** X17.  A run of either migration, whatever its outcome, changes no
    setting but the completion flag of its own migration; in particular it
    does not change what the other migration reads as its flag. *)
Theorem run_changes_no_other_setting (E : Env) (mig mig' : Migration) (w : World) :
  (∀ key, key ≠ migrationKey mig →
          system_settings (db (worldOf (runMigration E mig w))) !! key =
          system_settings (db w) !! key) ∧
  (mig' ≠ mig →
   hasAlreadyRun mig' (db (worldOf (runMigration E mig w))) = hasAlreadyRun mig' (db w)).
Proof.
  split.
  - intros key. apply runMigration_other_settings.
  - intros Hne. unfold hasAlreadyRun, settingValue.
    rewrite runMigration_other_settings; [done|]. by destruct mig, mig'.
Qed.

(** X18.  The two migrations compose: when one migration has returned [Ok]
    and the other is then run and returns [Ok], both completion flags read
    as set, so a further run of either is a no-op. *)
Theorem both_migrations_complete
    (E : Env) (mig mig' : Migration) (w w1 w2 : World) (t1 t2 : list Event) :
  mig' ≠ mig →
  runMigration E mig w = (Ok tt, w1, t1) →
  runMigration E mig' w1 = (Ok tt, w2, t2) →
  hasAlreadyRun mig (db w2) = true ∧ hasAlreadyRun mig' (db w2) = true.
Proof.
  intros Hne H1 H2. split.
  - pose proof (runMigration_other_settings E mig' w1 (migrationKey mig)) as Hk.
    rewrite H2 in Hk. unfold worldOf in Hk. simpl in Hk.
    unfold hasAlreadyRun, settingValue. rewrite Hk by (by destruct mig, mig').
    by apply (runMigration_Ok_flag E mig w w1 t1).
  - by apply (runMigration_Ok_flag E mig' w1 w2 t2).
Qed.

Lemma both_migrations_complete_witness :
  let E := Examples.env Examples.noFault reverse in
  let w := Examples.start Examples.dbC in
  let w1 := worldOf (runMigration E CategoryUuidId w) in
  let w2 := worldOf (runMigration E UniqueIDs w1) in
  resultOf (runMigration E CategoryUuidId w) = Ok tt ∧
  resultOf (runMigration E UniqueIDs w1) = Ok tt ∧
  hasAlreadyRun CategoryUuidId (db w2) = true ∧ hasAlreadyRun UniqueIDs (db w2) = true.
Proof.
  intros E w w1 w2.
  assert (runMigration E CategoryUuidId w =
          (Ok tt, w1, eventsOf (runMigration E CategoryUuidId w))) as H1
    by (vm_compute; reflexivity).
  assert (runMigration E UniqueIDs w1 =
          (Ok tt, w2, eventsOf (runMigration E UniqueIDs w1))) as H2
    by (vm_compute; reflexivity).
  destruct (both_migrations_complete E CategoryUuidId UniqueIDs w w1 w2 _ _
              ltac:(discriminate) H1 H2) as [Ha Hb].
  split_and!; [reflexivity | reflexivity | exact Ha | exact Hb].
Defined.

(** ** The calls of the unique-IDs migration *)

Section UniqueIDsCalls.
Variable E : Env.

Local Abbreviation replaceBody :=
  (λ '(i, block),
     if decide (i = 0) then ret tt else
     bind (NewID E (BlockType2IDType E (BlockType block)))
       (λ newID,
          onErr (replaceBlockID E (ID block) newID (WorkspaceID block))
            (λ _, rollbackLogged E "unique IDs transaction rollback error" "replaceBlockID")
            (ErrWrap ("cannot replace blockID " +:+ ID block)))).

Local Abbreviation groupBody :=
  (λ '(_, blocks), forM_ (imap pair blocks) replaceBody).

(** The inner loop on rows none of which is the first of its group. *)
Lemma replaceLoop_Ok_events (l : list (nat * Block)) w u w' t :
  Forall (λ ib, ib.1 ≠ 0) l →
  forM_ l replaceBody w = (Ok u, w', t) →
  t = plan E (idc w) l.*2 ≫= replaceBlockIDEvents ∧ idc w' = idc w + length l.
Proof.
  intros Hl. revert w u t. unfold forM_.
  induction Hl as [|[i b] l Hi _ IH]; intros w u t H; simpl in H.
  - inv_ok. split; [done | simpl; lia].
  - simpl in Hi. destruct (decide (i = 0)); [done|].
    unfold replaceBlockID in H. inv_ok.
    match goal with a : unit |- _ => destruct a end.
    apply IH in H as [-> ->]. simpl. split; [done | lia].
Qed.

Lemma groupLoop_Ok_events (g : string * list Block) w u w' t :
  groupBody g w = (Ok u, w', t) →
  t = plan E (idc w) (tail g.2) ≫= replaceBlockIDEvents ∧
  idc w' = idc w + length (tail g.2).
Proof.
  destruct g as [k [|b0 bs]]; simpl.
  - unfold forM_. simpl. intros H. inv_ok. split; [done | simpl; lia].
  - unfold forM_. simpl. intros H. inv_ok.
    match goal with a : unit |- _ => destruct a end.
    destruct (imap_shifted (pair ∘ S) bs) as [H1 H2]; [done|].
    apply (replaceLoop_Ok_events _ _ _ _ _ H1) in H as [-> ->].
    rewrite H2. split; [done|]. by rewrite <- H2 at 2; rewrite length_fmap.
Qed.

Lemma groupsLoop_Ok_events (gs : list (string * list Block)) w u w' t :
  forM_ gs groupBody w = (Ok u, w', t) →
  t = plan E (idc w) (todoOf gs) ≫= replaceBlockIDEvents ∧
  idc w' = idc w + length (todoOf gs).
Proof.
  revert w u t. unfold forM_.
  induction gs as [|g gs IH]; intros w u t H; simpl in H.
  - inv_ok. split; [done | simpl; lia].
  - inv_ok. match goal with a : unit |- _ => destruct a end.
    match goal with H0 : _ = (Ok tt, ?w0, ?t0) |- _ =>
      destruct (groupLoop_Ok_events g w tt w0 t0 H0) as [-> Hc] end.
    apply IH in H as [-> ->]. rewrite Hc.
    unfold todoOf. simpl. rewrite plan_app, bind_app, length_app.
    split; [done | symmetry; apply Nat.add_assoc].
Qed.

(** The calls of a successful run and the identifiers it generated. *)
Lemma runUniqueIDsMigration_Ok_events w w' t :
  hasAlreadyRun UniqueIDs (db w) = false →
  runUniqueIDsMigration E w = (Ok tt, w', t) →
  t = gateAndFlagRead E UniqueIDs ++
      [EvLog LDebug "Running Unique IDs migration" []; EvOp OpBeginTx None;
       EvOp OpGetBlocksWithSameID None] ++
      (plan E (idc w) (uniqueIDsTodo E (db w)) ≫= replaceBlockIDEvents) ++
      [EvOp (OpSetSystemSetting UniqueIDsMigrationKey "true") None;
       EvOp OpCommit None;
       EvLog LDebug "Unique IDs migration finished successfully" []] ∧
  idc w' = idc w + length (uniqueIDsTodo E (db w)).
Proof.
  unfold hasAlreadyRun. simpl.
  intros Hflag H. unfold runUniqueIDsMigration in H. unmonad.
  unfold ensureMigrationsAppliedUpToVersion, GetSystemSetting, BeginTx,
    getBlocksWithSameID, setSystemSetting in H.
  inv_ok. simpl in H. rewrite Hflag in H. inv_ok.
  match goal with H : forM_ _ _ _ = (Ok _, _, _) |- _ =>
    apply groupsLoop_Ok_events in H as [-> Hc] end.
  simpl in *. rewrite Hc. split; [|done].
  reflexivity.
Qed.

End UniqueIDsCalls.

(** X19.  The calls of a successful unique-IDs migration, in order: the
    schema gate and the flag read; the start message and [BeginTx]; the
    duplicate scan; for each group of the rows it returned, in the order
    the map is visited, and for each row of the group but the first, one
    [replaceBlockID] with the row's identifier, an identifier generated
    for the kind of the row's type, and the row's workspace; the write of
    the completion flag, last inside the transaction; the one [Commit];
    the final message.  One identifier is generated for each replaced
    row. *)
Theorem uniqueIDs_migration_calls (E : Env) (w w' : World) (t : list Event) :
  hasAlreadyRun UniqueIDs (db w) = false →
  runUniqueIDsMigration E w = (Ok tt, w', t) →
  let scanned := sqlBlocksWithSameID (db w) in
  let todo := rangeMap E (groupByID scanned) ≫= (λ g, tail g.2) in
  t = gateAndFlagRead E UniqueIDs ++
      [EvLog LDebug "Running Unique IDs migration" []; EvOp OpBeginTx None;
       EvOp OpGetBlocksWithSameID None] ++
      (plan E (idc w) todo ≫= replaceBlockIDEvents) ++
      [EvOp (OpSetSystemSetting UniqueIDsMigrationKey "true") None;
       EvOp OpCommit None;
       EvLog LDebug "Unique IDs migration finished successfully" []] ∧
  idc w' = idc w + length todo.
Proof. intros Hflag Hrun. by apply runUniqueIDsMigration_Ok_events. Qed.

Lemma uniqueIDs_migration_calls_witness :
  let E := Examples.env Examples.noFault id in
  let w := Examples.start
             (mkDB [mkBlock "a" "w1" "card" "first"; mkBlock "a" "w2" "board" "second";
                    mkBlock "b" "w1" "card" "third"; mkBlock "a" "w3" "card" "fourth"]
                   [] [] ∅) in
  eventsOf (runUniqueIDsMigration E w) =
    [EvOp (OpEnsureMigrations 14) None;
     EvOp (OpGetSystemSetting "UniqueIDsMigrationComplete") None;
     EvLog LDebug "Running Unique IDs migration" []; EvOp OpBeginTx None;
     EvOp OpGetBlocksWithSameID None;
     EvOp (OpReplaceBlockID "a" "b-0" "w2") None;
     EvOp (OpReplaceBlockID "a" "c-1" "w3") None;
     EvOp (OpSetSystemSetting "UniqueIDsMigrationComplete" "true") None;
     EvOp OpCommit None;
     EvLog LDebug "Unique IDs migration finished successfully" []] ∧
  idc (worldOf (runUniqueIDsMigration E w)) = 2.
Proof.
  intros E w.
  assert (runUniqueIDsMigration E w =
          (Ok tt, worldOf (runUniqueIDsMigration E w),
           eventsOf (runUniqueIDsMigration E w))) as Hrun
    by (vm_compute; reflexivity).
  destruct (uniqueIDs_migration_calls E w _ _ eq_refl Hrun) as [Hev Hidc].
  split; [rewrite Hev | rewrite Hidc]; vm_compute; reflexivity.
Defined.

(** X20.  When the duplicate scan returns no row, a successful unique-IDs
    migration replaces no identifier and generates none: it commits the
    database as it was with the completion flag set, and its only calls
    inside the transaction are the scan and the flag write. *)
Theorem uniqueIDs_migration_without_duplicates (E : Env) (w w' : World) (t : list Event) :
  hasAlreadyRun UniqueIDs (db w) = false →
  sqlBlocksWithSameID (db w) = [] →
  runUniqueIDsMigration E w = (Ok tt, w', t) →
  db w' = sqlSetSystemSetting UniqueIDsMigrationKey "true" (db w) ∧
  idc w' = idc w ∧
  t = gateAndFlagRead E UniqueIDs ++
      [EvLog LDebug "Running Unique IDs migration" []; EvOp OpBeginTx None;
       EvOp OpGetBlocksWithSameID None;
       EvOp (OpSetSystemSetting UniqueIDsMigrationKey "true") None;
       EvOp OpCommit None;
       EvLog LDebug "Unique IDs migration finished successfully" []].
Proof.
  intros Hflag Hscan Hrun.
  destruct (runUniqueIDsMigration_Ok E w w' t Hflag Hrun) as (Hdb & _).
  destruct (runUniqueIDsMigration_Ok_events E w w' t Hflag Hrun) as [Hev Hidc].
  unfold uniqueIDsEffect in Hdb. unfold uniqueIDsTodo in Hev, Hidc.
  rewrite Hscan in Hdb, Hev, Hidc.
  change (groupByID []) with (∅ : gmap string (list Block)) in Hdb, Hev, Hidc.
  rewrite rangeMap_empty in Hdb, Hev, Hidc. simpl in *.
  split_and!; [done | lia | done].
Qed.

Lemma uniqueIDs_migration_without_duplicates_witness :
  let E := Examples.env Examples.noFault id in
  let w := Examples.start Examples.dbC in
  let w' := worldOf (runUniqueIDsMigration E w) in
  sqlBlocksWithSameID (db w) = [] ∧
  resultOf (runUniqueIDsMigration E w) = Ok tt ∧
  db w' = sqlSetSystemSetting UniqueIDsMigrationKey "true" (db w) ∧
  idc w' = 0.
Proof.
  intros E w w'.
  assert (runUniqueIDsMigration E w =
          (Ok tt, w', eventsOf (runUniqueIDsMigration E w))) as Hrun
    by (vm_compute; reflexivity).
  destruct (uniqueIDs_migration_without_duplicates E w w' _ eq_refl eq_refl Hrun)
    as (Hdb & Hidc & _).
  split_and!; [reflexivity | reflexivity | exact Hdb | exact Hidc].
Defined.

(** ** The grouping loop and [updateCategoryBlocksID] *)

(** X21.  The grouping loop of the unique-IDs migration keeps the order of
    the scan: the group of an identifier is the list of the scanned rows
    with that identifier, in the order they were returned, so the row the
    inner loop skips is the first one returned; no group is empty; every
    scanned row is in the group of its identifier and in no other. *)
Theorem grouping_keeps_the_order_of_the_scan (scanned : list Block) :
  (∀ X g, groupByID scanned !! X = Some g ↔ g = rowsWithID X scanned ∧ g ≠ []) ∧
  (∀ b, b ∈ scanned → ∃ g, groupByID scanned !! ID b = Some g ∧ b ∈ g) ∧
  (∀ X g b, groupByID scanned !! X = Some g → b ∈ g → ID b = X ∧ b ∈ scanned).
Proof.
  assert (∀ X g, groupByID scanned !! X = Some g ↔ g = rowsWithID X scanned ∧ g ≠ [])
    as Hg.
  { intros X g. rewrite groupByID_lookup. unfold rowsWithID.
    destruct (filter (λ b, ID b = X) scanned) as [|b0 l]; split.
    - done.
    - by intros [-> ?].
    - by intros [= <-].
    - by intros [-> _]. }
  split_and!; [exact Hg | |].
  - intros b Hb. exists (rowsWithID (ID b) scanned).
    assert (b ∈ rowsWithID (ID b) scanned) as Hin by (by apply list_elem_of_filter).
    split; [|done]. apply Hg. split; [done|]. intros Hnil. rewrite Hnil in Hin.
    by apply elem_of_nil in Hin.
  - intros X g b [-> _]%Hg Hin. by apply list_elem_of_filter in Hin.
Qed.

(** X22.  A successful [updateCategoryBlocksID] renames members and touches
    nothing else, in the transaction only: it issues one statement; with a
    new identifier different from the old one no member carries the old
    identifier any more; an old identifier that no member carries changes
    nothing; and the categories, the category and the block of each
    member, the table [blocks], the settings and the committed database
    are as before. *)
Theorem updateCategoryBlocksID_renames_members_only
    (E : Env) (oldID newID : string) (w w' : World) (u : unit) (t : list Event) :
  updateCategoryBlocksID E oldID newID w = (Ok u, w', t) →
  t = [EvOp (OpUpdateCategoryBlocksID newID oldID) None] ∧
  (newID ≠ oldID → oldID ∉ cb_id <$> category_blocks (tx w')) ∧
  (oldID ∉ cb_id <$> category_blocks (tx w) → tx w' = tx w) ∧
  (categories (tx w') = categories (tx w) ∧
   cb_category_id <$> category_blocks (tx w') = cb_category_id <$> category_blocks (tx w) ∧
   cb_block_id <$> category_blocks (tx w') = cb_block_id <$> category_blocks (tx w) ∧
   blocks (tx w') = blocks (tx w) ∧
   system_settings (tx w') = system_settings (tx w)) ∧
  db w' = db w ∧ idc w' = idc w.
Proof.
  intros H.
  pose proof (updateCategoryBlocksID_Ok_events E _ _ _ _ _ _ H) as Hev.
  apply updateCategoryBlocksID_Ok in H as (Htx & Hdb & Hidc). rewrite Htx.
  unfold categoryBlocksStep, sqlUpdateCategoryBlocksID. simpl.
  rewrite <- !list_fmap_compose.
  split_and!; try done.
  - intros Hne (r & Heq & _)%list_elem_of_fmap. simpl in Heq.
    destruct (decide (cb_id r = oldID)); simpl in Heq; congruence.
  - intros Hab. destruct (tx w) as [bs cs cbs st]. unfold with_category_blocks.
    simpl in *. f_equal.
    rewrite <- (list_fmap_id cbs) at 2. apply list_fmap_ext. intros i r Hr. simpl.
    destruct (decide (cb_id r = oldID)) as [Heq|]; [|done].
    exfalso. apply Hab, list_elem_of_fmap. exists r. split; [done|].
    by eapply list_elem_of_lookup_2.
  - apply list_fmap_ext. intros _ r _. simpl. by destruct (decide (cb_id r = oldID)).
  - apply list_fmap_ext. intros _ r _. simpl. by destruct (decide (cb_id r = oldID)).
Qed.

Lemma updateCategoryBlocksID_renames_members_only_witness :
  let E := Examples.env Examples.noFault id in
  let w := mkWorld Examples.dbC Examples.dbC TxOpen 0 0 in
  let w' := worldOf (updateCategoryBlocksID E "d1" "n1" w) in
  resultOf (updateCategoryBlocksID E "d1" "n1" w) = Ok tt ∧
  category_blocks (tx w') =
    [mkCategoryBlock "n1" "c1" "blk1"; mkCategoryBlock "d2" "c2" "blk2"] ∧
  categories (tx w') = categories (tx w) ∧
  db w' = db w.
Proof.
  intros E w w'.
  assert (updateCategoryBlocksID E "d1" "n1" w =
          (Ok tt, w', eventsOf (updateCategoryBlocksID E "d1" "n1" w))) as Hrun
    by (vm_compute; reflexivity).
  destruct (updateCategoryBlocksID_renames_members_only E "d1" "n1" w w' tt _ Hrun)
    as (_ & _ & _ & (Hc & _) & Hdb & _).
  split_and!; [reflexivity | vm_compute; reflexivity | exact Hc | exact Hdb].
Defined.


(** ** Listings that are cut short, and listings that are not *)

(** X23.  When no iteration of a row set meets an error, every identifier
    of [categories] is listed and a successful category migration, with a
    generator that returns no identifier of a category, replaces them all:
    every category identifier has an entry in [categoryIDs], an identifier
    generated during the run that was not an identifier of a category;
    every category row carries the entry of its old identifier; every
    foreign key [category_id] of [category_blocks] is rewritten by the same
    map; and a row of [category_blocks] that referred to a category [c]
    refers, after the run, to the renamed row of [c], which is in the
    table. *)
Theorem complete_listing_replaces_every_category_identifier
    (E : Env) (w w' : World) (t : list Event) :
  rangeOrder_perm E →
  (∀ c, nextErr E c = None) →
  gen_avoids E (idc w) (cat_id <$> categories (db w)) →
  hasAlreadyRun CategoryUuidId (db w) = false →
  runCategoryUuidIdMigration E w = (Ok tt, w', t) →
  let categoryIDs := categoryIDsMap E w in
  listedCategories E w = cat_id <$> categories (db w) ∧
  (∀ c, c ∈ categories (db w) →
     ∃ k, idc w ≤ k < idc w' ∧
          categoryIDs !! cat_id c = Some (utils_NewID E k IDTypeNone) ∧
          utils_NewID E k IDTypeNone ∉ cat_id <$> categories (db w)) ∧
  categories (db w') =
    (λ c, set_cat_id (renameBy categoryIDs (cat_id c)) c) <$> categories (db w) ∧
  cb_category_id <$> category_blocks (db w') =
    (λ r, renameBy categoryIDs (cb_category_id r)) <$> category_blocks (db w) ∧
  (∀ i r r' c,
     category_blocks (db w) !! i = Some r →
     category_blocks (db w') !! i = Some r' →
     c ∈ categories (db w) → cb_category_id r = cat_id c →
     cb_category_id r' = renameBy categoryIDs (cat_id c) ∧
     set_cat_id (cb_category_id r') c ∈ categories (db w')).
Proof.
  intros Hperm Hnext Havoid Hflag Hrun categoryIDs.
  destruct (category_final_categories E Hperm w w' t Hflag Hrun Havoid) as [Hcats Hfk].
  destruct (runCategoryUuidIdMigration_Ok E w w' t Hflag Hrun) as (_ & Hidc & _).
  assert (listedCategories E w = cat_id <$> categories (db w)) as Hall.
  { unfold listedCategories. apply delivered_all. intros i _. apply Hnext. }
  split_and!; [done | | done | done |].
  - intros c Hc.
    assert (cat_id c ∈ listedCategories E w) as Hin
      by (rewrite Hall; apply list_elem_of_fmap; eauto).
    apply (newIDsMap_lookup_is_Some E (idc w)) in Hin as [n Hn].
    destruct (newIDsMap_lookup_ge E _ _ _ _ Hn) as (k & Hk & -> & _).
    exists k. split_and!; [lia | lia | done |]. apply Havoid. lia.
  - intros i r r' c Hr Hr' Hc Href.
    assert (cb_category_id r' = renameBy categoryIDs (cat_id c)) as Hnew.
    { apply (f_equal (λ l, l !! i)) in Hfk. rewrite !list_lookup_fmap, Hr, Hr' in Hfk.
      simpl in Hfk. injection Hfk as ->. by rewrite Href. }
    split; [done|]. rewrite Hnew, Hcats. apply list_elem_of_fmap. eauto.
Qed.

Lemma complete_listing_replaces_every_category_identifier_witness :
  let E := Examples.env Examples.noFault reverse in
  let w := Examples.start Examples.dbB in
  let w' := worldOf (runCategoryUuidIdMigration E w) in
  let categoryIDs := categoryIDsMap E w in
  listedCategories E w = cat_id <$> categories (db w) ∧
  (∀ c, c ∈ categories (db w) →
     ∃ k, idc w ≤ k < idc w' ∧
          categoryIDs !! cat_id c = Some (utils_NewID E k IDTypeNone) ∧
          utils_NewID E k IDTypeNone ∉ cat_id <$> categories (db w)) ∧
  categories (db w') =
    (λ c, set_cat_id (renameBy categoryIDs (cat_id c)) c) <$> categories (db w) ∧
  cb_category_id <$> category_blocks (db w') =
    (λ r, renameBy categoryIDs (cb_category_id r)) <$> category_blocks (db w) ∧
  (∀ i r r' c,
     category_blocks (db w) !! i = Some r →
     category_blocks (db w') !! i = Some r' →
     c ∈ categories (db w) → cb_category_id r = cat_id c →
     cb_category_id r' = renameBy categoryIDs (cat_id c) ∧
     set_cat_id (cb_category_id r') c ∈ categories (db w')).
Proof.
  intros E w w'.
  refine (complete_listing_replaces_every_category_identifier E w w'
            (eventsOf (runCategoryUuidIdMigration E w)) _ _ _ _ _).
  - intros l. apply reverse_Permutation.
  - reflexivity.
  - genID_avoids.
  - reflexivity.
  - vm_compute. reflexivity.
Defined.

(** X24.  What a successful category migration does not replace: a row of
    [categories] whose identifier the listing has not read, because the
    iteration ended on an error before it, is committed as it was, and a
    row of [category_blocks] whose category was not read keeps its
    reference, whatever the generator returns. *)
Theorem unlisted_category_keeps_its_identifier
    (E : Env) (w w' : World) (t : list Event) :
  rangeOrder_perm E →
  hasAlreadyRun CategoryUuidId (db w) = false →
  runCategoryUuidIdMigration E w = (Ok tt, w', t) →
  (∀ i c c', categories (db w) !! i = Some c → categories (db w') !! i = Some c' →
             cat_id c ∉ listedCategories E w → c' = c) ∧
  (∀ i r r', category_blocks (db w) !! i = Some r →
             category_blocks (db w') !! i = Some r' →
             cb_category_id r ∉ listedCategories E w →
             cb_category_id r' = cb_category_id r).
Proof.
  intros Hperm Hflag Hrun.
  destruct (runCategoryUuidIdMigration_Ok E w w' t Hflag Hrun) as (Hdb & _).
  assert (∀ x, x ∉ listedCategories E w →
               renameIn (rangeMap E (categoryIDsMap E w)) x = x) as Hkeep.
  { intros x Hx. apply renameIn_not_key.
    intros ([k n] & -> & Hkn)%list_elem_of_fmap. apply Hx.
    apply (elem_of_rangeMap E Hperm) in Hkn.
    apply (newIDsMap_lookup_is_Some E (idc w)). eauto. }
  split.
  - intros i c c' Hc Hc' Hx. rewrite Hdb in Hc'. simpl in Hc'.
    rewrite list_lookup_fmap, Hc in Hc'. simpl in Hc'. injection Hc' as <-.
    rewrite Hkeep by done. by destruct c.
  - intros i r r' Hr Hr' Hx. rewrite Hdb in Hr'. simpl in Hr'.
    rewrite list_lookup_fmap, Hr in Hr'. simpl in Hr'. injection Hr' as <-.
    simpl. by apply Hkeep.
Qed.

Lemma unlisted_category_keeps_its_identifier_witness :
  let E := Examples.envWith Examples.noFault
             (Examples.failAt 5 (ErrBase "connection lost")) (λ _, false) reverse in
  let w := Examples.start Examples.dbD in
  let w' := worldOf (runCategoryUuidIdMigration E w) in
  listedCategories E w = ["c1"] ∧
  categories (db w) !! 1 = Some (mkCategory "c2" "later") ∧
  categories (db w') !! 1 = Some (mkCategory "c2" "later").
Proof.
  intros E w w'.
  assert (runCategoryUuidIdMigration E w =
          (Ok tt, w', eventsOf (runCategoryUuidIdMigration E w))) as Hrun
    by (vm_compute; reflexivity).
  assert (rangeOrder_perm E) as Hperm by (intros l; apply reverse_Permutation).
  destruct (unlisted_category_keeps_its_identifier E w w' _ Hperm eq_refl Hrun)
    as [Hkeep _].
  assert (is_Some (categories (db w') !! 1)) as [c' Hc'] by (vm_compute; eauto).
  split_and!; [reflexivity | reflexivity |].
  rewrite Hc'. f_equal.
  apply (Hkeep 1 (mkCategory "c2" "later") c'); [reflexivity | exact Hc' |].
  vm_compute. intros Hin. apply elem_of_cons in Hin as [Hin|Hin]; [discriminate|].
  by apply elem_of_nil in Hin.
Defined.

(** ** The replacements of the unique-IDs migration, on the table *)


